(** * math-ts: a shallow embedding of the 2D/3D geometry kernel

    The kernel ([math.ts]) works on JavaScript numbers stored in small
    mutable arrays.  Numbers are IEEE-754 binary64 values, which is
    exactly what Rocq's primitive [float] implements, so a [number] is a
    [float] and every arithmetic operator of the source is the primitive
    operator of the same name.  Arrays live in an explicit store and are
    addressed by reference, so that a destination argument which is the
    same array as a source argument is modelled as such.  An element of
    an array is a number or [undefined], which is what the holes of
    [new Array(n)] read as; it is converted to a number where the source
    uses it as an operand, and kept as it is where the source stores or
    prints it. *)

From Stdlib Require Import ZArith List Bool Lia Floats String RelationClasses.
Import ListNotations.

Set Implicit Arguments.

(** ** The host language: numbers *)

Definition number := float.
Bind Scope float_scope with number.

Definition NaN : number := nan.
Definition Infinity : number := infinity.

(** [ℤ → number]: the Number closest to an integer (round to nearest, ties
    to even), computed by the binary64 rounding function itself. *)
Definition Z2F (n : Z) : number :=
  SF2Prim (binary_normalize prec emax n 0 false).

(** The greatest integer not above the exact value of a finite number; [0]
    for zeros and for values that are not finite.  A number [±m·2^e] with
    [e < 0] is shifted right, which rounds towards minus infinity. *)
Definition floorZ (x : number) : Z :=
  match Prim2SF x with
  | S754_finite s m e => Z.shiftl (cond_Zopp s (Zpos m)) e
  | _ => 0%Z
  end.

(** The exact value of a finite number multiplied by [2^1074], which is an
    integer because no binary64 exponent is below [-1074]. *)
Definition SFscaled (x : spec_float) : Z :=
  match x with
  | S754_finite s m e => cond_Zopp s (Zpos m * 2 ^ (e + 1074))
  | _ => 0%Z
  end.

Definition scaled (x : number) : Z := SFscaled (Prim2SF x).

Definition SFfinite (x : spec_float) : bool :=
  match x with
  | S754_zero _ | S754_finite _ _ _ => true
  | _ => false
  end.

(** A number that is NaN or an infinity. *)
Definition not_finite (x : number) : bool := is_nan x || is_infinity x.

(** [x] is finite and its value is the integer [n]. *)
Definition is_integer (x : number) (n : Z) : Prop :=
  not_finite x = false /\ scaled x = (n * 2 ^ 1074)%Z.

(** A mantissa and exponent in the canonical form of binary64: 53 digits,
    or fewer at the least exponent. *)
Definition canonical (m : positive) (e : Z) : Prop :=
  Z.max (Zpos (digits2_pos m) + e - 53) (-1074) = e /\ (e <= 971)%Z.

Module Number.

(** [Number.isInteger(n)]: [n] is finite and [floor(n)] is [n]. *)
Definition isInteger (x : number) : bool :=
  match Prim2SF x with
  | S754_zero _ => true
  | S754_finite _ m e => (0 <=? e)%Z || (Zpos m mod 2 ^ (- e) =? 0)%Z
  | _ => false
  end.

End Number.

Module Math.

Definition PI : number := 0x1.921fb54442d18p+1%float.

(** [Math.floor(x)]: NaN, the zeros and the infinities are returned as they
    are, and so is a finite number with no fractional bits; otherwise the
    result is the Number of the integer below. *)
Definition floor (x : number) : number :=
  match Prim2SF x with
  | S754_finite s m e => if (0 <=? e)%Z then x else Z2F (floorZ x)
  | _ => x
  end.

Definition is_neg_zero (x : number) : bool := is_zero x && get_sign x.

(** [Math.min(a, b)] and [Math.max(a, b)]: NaN if either argument is NaN;
    [-0] is below [+0]. *)
Definition min (a b : number) : number :=
  if is_nan a || is_nan b then NaN
  else if (a <? b)%float then a
  else if (b <? a)%float then b
  else if is_neg_zero a then a else b.

Definition max (a b : number) : number :=
  if is_nan a || is_nan b then NaN
  else if (a <? b)%float then b
  else if (b <? a)%float then a
  else if is_neg_zero a then b else a.

(** The transcendental functions are implementation-approximated by the
    language standard: the kernel is verified for every implementation. *)
Record impl := {
  sin : number -> number;
  cos : number -> number;
  tan : number -> number;
  hypot : number -> number -> number
}.

End Math.

(** Number-to-string conversion, used only by the [str] helpers. *)
Record Host := {
  math : Math.impl;
  toString : number -> string
}.

(** ** The store *)

Definition ref := nat.
Bind Scope nat_scope with ref.

(** What an array of the kernel holds at an index: a number, or
    [undefined].  The holes of [new Array(n)] read as [undefined], and so
    does an index past the end. *)
Inductive value :=
| Undefined
| Num (x : number).

(** The conversion that the arithmetic operators, the comparisons [<] and
    [<=] and the functions of [Math] apply to an operand. *)
Definition ToNumber (v : value) : number :=
  match v with
  | Undefined => NaN
  | Num x => x
  end.

(** The conversion of a template literal [`${v}`], given the host's
    conversion of numbers. *)
Definition ToString (toString : number -> string) (v : value) : string :=
  match v with
  | Undefined => "undefined"%string
  | Num x => toString x
  end.

(** [v === x] for a number [x]: no conversion, [undefined] is not equal
    to any number. *)
Definition strict_equal (v : value) (x : number) : bool :=
  match v with
  | Undefined => false
  | Num y => (y =? x)%float
  end.

(** An array literal of numbers. *)
Definition nums (l : list number) : list value := map Num l.

(** The holes of [new Array(n)]. *)
Definition holes (n : nat) : list value := repeat Undefined n.

(** [l[i]] as it is, and as an operand converted to a number. *)
Definition arr_read (l : list value) (i : nat) : value := nth i l Undefined.

Definition arr_get (l : list value) (i : nat) : number := ToNumber (arr_read l i).

(** [l[i] = v].  Writing past the end extends the array and leaves holes,
    as in JavaScript. *)
Fixpoint arr_put (l : list value) (i : nat) (v : value) : list value :=
  match i, l with
  | O, [] => [v]
  | O, _ :: t => v :: t
  | S i', [] => Undefined :: arr_put [] i' v
  | S i', a :: t => a :: arr_put t i' v
  end.

Definition arr_set (l : list value) (i : nat) (x : number) : list value :=
  arr_put l i (Num x).

Record heap := mkHeap {
  cells : ref -> list value;
  next : ref
}.

Definition empty_heap : heap := mkHeap (fun _ => []) 0.

Inductive outcome (A : Type) : Type :=
| Ok (a : A) (h : heap)
| Throw (msg : string).
Arguments Throw {A} msg.

Definition M (A : Type) : Type := heap -> outcome A.

Definition ret {A} (a : A) : M A := fun h => Ok a h.

Definition bind {A B} (m : M A) (k : A -> M B) : M B :=
  fun h => match m h with
           | Ok a h' => k a h'
           | Throw msg => Throw msg
           end.

Definition throw {A} (msg : string) : M A := fun _ => Throw msg.

(** [a[i]] read as an operand of an arithmetic operator, of [<] or [<=]
    or of a function of [Math], directly or through a local constant
    that is used in no other way: converted to a number. *)
Definition get (a : ref) (i : nat) : M number :=
  fun h => Ok (arr_get (cells h a) i) h.

(** [a[i]] read to be stored or printed: not converted. *)
Definition read (a : ref) (i : nat) : M value :=
  fun h => Ok (arr_read (cells h a) i) h.

Definition write (h : heap) (a : ref) (l : list value) : heap :=
  mkHeap (fun r => if Nat.eqb r a then l else cells h r) (next h).

(** [a[i] = v] for a number [v], and for a value read from an array. *)
Definition set (a : ref) (i : nat) (v : number) : M unit :=
  fun h => Ok tt (write h a (arr_set (cells h a) i v)).

Definition put (a : ref) (i : nat) (v : value) : M unit :=
  fun h => Ok tt (write h a (arr_put (cells h a) i v)).

(** The store after a new array is allocated, at reference [next h]: an
    array with the elements [l], and an array literal of the numbers
    [l]. *)
Definition grow (h : heap) (l : list value) : heap :=
  mkHeap (fun r => if Nat.eqb r (next h) then l else cells h r) (S (next h)).

Definition extend (h : heap) (l : list number) : heap := grow h (nums l).

Definition alloc (l : list number) : M ref :=
  fun h => Ok (next h) (extend h l).

(** [new Array(n)] *)
Definition new_Array (n : nat) : M ref :=
  fun h => Ok (next h) (grow h (holes n)).

Declare Scope js_scope.
Delimit Scope js_scope with js.
Notation "x <- c ;; k" := (bind c (fun x => k))
  (at level 61, c at next level, right associativity) : js_scope.
Notation "c ;; k" := (bind c (fun _ => k))
  (at level 61, right associativity) : js_scope.
Notation "a .[ i ]" := (get a i) (at level 1, format "a .[ i ]") : js_scope.
Notation "a .[ i ] <~ v" := (set a i v)
  (at level 1, v at level 59, format "a .[ i ]  <~  v") : js_scope.
Open Scope js_scope.

(** [for (const x of xs) body] over a finite array of items. *)
Fixpoint forOf {A} (xs : list A) (body : A -> M unit) : M unit :=
  match xs with
  | [] => ret tt
  | x :: rest => body x ;; forOf rest body
  end.

(** The value of an optional destination parameter [_ = fresh()]. *)
Definition dest {A} (d : option A) (fresh : M A) : M A :=
  match d with
  | Some r => ret r
  | None => fresh
  end.

(** ** Scalar utilities *)

Definition DEG_TO_RAD : number := (Math.PI / 180)%float.

Definition sq (x : number) : number := (x * x)%float.

Definition int (n : number) : M number :=
  if negb (Number.isInteger n) then throw "not an integer"
  else ret n.

(** ** Vec2 *)

Local Open Scope float_scope.

(** [Vec2(x, y)]: the rest parameter is a new array. *)
Definition Vec2 (x y : number) : M ref := alloc [x; y].

Module Vec2.

Definition uninitialized : M ref := new_Array 2.

Definition zero (d : option ref) : M ref :=
  o <- dest d uninitialized ;;
  o.[0] <~ 0 ;;
  o.[1] <~ 0 ;;
  ret o.

Definition isZero (v : ref) : M bool :=
  a <- read v 0 ;;
  if strict_equal a 0 then (b <- read v 1 ;; ret (strict_equal b 0)) else ret false.

Definition polar (H : Math.impl) (r angle : number) (d : option ref) : M ref :=
  o <- dest d uninitialized ;;
  o.[0] <~ r * Math.cos H angle ;;
  o.[1] <~ r * Math.sin H angle ;;
  ret o.

(** The two elements are stored as they are read, [undefined] included. *)
Definition copy (v : ref) (d : option ref) : M ref :=
  o <- dest d uninitialized ;;
  a <- read v 0 ;; put o 0 a ;;
  b <- read v 1 ;; put o 1 b ;;
  ret o.

Definition set (u : ref) (x y : number) : M ref :=
  u.[0] <~ x ;;
  u.[1] <~ y ;;
  ret u.

Definition uniform (s : number) (d : option ref) : M ref :=
  o <- dest d uninitialized ;;
  o.[0] <~ s ;;
  o.[1] <~ s ;;
  ret o.

Definition add (u v : ref) : M unit :=
  a <- u.[0] ;; b <- v.[0] ;; u.[0] <~ a + b ;;
  a <- u.[1] ;; b <- v.[1] ;; u.[1] <~ a + b.

Definition sum (u v : ref) (d : option ref) : M ref :=
  o <- dest d uninitialized ;;
  a <- u.[0] ;; b <- v.[0] ;; o.[0] <~ a + b ;;
  a <- u.[1] ;; b <- v.[1] ;; o.[1] <~ a + b ;;
  ret o.

Definition sub (u v : ref) : M unit :=
  a <- u.[0] ;; b <- v.[0] ;; u.[0] <~ a - b ;;
  a <- u.[1] ;; b <- v.[1] ;; u.[1] <~ a - b.

Definition diff (u v : ref) (d : option ref) : M ref :=
  o <- dest d uninitialized ;;
  a <- u.[0] ;; b <- v.[0] ;; o.[0] <~ a - b ;;
  a <- u.[1] ;; b <- v.[1] ;; o.[1] <~ a - b ;;
  ret o.

Definition scale (u : ref) (s : number) : M unit :=
  a <- u.[0] ;; u.[0] <~ a * s ;;
  a <- u.[1] ;; u.[1] <~ a * s.

Definition translated (P u : ref) (d : option ref) : M ref :=
  o <- dest d uninitialized ;;
  a <- P.[0] ;; b <- u.[0] ;; o.[0] <~ a + b ;;
  a <- P.[1] ;; b <- u.[1] ;; o.[1] <~ a + b ;;
  ret o.

Definition scaled (u : ref) (s : number) (d : option ref) : M ref :=
  o <- dest d uninitialized ;;
  a <- u.[0] ;; o.[0] <~ a * s ;;
  a <- u.[1] ;; o.[1] <~ a * s ;;
  ret o.

Definition divided (u : ref) (s : number) (d : option ref) : M ref :=
  o <- dest d uninitialized ;;
  a <- u.[0] ;; o.[0] <~ a / s ;;
  a <- u.[1] ;; o.[1] <~ a / s ;;
  ret o.

Definition addScaled (u : ref) (s : number) (v : ref) : M unit :=
  a <- u.[0] ;; b <- v.[0] ;; u.[0] <~ a + s * b ;;
  a <- u.[1] ;; b <- v.[1] ;; u.[1] <~ a + s * b.

Definition span (P Q : ref) (d : option ref) : M ref :=
  o <- dest d uninitialized ;;
  a <- Q.[0] ;; b <- P.[0] ;; o.[0] <~ a - b ;;
  a <- Q.[1] ;; b <- P.[1] ;; o.[1] <~ a - b ;;
  ret o.

Definition min (u v : ref) (d : option ref) : M ref :=
  o <- dest d uninitialized ;;
  a <- u.[0] ;; b <- v.[0] ;; o.[0] <~ Math.min a b ;;
  a <- u.[1] ;; b <- v.[1] ;; o.[1] <~ Math.min a b ;;
  ret o.

Definition max (u v : ref) (d : option ref) : M ref :=
  o <- dest d uninitialized ;;
  a <- u.[0] ;; b <- v.[0] ;; o.[0] <~ Math.max a b ;;
  a <- u.[1] ;; b <- v.[1] ;; o.[1] <~ Math.max a b ;;
  ret o.

Definition mid (P Q : ref) (d : option ref) : M ref :=
  o <- dest d uninitialized ;;
  a <- P.[0] ;; b <- Q.[0] ;; o.[0] <~ 0.5 * a + 0.5 * b ;;
  a <- P.[1] ;; b <- Q.[1] ;; o.[1] <~ 0.5 * a + 0.5 * b ;;
  ret o.

(** [x] is stored as it was read; [-u[1]] is a number. *)
Definition lper (u : ref) (d : option ref) : M ref :=
  o <- dest d uninitialized ;;
  x <- read u 0 ;;
  a <- u.[1] ;; o.[0] <~ - a ;;
  put o 1 x ;;
  ret o.

Definition floor (u : ref) (d : option ref) : M ref :=
  o <- dest d uninitialized ;;
  a <- u.[0] ;; o.[0] <~ Math.floor a ;;
  a <- u.[1] ;; o.[1] <~ Math.floor a ;;
  ret o.

Definition dot (u v : ref) : M number :=
  a <- u.[0] ;; b <- v.[0] ;; c <- u.[1] ;; e <- v.[1] ;;
  ret (a * b + c * e).

Definition per (u v : ref) : M number :=
  a <- u.[0] ;; b <- v.[1] ;; c <- u.[1] ;; e <- v.[0] ;;
  ret (a * b - c * e).

Definition len (H : Math.impl) (u : ref) : M number :=
  a <- u.[0] ;; b <- u.[1] ;;
  ret (Math.hypot H a b).

Definition lenSq (u : ref) : M number :=
  a <- u.[0] ;; b <- u.[0] ;; c <- u.[1] ;; e <- u.[1] ;;
  ret (a * b + c * e).

Definition distSq (P Q : ref) : M number :=
  a <- P.[0] ;; b <- Q.[0] ;;
  let dx := a - b in
  a <- P.[1] ;; b <- Q.[1] ;;
  let dy := a - b in
  ret (dx * dx + dy * dy).

Definition withLen (H : Math.impl) (u : ref) (l : number) (d : option ref) : M ref :=
  o <- dest d uninitialized ;;
  a <- u.[0] ;; b <- u.[1] ;;
  let s := l / Math.hypot H a b in
  a <- u.[0] ;; o.[0] <~ a * s ;;
  a <- u.[1] ;; o.[1] <~ a * s ;;
  ret o.

Definition lengthLimited (H : Math.impl) (u : ref) (maxLength : number) (d : option ref)
  : M ref :=
  o <- dest d uninitialized ;;
  a <- u.[0] ;; b <- u.[1] ;;
  let l := Math.hypot H a b in
  if maxLength <? l then scaled u (maxLength / l) (Some o) else copy u (Some o).

Definition lerp (u v : ref) (t : number) (d : option ref) : M ref :=
  o <- dest d uninitialized ;;
  let s := 1 - t in
  a <- u.[0] ;; b <- v.[0] ;; o.[0] <~ s * a + t * b ;;
  a <- u.[1] ;; b <- v.[1] ;; o.[1] <~ s * a + t * b ;;
  ret o.

Definition str (toString : number -> string) (u : ref) : M string :=
  a <- read u 0 ;; b <- read u 1 ;;
  ret ("[" ++ ToString toString a ++ " " ++ ToString toString b ++ "]")%string.

End Vec2.

(** ** Vec3 *)

Definition Vec3 (x y z : number) : M ref := alloc [x; y; z].

Module Vec3.

Definition zero : M ref := Vec3 0 0 0.

Definition copy (v : ref) (d : option ref) : M ref :=
  o <- dest d zero ;;
  a <- read v 0 ;; put o 0 a ;;
  a <- read v 1 ;; put o 1 a ;;
  a <- read v 2 ;; put o 2 a ;;
  ret o.

Definition uniform (s : number) : M ref := Vec3 s s s.

Definition translated (P u : ref) (d : option ref) : M ref :=
  o <- dest d zero ;;
  a <- P.[0] ;; b <- u.[0] ;; o.[0] <~ a + b ;;
  a <- P.[1] ;; b <- u.[1] ;; o.[1] <~ a + b ;;
  a <- P.[2] ;; b <- u.[2] ;; o.[2] <~ a + b ;;
  ret o.

Definition scaled (u : ref) (s : number) (d : option ref) : M ref :=
  o <- dest d zero ;;
  a <- u.[0] ;; o.[0] <~ a * s ;;
  a <- u.[1] ;; o.[1] <~ a * s ;;
  a <- u.[2] ;; o.[2] <~ a * s ;;
  ret o.

Definition span (P Q : ref) (d : option ref) : M ref :=
  o <- dest d zero ;;
  a <- Q.[0] ;; b <- P.[0] ;; o.[0] <~ a - b ;;
  a <- Q.[1] ;; b <- P.[1] ;; o.[1] <~ a - b ;;
  a <- Q.[2] ;; b <- P.[2] ;; o.[2] <~ a - b ;;
  ret o.

Definition min (u v : ref) (d : option ref) : M ref :=
  o <- dest d zero ;;
  a <- u.[0] ;; b <- v.[0] ;; o.[0] <~ Math.min a b ;;
  a <- u.[1] ;; b <- v.[1] ;; o.[1] <~ Math.min a b ;;
  a <- u.[2] ;; b <- v.[2] ;; o.[2] <~ Math.min a b ;;
  ret o.

Definition max (u v : ref) (d : option ref) : M ref :=
  o <- dest d zero ;;
  a <- u.[0] ;; b <- v.[0] ;; o.[0] <~ Math.max a b ;;
  a <- u.[1] ;; b <- v.[1] ;; o.[1] <~ Math.max a b ;;
  a <- u.[2] ;; b <- v.[2] ;; o.[2] <~ Math.max a b ;;
  ret o.

Definition mid (P Q : ref) (d : option ref) : M ref :=
  o <- dest d zero ;;
  a <- P.[0] ;; b <- Q.[0] ;; o.[0] <~ 0.5 * a + 0.5 * b ;;
  a <- P.[1] ;; b <- Q.[1] ;; o.[1] <~ 0.5 * a + 0.5 * b ;;
  a <- P.[2] ;; b <- Q.[2] ;; o.[2] <~ 0.5 * a + 0.5 * b ;;
  ret o.

End Vec3.

(** ** Mat2A *)

(** The six coefficients of a host [DOMMatrix] read by the 2D adapter and
    the sixteen read by the 3D one. *)
Record DOMMatrix := {
  dm_a : number; dm_b : number; dm_c : number;
  dm_d : number; dm_e : number; dm_f : number;
  m11 : number; m12 : number; m13 : number; m14 : number;
  m21 : number; m22 : number; m23 : number; m24 : number;
  m31 : number; m32 : number; m33 : number; m34 : number;
  m41 : number; m42 : number; m43 : number; m44 : number
}.

(** [Mat2A(data)], [MatA(data)] and [Mat4(data)] are type casts: they return
    the array they are given. *)
Definition Mat2A (data : ref) : M ref := ret data.

Module Mat2A.

Definition uninitialized : M ref := new_Array 6.

Definition eye (d : option ref) : M ref :=
  o <- dest d uninitialized ;;
  o.[0] <~ 1 ;; o.[1] <~ 0 ;; o.[2] <~ 0 ;;
  o.[3] <~ 0 ;; o.[4] <~ 1 ;; o.[5] <~ 0 ;;
  ret o.

Definition fromDOMMatrix (m : DOMMatrix) (d : option ref) : M ref :=
  o <- dest d uninitialized ;;
  o.[0] <~ dm_a m ;; o.[1] <~ dm_b m ;; o.[2] <~ dm_e m ;;
  o.[3] <~ dm_c m ;; o.[4] <~ dm_d m ;; o.[5] <~ dm_f m ;;
  ret o.

Definition transformPoint (m P : ref) (d : option ref) : M ref :=
  o <- dest d Vec2.uninitialized ;;
  x <- P.[0] ;; y <- P.[1] ;;
  a <- m.[0] ;; b <- m.[1] ;; c <- m.[2] ;; o.[0] <~ a * x + b * y + c ;;
  a <- m.[3] ;; b <- m.[4] ;; c <- m.[5] ;; o.[1] <~ a * x + b * y + c ;;
  ret o.

End Mat2A.

(** ** MatA *)

Definition MatA (data : ref) : M ref := ret data.

(** [A[i] *= s] *)
Definition mul_assign (A : ref) (i : nat) (s : number) : M unit :=
  a <- A.[i] ;; A.[i] <~ a * s.

(** The composer object: one read-only field holding the matrix. *)
Record MatAComposer := { composer_A : ref }.

Module MatA.

Definition eye : M ref :=
  data <- alloc [1; 0; 0; 0; 0; 1; 0; 0; 0; 0; 1; 0; 0; 0; 0; 1] ;;
  MatA data.

Definition compose (A : option ref) : M MatAComposer :=
  A <- dest A eye ;;
  ret {| composer_A := A |}.

Definition translate (A u : ref) : M ref :=
  a <- A.[3] ;; b <- u.[0] ;; A.[3] <~ a + b ;;
  a <- A.[7] ;; b <- u.[1] ;; A.[7] <~ a + b ;;
  a <- A.[11] ;; b <- u.[2] ;; A.[11] <~ a + b ;;
  ret A.

Definition translation (u : ref) : M ref :=
  A <- eye ;;
  translate A u.

Definition scaleX (A : ref) (s : number) : M unit :=
  mul_assign A 0 s ;;
  mul_assign A 1 s ;;
  mul_assign A 2 s ;;
  mul_assign A 3 s.

Definition scaleY (A : ref) (s : number) : M unit :=
  mul_assign A 4 s ;;
  mul_assign A 5 s ;;
  mul_assign A 6 s ;;
  mul_assign A 7 s.

Definition scaleZ (A : ref) (s : number) : M unit :=
  mul_assign A 8 s ;;
  mul_assign A 9 s ;;
  mul_assign A 10 s ;;
  mul_assign A 11 s.

Definition scale (A : ref) (s : number) : M unit :=
  mul_assign A 0 s ;;
  mul_assign A 1 s ;;
  mul_assign A 2 s ;;
  mul_assign A 3 s ;;
  mul_assign A 4 s ;;
  mul_assign A 5 s ;;
  mul_assign A 6 s ;;
  mul_assign A 7 s ;;
  mul_assign A 8 s ;;
  mul_assign A 9 s ;;
  mul_assign A 10 s ;;
  mul_assign A 11 s.

Definition scaleVector (A u : ref) : M unit :=
  sx <- u.[0] ;;
  sy <- u.[1] ;;
  sz <- u.[2] ;;
  mul_assign A 0 sx ;;
  mul_assign A 1 sx ;;
  mul_assign A 2 sx ;;
  mul_assign A 3 sx ;;
  mul_assign A 4 sy ;;
  mul_assign A 5 sy ;;
  mul_assign A 6 sy ;;
  mul_assign A 7 sy ;;
  mul_assign A 8 sz ;;
  mul_assign A 9 sz ;;
  mul_assign A 10 sz ;;
  mul_assign A 11 sz.

(** Rows 1 and 2 are read into locals, then written. *)
Definition rotateX (H : Math.impl) (A : ref) (angle : number) : M unit :=
  let c := Math.cos H angle in
  let s := Math.sin H angle in
  a00 <- A.[4] ;;
  a01 <- A.[5] ;;
  a02 <- A.[6] ;;
  a03 <- A.[7] ;;
  a10 <- A.[8] ;;
  a11 <- A.[9] ;;
  a12 <- A.[10] ;;
  a13 <- A.[11] ;;
  A.[4] <~ c * a00 - s * a10 ;;
  A.[5] <~ c * a01 - s * a11 ;;
  A.[6] <~ c * a02 - s * a12 ;;
  A.[7] <~ c * a03 - s * a13 ;;
  A.[8] <~ c * a10 + s * a00 ;;
  A.[9] <~ c * a11 + s * a01 ;;
  A.[10] <~ c * a12 + s * a02 ;;
  A.[11] <~ c * a13 + s * a03.

(** Rows 2 and 0. *)
Definition rotateY (H : Math.impl) (A : ref) (angle : number) : M unit :=
  let c := Math.cos H angle in
  let s := Math.sin H angle in
  a00 <- A.[8] ;;
  a01 <- A.[9] ;;
  a02 <- A.[10] ;;
  a03 <- A.[11] ;;
  a10 <- A.[0] ;;
  a11 <- A.[1] ;;
  a12 <- A.[2] ;;
  a13 <- A.[3] ;;
  A.[8] <~ c * a00 - s * a10 ;;
  A.[9] <~ c * a01 - s * a11 ;;
  A.[10] <~ c * a02 - s * a12 ;;
  A.[11] <~ c * a03 - s * a13 ;;
  A.[0] <~ c * a10 + s * a00 ;;
  A.[1] <~ c * a11 + s * a01 ;;
  A.[2] <~ c * a12 + s * a02 ;;
  A.[3] <~ c * a13 + s * a03.

(** Rows 0 and 1. *)
Definition rotateZ (H : Math.impl) (A : ref) (angle : number) : M unit :=
  let c := Math.cos H angle in
  let s := Math.sin H angle in
  a00 <- A.[0] ;;
  a01 <- A.[1] ;;
  a02 <- A.[2] ;;
  a03 <- A.[3] ;;
  a10 <- A.[4] ;;
  a11 <- A.[5] ;;
  a12 <- A.[6] ;;
  a13 <- A.[7] ;;
  A.[0] <~ c * a00 - s * a10 ;;
  A.[1] <~ c * a01 - s * a11 ;;
  A.[2] <~ c * a02 - s * a12 ;;
  A.[3] <~ c * a03 - s * a13 ;;
  A.[4] <~ c * a10 + s * a00 ;;
  A.[5] <~ c * a11 + s * a01 ;;
  A.[6] <~ c * a12 + s * a02 ;;
  A.[7] <~ c * a13 + s * a03.

End MatA.

(** ** MatAComposer *)

Module MatAComposer.

Definition get (this : MatAComposer) : M ref := ret (composer_A this).

Definition translate (this : MatAComposer) (u : ref) : M MatAComposer :=
  MatA.translate (composer_A this) u ;; ret this.

Definition scaleX (this : MatAComposer) (s : number) : M MatAComposer :=
  MatA.scaleX (composer_A this) s ;; ret this.

Definition scaleY (this : MatAComposer) (s : number) : M MatAComposer :=
  MatA.scaleY (composer_A this) s ;; ret this.

Definition scaleZ (this : MatAComposer) (s : number) : M MatAComposer :=
  MatA.scaleZ (composer_A this) s ;; ret this.

Definition scale (this : MatAComposer) (s : number) : M MatAComposer :=
  MatA.scale (composer_A this) s ;; ret this.

Definition scaleVector (this : MatAComposer) (u : ref) : M MatAComposer :=
  MatA.scaleVector (composer_A this) u ;; ret this.

Definition rotateX (H : Math.impl) (this : MatAComposer) (angle : number)
  : M MatAComposer :=
  MatA.rotateX H (composer_A this) angle ;; ret this.

Definition rotateY (H : Math.impl) (this : MatAComposer) (angle : number)
  : M MatAComposer :=
  MatA.rotateY H (composer_A this) angle ;; ret this.

Definition rotateZ (H : Math.impl) (this : MatAComposer) (angle : number)
  : M MatAComposer :=
  MatA.rotateZ H (composer_A this) angle ;; ret this.

End MatAComposer.

(** ** Mat4 *)

Definition Mat4 (data : ref) : M ref := ret data.

(** The parameter object of [Mat4.perspective]. *)
Record PerspectiveParams := {
  fovy : number;
  width : number;
  height : number;
  near : number;
  far : number
}.

Module Mat4.

Definition perspective (H : Math.impl) (params : PerspectiveParams) : M ref :=
  let '(Build_PerspectiveParams fovy width height near far) := params in
  let depth := far - near in
  let c0 := near / Math.tan H (0.5 * fovy * DEG_TO_RAD) in
  let c1 := (c0 * height) / width in
  data <- alloc [c1; 0; 0; 0; 0; c0; 0; 0; 0; 0; - (near + far) / depth;
                 (-2 * near * far) / depth; 0; 0; -1; 0] ;;
  Mat4 data.

Definition fromDOMMatrix (m : DOMMatrix) : M ref :=
  data <- alloc [m11 m; m12 m; m13 m; m14 m;
                 m21 m; m22 m; m23 m; m24 m;
                 m31 m; m32 m; m33 m; m34 m;
                 m41 m; m42 m; m43 m; m44 m] ;;
  Mat4 data.

Definition transformPoint (m P : ref) : M ref :=
  x <- P.[0] ;; y <- P.[1] ;; z <- P.[2] ;;
  a12 <- m.[12] ;; a13 <- m.[13] ;; a14 <- m.[14] ;; a15 <- m.[15] ;;
  let w := a12 * x + a13 * y + a14 * z + a15 in
  a0 <- m.[0] ;; a1 <- m.[1] ;; a2 <- m.[2] ;; a3 <- m.[3] ;;
  a4 <- m.[4] ;; a5 <- m.[5] ;; a6 <- m.[6] ;; a7 <- m.[7] ;;
  a8 <- m.[8] ;; a9 <- m.[9] ;; a10 <- m.[10] ;; a11 <- m.[11] ;;
  Vec3 ((a0 * x + a1 * y + a2 * z + a3) / w)
       ((a4 * x + a5 * y + a6 * z + a7) / w)
       ((a8 * x + a9 * y + a10 * z + a11) / w).

End Mat4.

(** ** Box2 *)

(** A box is an array of two vector references.  No operation stores into
    that array after it is built (only the two vectors are mutated), so a
    box is identified with the pair of references it holds; iterating a
    box as an [Iterable<Vec2>] yields its two corners. *)
Record Box2 := { P0 : ref; P1 : ref }.

Definition Box2_items (B : Box2) : list ref := [P0 B; P1 B].

Module Box2.

Definition uninitialized : M Box2 :=
  a <- Vec2.uninitialized ;;
  b <- Vec2.uninitialized ;;
  ret {| P0 := a; P1 := b |}.

Definition empty (d : option Box2) : M Box2 :=
  o <- dest d uninitialized ;;
  Vec2.uniform Infinity (Some (P0 o)) ;;
  Vec2.uniform (- Infinity) (Some (P1 o)) ;;
  ret o.

Definition copy (B : Box2) (d : option Box2) : M Box2 :=
  o <- dest d (empty None) ;;
  Vec2.copy (P0 B) (Some (P0 o)) ;;
  Vec2.copy (P1 B) (Some (P1 o)) ;;
  ret o.

Definition center (B : Box2) (d : option ref) : M ref :=
  o <- dest d Vec2.uninitialized ;;
  Vec2.mid (P0 B) (P1 B) (Some o).

Definition size (B : Box2) (d : option ref) : M ref :=
  o <- dest d Vec2.uninitialized ;;
  Vec2.span (P0 B) (P1 B) (Some o).

Definition expand (B : Box2) (P : ref) : M unit :=
  Vec2.min (P0 B) P (Some (P0 B)) ;;
  Vec2.max (P1 B) P (Some (P1 B)) ;;
  ret tt.

Definition expandAll (B : Box2) (Ps : list ref) : M unit :=
  let P0 := P0 B in
  let P1 := P1 B in
  forOf Ps (fun P =>
    Vec2.min P0 P (Some P0) ;;
    Vec2.max P1 P (Some P1) ;;
    ret tt).

Definition expandByBox (B C : Box2) : M unit :=
  Vec2.min (P0 B) (P0 C) (Some (P0 B)) ;;
  Vec2.max (P1 B) (P1 C) (Some (P1 B)) ;;
  ret tt.

Definition expandByBoxes (B : Box2) (Cs : list Box2) : M unit :=
  forOf Cs (fun C => expandByBox B C).

Definition scale (B : Box2) (s : number) : M unit :=
  Vec2.scaled (P0 B) s (Some (P0 B)) ;;
  Vec2.scaled (P1 B) s (Some (P1 B)) ;;
  ret tt.

Definition floor (B : Box2) : M unit :=
  Vec2.floor (P0 B) (Some (P0 B)) ;;
  Vec2.floor (P1 B) (Some (P1 B)) ;;
  ret tt.

Definition fromPoints (Ps : list ref) (d : option Box2) : M Box2 :=
  o <- dest d uninitialized ;;
  empty (Some o) ;;
  expandAll o Ps ;;
  ret o.

Definition wrapping (Bs : list Box2) (d : option Box2) : M Box2 :=
  o <- dest d uninitialized ;;
  empty (Some o) ;;
  forOf Bs (fun B => expandByBox o B) ;;
  ret o.

Definition fromCenterRadius (P : ref) (r : number) (d : option Box2) : M Box2 :=
  o <- dest d uninitialized ;;
  x <- P.[0] ;; y <- P.[1] ;;
  Vec2.set (P0 o) (x - r) (y - r) ;;
  Vec2.set (P1 o) (x + r) (y + r) ;;
  ret o.

Definition span (B : Box2) (d : option ref) : M ref :=
  o <- dest d (Vec2.zero None) ;;
  Vec2.span (P0 B) (P1 B) (Some o).

(** [a && b] evaluates [b] only when [a] holds. *)
Definition and_then (a : bool) (b : M bool) : M bool :=
  if a then b else ret false.

Definition containsInEx (B : Box2) (P : ref) : M bool :=
  lo <- (P0 B).[0] ;; x <- P.[0] ;;
  and_then (lo <=? x) (
  x <- P.[0] ;; hi <- (P1 B).[0] ;;
  and_then (x <? hi) (
  lo <- (P0 B).[1] ;; y <- P.[1] ;;
  and_then (lo <=? y) (
  y <- P.[1] ;; hi <- (P1 B).[1] ;;
  ret (y <? hi)))).

(** The generator [integerPoints], as the state machine its body compiles
    to.  Calling the generator function runs none of the body; the bounds
    are read and the output vector allocated when the body starts.
    [step] runs the body up to the next loop test or [yield].  The bounds
    occur only as operands of [Math.floor] and [<=], which convert them to
    numbers, so the state holds them converted. *)
Inductive generator :=
| Created (B : Box2)
| OuterTest (x x1 y0 y1 : number) (P : ref)
| InnerTest (x y x1 y0 y1 : number) (P : ref)
| Suspended (x y x1 y0 y1 : number) (P : ref)
| Completed.

Definition integerPoints (B : Box2) : generator := Created B.

Definition step (g : generator) : M (generator * option ref) :=
  match g with
  | Created B =>
      x0 <- (P0 B).[0] ;; y0 <- (P0 B).[1] ;;
      x1 <- (P1 B).[0] ;; y1 <- (P1 B).[1] ;;
      P <- Vec2.zero None ;;
      ret (OuterTest (Math.floor x0) x1 y0 y1 P, None)
  | OuterTest x x1 y0 y1 P =>
      if x <=? x1 then ret (InnerTest x (Math.floor y0) x1 y0 y1 P, None)
      else ret (Completed, None)
  | InnerTest x y x1 y0 y1 P =>
      if y <=? y1 then
        P.[0] <~ x ;;
        P.[1] <~ y ;;
        ret (Suspended x y x1 y0 y1 P, Some P)
      else ret (OuterTest (x + 1) x1 y0 y1 P, None)
  | Suspended x y x1 y0 y1 P =>
      ret (InnerTest x (y + 1) x1 y0 y1 P, None)
  | Completed => ret (Completed, None)
  end.

(** A consumer that copies the two components of every yielded vector
    before it resumes the generator:
    [for (const P of g) out.push([P[0], P[1]])].
    The result is [Some out] if the generator completes within [fuel]
    steps of its body and [None] if it is still running. *)
Fixpoint collect (fuel : nat) (g : generator) (h : heap)
  : option (list (number * number)) :=
  match fuel with
  | O => None
  | S fuel' =>
      match g with
      | Completed => Some []
      | _ =>
        match step g h with
        | Ok (g', Some P) h' =>
            option_map (cons (arr_get (cells h' P) 0, arr_get (cells h' P) 1))
                       (collect fuel' g' h')
        | Ok (g', None) h' => collect fuel' g' h'
        | Throw _ => None
        end
      end
  end.

Definition str (toString : number -> string) (B : Box2) : M string :=
  a <- read (P0 B) 0 ;; b <- read (P1 B) 0 ;;
  c <- read (P0 B) 1 ;; e <- read (P1 B) 1 ;;
  ret ("[" ++ ToString toString a ++ " " ++ ToString toString b ++ "]×["
           ++ ToString toString c ++ " " ++ ToString toString e ++ "]")%string.

End Box2.

(** ** Box3 *)

Record Box3 := { B3P0 : ref; B3P1 : ref }.

Module Box3.

Definition empty : M Box3 :=
  a <- Vec3.uniform Infinity ;;
  b <- Vec3.uniform (- Infinity) ;;
  ret {| B3P0 := a; B3P1 := b |}.

Definition expandAll (B : Box3) (Ps : list ref) : M unit :=
  let P0 := B3P0 B in
  let P1 := B3P1 B in
  forOf Ps (fun P =>
    Vec3.min P0 P (Some P0) ;;
    Vec3.max P1 P (Some P1) ;;
    ret tt).

Definition fromPoints (Ps : list ref) (d : option Box3) : M Box3 :=
  o <- dest d empty ;;
  expandAll o Ps ;;
  ret o.

Definition span (B : Box3) (d : option ref) : M ref :=
  o <- dest d Vec3.zero ;;
  Vec3.span (B3P0 B) (B3P1 B) (Some o).

Definition center (B : Box3) (d : option ref) : M ref :=
  o <- dest d Vec3.zero ;;
  Vec3.mid (B3P0 B) (B3P1 B) (Some o).

End Box3.

(** ** Observing the store *)

Definition vec2_of (h : heap) (r : ref) : number * number :=
  (arr_get (cells h r) 0, arr_get (cells h r) 1).

Definition vec3_of (h : heap) (r : ref) : number * number * number :=
  (arr_get (cells h r) 0, arr_get (cells h r) 1, arr_get (cells h r) 2).

Definition box2_of (h : heap) (B : Box2) :=
  (vec2_of h (P0 B), vec2_of h (P1 B)).

Definition box3_of (h : heap) (B : Box3) :=
  (vec3_of h (B3P0 B), vec3_of h (B3P1 B)).

(** A store holding the given arrays at references [0], [1], ... *)
Definition heap_of (arrays : list (list number)) : heap :=
  mkHeap (fun r => nums (nth r arrays [])) (List.length arrays).

(** ** Calls of the MatA mutators

    A call of one of the in-place operations of [MatA], without the
    matrix it is applied to. *)
Inductive MatA_op :=
| op_translate (u : ref)
| op_scaleX (s : number)
| op_scaleY (s : number)
| op_scaleZ (s : number)
| op_scale (s : number)
| op_scaleVector (u : ref)
| op_rotateX (angle : number)
| op_rotateY (angle : number)
| op_rotateZ (angle : number).

(** The static form [MatA.op(A, ...)]. *)
Definition MatA_call (H : Math.impl) (op : MatA_op) (A : ref) : M unit :=
  match op with
  | op_translate u => MatA.translate A u ;; ret tt
  | op_scaleX s => MatA.scaleX A s
  | op_scaleY s => MatA.scaleY A s
  | op_scaleZ s => MatA.scaleZ A s
  | op_scale s => MatA.scale A s
  | op_scaleVector u => MatA.scaleVector A u
  | op_rotateX angle => MatA.rotateX H A angle
  | op_rotateY angle => MatA.rotateY H A angle
  | op_rotateZ angle => MatA.rotateZ H A angle
  end.

(** The method form [composer.op(...)]. *)
Definition MatAComposer_call (H : Math.impl) (op : MatA_op) (this : MatAComposer)
  : M MatAComposer :=
  match op with
  | op_translate u => MatAComposer.translate this u
  | op_scaleX s => MatAComposer.scaleX this s
  | op_scaleY s => MatAComposer.scaleY this s
  | op_scaleZ s => MatAComposer.scaleZ this s
  | op_scale s => MatAComposer.scale this s
  | op_scaleVector u => MatAComposer.scaleVector this u
  | op_rotateX angle => MatAComposer.rotateX H this angle
  | op_rotateY angle => MatAComposer.rotateY H this angle
  | op_rotateZ angle => MatAComposer.rotateZ H this angle
  end.

(** A fluent chain [composer.op1(...).op2(...). ... .get()]. *)
Fixpoint MatAComposer_chain (H : Math.impl) (ops : list MatA_op) (this : MatAComposer)
  : M ref :=
  match ops with
  | [] => MatAComposer.get this
  | op :: rest =>
      this' <- MatAComposer_call H op this ;;
      MatAComposer_chain H rest this'
  end.

(** The last row of a matrix, entries 12 to 15. *)
Definition last_row (h : heap) (A : ref) : list number :=
  [arr_get (cells h A) 12; arr_get (cells h A) 13;
   arr_get (cells h A) 14; arr_get (cells h A) 15].

(** [h'] differs from [h] at most in entries 0 to 11 of the array [A]. *)
Definition writes_only_affine (A : ref) (h h' : heap) : Prop :=
  next h' = next h /\
  (forall r, r <> A -> cells h' r = cells h r) /\
  (forall i, (12 <= i)%nat -> arr_get (cells h' A) i = arr_get (cells h A) i).

(** ** Specifications in the words of the documentation *)

(** [lo / den < x < hi / den] for the exact value of a finite number [x]. *)
Definition exact_value_between (x : number) (lo hi den : Z) : Prop :=
  not_finite x = false /\
  (lo * 2 ^ 1074 < scaled x * den < hi * 2 ^ 1074)%Z.

(** The number of radians in a degree, [π / 180], as a Number. *)
Definition radians_per_degree : number := 0x1.1df46a2529d39p-6.

(** An angle in degrees converted to radians. *)
Definition radians (deg : number) : number := deg * radians_per_degree.

(** The perspective matrix as the documentation derives it:
    [c0 = near / tan(fovy/2 in radians)], [c1 = c0 * height / width],
    [depth = far - near]. *)
Definition perspective_spec (H : Math.impl) (fovy width height near far : number)
  : list number :=
  let c0 := near / Math.tan H (radians (0.5 * fovy)) in
  let c1 := c0 * height / width in
  let depth := far - near in
  [c1; 0; 0; 0;
   0; c0; 0; 0;
   0; 0; - (near + far) / depth; -2 * near * far / depth;
   0; 0; -1; 0].

(** The general point transform as the documentation states it. *)
Definition transformPoint_spec (m : list value) (x y z : number)
  : number * number * number :=
  let M i := arr_get m i in
  let w := M 12%nat * x + M 13%nat * y + M 14%nat * z + M 15%nat in
  ((M 0%nat * x + M 1%nat * y + M 2%nat * z + M 3%nat) / w,
   (M 4%nat * x + M 5%nat * y + M 6%nat * z + M 7%nat) / w,
   (M 8%nat * x + M 9%nat * y + M 10%nat * z + M 11%nat) / w).

Definition weight (m : list value) (x y z : number) : number :=
  arr_get m 12 * x + arr_get m 13 * y + arr_get m 14 * z + arr_get m 15.

(** ** A sample host

    One implementation of the transcendental functions (truncated Taylor
    series), to run the kernel on concrete inputs. *)
Definition sample_sin (x : number) : number :=
  x - x * x * x / 6 + x * x * x * x * x / 120.

Definition sample_cos (x : number) : number :=
  1 - x * x / 2 + x * x * x * x / 24.

Definition sample_math : Math.impl := {|
  Math.sin := sample_sin;
  Math.cos := sample_cos;
  Math.tan := fun x => sample_sin x / sample_cos x;
  Math.hypot := fun x y => sqrt (x * x + y * y)
|}.

(** ** Integer lattice points *)

(** [count] consecutive integers from [a] upwards. *)
Fixpoint Zupto (a : Z) (count : nat) : list Z :=
  match count with
  | O => []
  | S count' => a :: Zupto (a + 1) count'
  end.

(** The integers [a, a+1, ..., b]; empty when [b < a]. *)
Definition Zinterval (a b : Z) : list Z := Zupto a (Z.to_nat (b + 1 - a)).

(** The integer points of [[a,b] x [c,d]], column by column: ascending in
    the first coordinate, and for each of its values ascending in the
    second. *)
Definition lattice (a b c d : Z) : list (Z * Z) :=
  flat_map (fun i => map (fun j => (i, j)) (Zinterval c d)) (Zinterval a b).

(** A yielded point has the integer coordinates [(i, j)]. *)
Definition is_point (p : number * number) (ij : Z * Z) : Prop :=
  is_integer (fst p) (fst ij) /\ is_integer (snd p) (snd ij).

(** The generator over [B] completes, having yielded exactly the integer
    points of [[a,b] x [c,d]], in that order. *)
Definition integerPoints_yields (h : heap) (B : Box2) (a b c d : Z) : Prop :=
  exists fuel pts,
    Box2.collect fuel (Box2.integerPoints B) h = Some pts /\
    Forall2 is_point pts (lattice a b c d).

(** The nine points of [[0,2] x [0,2]], column by column. *)
Definition nine_points : list (number * number) :=
  [(0, 0); (0, 1); (0, 2); (1, 0); (1, 1); (1, 2); (2, 0); (2, 1); (2, 2)].

(** The box [[(0.5, 0.5), (2, 2)]]. *)
Definition half_box_heap : heap := heap_of [[0.5; 0.5]; [2; 2]].
Definition half_box : Box2 := {| P0 := 0; P1 := 1 |}.

(** The box [[(0, 2^53), (0, 2^53 + 2)]]. *)
Definition big_box_heap : heap := heap_of [[0; 0x1p53]; [0; 0x1.0000000000001p53]].
Definition big_box : Box2 := {| P0 := 0; P1 := 1 |}.

(** [x] with a negative zero replaced by the positive one: the value of
    [0 + x]. *)
Definition settle (x : number) : number := if Math.is_neg_zero x then 0 else x.

(** ** Calls that take a destination *)

(** A call of an operation that reads arrays and writes a vector
    destination, without the destination argument. *)
Inductive dest_call :=
| c_Vec2_copy (v : ref)
| c_Vec2_sum (u v : ref)
| c_Vec2_diff (u v : ref)
| c_Vec2_translated (P u : ref)
| c_Vec2_scaled (u : ref) (s : number)
| c_Vec2_divided (u : ref) (s : number)
| c_Vec2_span (P Q : ref)
| c_Vec2_min (u v : ref)
| c_Vec2_max (u v : ref)
| c_Vec2_mid (P Q : ref)
| c_Vec2_lper (u : ref)
| c_Vec2_floor (u : ref)
| c_Vec2_withLen (u : ref) (l : number)
| c_Vec2_lengthLimited (u : ref) (maxLength : number)
| c_Vec2_lerp (u v : ref) (t : number)
| c_Vec3_copy (v : ref)
| c_Vec3_translated (P u : ref)
| c_Vec3_scaled (u : ref) (s : number)
| c_Vec3_span (P Q : ref)
| c_Vec3_min (u v : ref)
| c_Vec3_max (u v : ref)
| c_Vec3_mid (P Q : ref)
| c_Mat2A_transformPoint (m P : ref)
| c_Box2_center (B : Box2)
| c_Box2_size (B : Box2)
| c_Box2_span (B : Box2)
| c_Box3_span (B : Box3)
| c_Box3_center (B : Box3).

Definition run_dest (H : Math.impl) (c : dest_call) (d : option ref) : M ref :=
  match c with
  | c_Vec2_copy v => Vec2.copy v d
  | c_Vec2_sum u v => Vec2.sum u v d
  | c_Vec2_diff u v => Vec2.diff u v d
  | c_Vec2_translated P u => Vec2.translated P u d
  | c_Vec2_scaled u s => Vec2.scaled u s d
  | c_Vec2_divided u s => Vec2.divided u s d
  | c_Vec2_span P Q => Vec2.span P Q d
  | c_Vec2_min u v => Vec2.min u v d
  | c_Vec2_max u v => Vec2.max u v d
  | c_Vec2_mid P Q => Vec2.mid P Q d
  | c_Vec2_lper u => Vec2.lper u d
  | c_Vec2_floor u => Vec2.floor u d
  | c_Vec2_withLen u l => Vec2.withLen H u l d
  | c_Vec2_lengthLimited u maxLength => Vec2.lengthLimited H u maxLength d
  | c_Vec2_lerp u v t => Vec2.lerp u v t d
  | c_Vec3_copy v => Vec3.copy v d
  | c_Vec3_translated P u => Vec3.translated P u d
  | c_Vec3_scaled u s => Vec3.scaled u s d
  | c_Vec3_span P Q => Vec3.span P Q d
  | c_Vec3_min u v => Vec3.min u v d
  | c_Vec3_max u v => Vec3.max u v d
  | c_Vec3_mid P Q => Vec3.mid P Q d
  | c_Mat2A_transformPoint m P => Mat2A.transformPoint m P d
  | c_Box2_center B => Box2.center B d
  | c_Box2_size B => Box2.size B d
  | c_Box2_span B => Box2.span B d
  | c_Box3_span B => Box3.span B d
  | c_Box3_center B => Box3.center B d
  end.

(** The arrays a call reads. *)
Definition sources (c : dest_call) : list ref :=
  match c with
  | c_Vec2_copy v | c_Vec3_copy v => [v]
  | c_Vec2_sum u v | c_Vec2_diff u v | c_Vec2_min u v | c_Vec2_max u v
  | c_Vec2_lerp u v _ | c_Vec3_min u v | c_Vec3_max u v => [u; v]
  | c_Vec2_translated P u | c_Vec3_translated P u => [P; u]
  | c_Vec2_scaled u _ | c_Vec2_divided u _ | c_Vec2_lper u | c_Vec2_floor u
  | c_Vec2_withLen u _ | c_Vec2_lengthLimited u _ | c_Vec3_scaled u _ => [u]
  | c_Vec2_span P Q | c_Vec2_mid P Q | c_Vec3_span P Q | c_Vec3_mid P Q => [P; Q]
  | c_Mat2A_transformPoint m P => [m; P]
  | c_Box2_center B | c_Box2_size B | c_Box2_span B => [P0 B; P1 B]
  | c_Box3_span B | c_Box3_center B => [B3P0 B; B3P1 B]
  end.

(** The number of components of the result. *)
Definition arity (c : dest_call) : nat :=
  match c with
  | c_Vec3_copy _ | c_Vec3_translated _ _ | c_Vec3_scaled _ _ | c_Vec3_span _ _
  | c_Vec3_min _ _ | c_Vec3_max _ _ | c_Vec3_mid _ _
  | c_Box3_span _ | c_Box3_center _ => 3
  | _ => 2
  end.

(** ** Boxes as values *)

Definition point2 : Type := number * number.
Definition point3 : Type := number * number * number.

Definition empty2 : point2 * point2 :=
  ((Infinity, Infinity), (- Infinity, - Infinity)).

Definition empty3 : point3 * point3 :=
  ((Infinity, Infinity, Infinity), (- Infinity, - Infinity, - Infinity)).

(** A box expanded by a point: component-wise minimum into the lower
    corner and maximum into the upper one. *)
Definition expand2 (b : point2 * point2) (p : point2) : point2 * point2 :=
  let '((x0, y0), (x1, y1)) := b in
  let '(x, y) := p in
  ((Math.min x0 x, Math.min y0 y), (Math.max x1 x, Math.max y1 y)).

Definition expand3 (b : point3 * point3) (p : point3) : point3 * point3 :=
  let '((x0, y0, z0), (x1, y1, z1)) := b in
  let '(x, y, z) := p in
  ((Math.min x0 x, Math.min y0 y, Math.min z0 z),
   (Math.max x1 x, Math.max y1 y, Math.max z1 z)).

(** ** Destinations shared with a source *)

(** The call [c] with the source [s] as its destination leaves in [s] the
    components that the call leaves in a fresh destination. *)
Definition alias_agrees (H : Math.impl) (c : dest_call) (h : heap) (s : ref) : Prop :=
  exists h1 h2,
    run_dest H c (Some s) h = Ok s h1 /\
    run_dest H c None h = Ok (next h) h2 /\
    forall i, (i < arity c)%nat ->
              arr_get (cells h1 s) i = arr_get (cells h2 (next h)) i.

(** [Vec2.lper(u, u)] leaves [(-y, x)] in [u]. *)
Definition lper_in_place : Prop :=
  forall h u, exists h',
    Vec2.lper u (Some u) h = Ok u h' /\
    vec2_of h' u = (- arr_get (cells h u) 1, arr_get (cells h u) 0).

(** [Mat2A.transformPoint(M, P, P)] leaves in [P] the transform of the
    components [P] had. *)
Definition transformPoint_in_place : Prop :=
  forall h m P, exists h',
    Mat2A.transformPoint m P (Some P) h = Ok P h' /\
    let M i := arr_get (cells h m) i in
    let x := arr_get (cells h P) 0 in
    let y := arr_get (cells h P) 1 in
    vec2_of h' P = (M 0%nat * x + M 1%nat * y + M 2%nat,
                    M 3%nat * x + M 4%nat * y + M 5%nat).

(** The operations with a box destination.  [Box2.copy(B, d)] leaves in
    [d] the box it leaves in a fresh destination when [d] is [B] itself,
    or when the first corner of [d] is neither the second corner of [B]
    nor the second corner of [d].  [Box2.fromCenterRadius(P, r, d)] does
    when the two corners of [d] are different arrays, whether or not [P]
    is one of them. *)
Definition box_destination_agrees : Prop :=
  (forall h B d, (P0 B < next h)%nat -> (P1 B < next h)%nat ->
     d = B \/ (P0 d <> P1 B /\ P0 d <> P1 d) ->
     exists h1 B2 h2,
       Box2.copy B (Some d) h = Ok d h1 /\
       Box2.copy B None h = Ok B2 h2 /\
       box2_of h1 d = box2_of h2 B2) /\
  (forall h P r d, (P < next h)%nat -> P0 d <> P1 d ->
     exists h1 B2 h2,
       Box2.fromCenterRadius P r (Some d) h = Ok d h1 /\
       Box2.fromCenterRadius P r None h = Ok B2 h2 /\
       box2_of h1 d = box2_of h2 B2).

(** ** Every call of the kernel *)

Inductive call :=
| call_sq (x : number)
| call_int (n : number)
| call_Vec2 (x y : number)
| call_Vec2_uninitialized
| call_Vec2_zero (d : option ref)
| call_Vec2_isZero (v : ref)
| call_Vec2_polar (r angle : number) (d : option ref)
| call_Vec2_set (u : ref) (x y : number)
| call_Vec2_uniform (s : number) (d : option ref)
| call_Vec2_add (u v : ref)
| call_Vec2_sub (u v : ref)
| call_Vec2_scale (u : ref) (s : number)
| call_Vec2_addScaled (u : ref) (s : number) (v : ref)
| call_Vec2_dot (u v : ref)
| call_Vec2_per (u v : ref)
| call_Vec2_len (u : ref)
| call_Vec2_lenSq (u : ref)
| call_Vec2_distSq (P Q : ref)
| call_Vec2_str (u : ref)
| call_Vec3 (x y z : number)
| call_Vec3_zero
| call_Vec3_uniform (s : number)
| call_Mat2A (data : ref)
| call_Mat2A_uninitialized
| call_Mat2A_eye (d : option ref)
| call_Mat2A_fromDOMMatrix (m : DOMMatrix) (d : option ref)
| call_MatA (data : ref)
| call_MatA_compose (A : option ref)
| call_MatA_eye
| call_MatA_translation (u : ref)
| call_MatA_op (op : MatA_op) (A : ref)
| call_MatAComposer_get (this : MatAComposer)
| call_MatAComposer_op (op : MatA_op) (this : MatAComposer)
| call_Mat4 (data : ref)
| call_Mat4_perspective (params : PerspectiveParams)
| call_Mat4_fromDOMMatrix (m : DOMMatrix)
| call_Mat4_transformPoint (m P : ref)
| call_Box2_uninitialized
| call_Box2_empty (d : option Box2)
| call_Box2_copy (B : Box2) (d : option Box2)
| call_Box2_expand (B : Box2) (P : ref)
| call_Box2_expandAll (B : Box2) (Ps : list ref)
| call_Box2_expandByBox (B C : Box2)
| call_Box2_expandByBoxes (B : Box2) (Cs : list Box2)
| call_Box2_scale (B : Box2) (s : number)
| call_Box2_floor (B : Box2)
| call_Box2_fromPoints (Ps : list ref) (d : option Box2)
| call_Box2_wrapping (Bs : list Box2) (d : option Box2)
| call_Box2_fromCenterRadius (P : ref) (r : number) (d : option Box2)
| call_Box2_containsInEx (B : Box2) (P : ref)
| call_Box2_integerPoints (B : Box2)
| call_generator_resume (g : Box2.generator)
| call_Box2_str (B : Box2)
| call_Box3_empty
| call_Box3_expandAll (B : Box3) (Ps : list ref)
| call_Box3_fromPoints (Ps : list ref) (d : option Box3)
| call_with_dest (c : dest_call) (d : option ref).

Definition threw {A} (o : outcome A) : bool :=
  match o with
  | Ok _ _ => false
  | Throw _ => true
  end.

(** Whether a call throws, from the store [h]. *)
Definition throws (H : Host) (c : call) (h : heap) : bool :=
  let Hm := math H in
  match c with
  | call_sq x => threw (ret (sq x) h)
  | call_int n => threw (int n h)
  | call_Vec2 x y => threw (Vec2 x y h)
  | call_Vec2_uninitialized => threw (Vec2.uninitialized h)
  | call_Vec2_zero d => threw (Vec2.zero d h)
  | call_Vec2_isZero v => threw (Vec2.isZero v h)
  | call_Vec2_polar r angle d => threw (Vec2.polar Hm r angle d h)
  | call_Vec2_set u x y => threw (Vec2.set u x y h)
  | call_Vec2_uniform s d => threw (Vec2.uniform s d h)
  | call_Vec2_add u v => threw (Vec2.add u v h)
  | call_Vec2_sub u v => threw (Vec2.sub u v h)
  | call_Vec2_scale u s => threw (Vec2.scale u s h)
  | call_Vec2_addScaled u s v => threw (Vec2.addScaled u s v h)
  | call_Vec2_dot u v => threw (Vec2.dot u v h)
  | call_Vec2_per u v => threw (Vec2.per u v h)
  | call_Vec2_len u => threw (Vec2.len Hm u h)
  | call_Vec2_lenSq u => threw (Vec2.lenSq u h)
  | call_Vec2_distSq P Q => threw (Vec2.distSq P Q h)
  | call_Vec2_str u => threw (Vec2.str (toString H) u h)
  | call_Vec3 x y z => threw (Vec3 x y z h)
  | call_Vec3_zero => threw (Vec3.zero h)
  | call_Vec3_uniform s => threw (Vec3.uniform s h)
  | call_Mat2A data => threw (Mat2A data h)
  | call_Mat2A_uninitialized => threw (Mat2A.uninitialized h)
  | call_Mat2A_eye d => threw (Mat2A.eye d h)
  | call_Mat2A_fromDOMMatrix m d => threw (Mat2A.fromDOMMatrix m d h)
  | call_MatA data => threw (MatA data h)
  | call_MatA_compose A => threw (MatA.compose A h)
  | call_MatA_eye => threw (MatA.eye h)
  | call_MatA_translation u => threw (MatA.translation u h)
  | call_MatA_op op A => threw (MatA_call Hm op A h)
  | call_MatAComposer_get this => threw (MatAComposer.get this h)
  | call_MatAComposer_op op this => threw (MatAComposer_call Hm op this h)
  | call_Mat4 data => threw (Mat4 data h)
  | call_Mat4_perspective params => threw (Mat4.perspective Hm params h)
  | call_Mat4_fromDOMMatrix m => threw (Mat4.fromDOMMatrix m h)
  | call_Mat4_transformPoint m P => threw (Mat4.transformPoint m P h)
  | call_Box2_uninitialized => threw (Box2.uninitialized h)
  | call_Box2_empty d => threw (Box2.empty d h)
  | call_Box2_copy B d => threw (Box2.copy B d h)
  | call_Box2_expand B P => threw (Box2.expand B P h)
  | call_Box2_expandAll B Ps => threw (Box2.expandAll B Ps h)
  | call_Box2_expandByBox B C => threw (Box2.expandByBox B C h)
  | call_Box2_expandByBoxes B Cs => threw (Box2.expandByBoxes B Cs h)
  | call_Box2_scale B s => threw (Box2.scale B s h)
  | call_Box2_floor B => threw (Box2.floor B h)
  | call_Box2_fromPoints Ps d => threw (Box2.fromPoints Ps d h)
  | call_Box2_wrapping Bs d => threw (Box2.wrapping Bs d h)
  | call_Box2_fromCenterRadius P r d => threw (Box2.fromCenterRadius P r d h)
  | call_Box2_containsInEx B P => threw (Box2.containsInEx B P h)
  | call_Box2_integerPoints B => threw (ret (Box2.integerPoints B) h)
  | call_generator_resume g => threw (Box2.step g h)
  | call_Box2_str B => threw (Box2.str (toString H) B h)
  | call_Box3_empty => threw (Box3.empty h)
  | call_Box3_expandAll B Ps => threw (Box3.expandAll B Ps h)
  | call_Box3_fromPoints Ps d => threw (Box3.fromPoints Ps d h)
  | call_with_dest c d => threw (run_dest Hm c d h)
  end.

(** [sat R m]: from every store, [m] returns normally, in a store related
    to the first by [R]. *)
Definition sat {A} (R : heap -> heap -> Prop) (m : M A) : Prop :=
  forall h, exists a h', m h = Ok a h' /\ R h h'.

(** The relation that holds between any two stores. *)
Definition any_store (h h' : heap) : Prop := True.

(** ** Stores used to run the kernel on concrete inputs *)

(** The identity matrix at reference 0 and the vector [(1, 2, 3)] at 1. *)
Definition eye_heap : heap :=
  heap_of [[1; 0; 0; 0; 0; 1; 0; 0; 0; 0; 1; 0; 0; 0; 0; 1]; [1; 2; 3]].

(** The box [[(0,0),(1,1)]] at references 0 and 1, and the points [(0,0)]
    and [(1,1)] at 2 and 3. *)
Definition unit_box_heap : heap := heap_of [[0; 0]; [1; 1]; [0; 0]; [1; 1]].
Definition unit_box : Box2 := {| P0 := 0; P1 := 1 |}.

Definition box2_result (o : outcome Box2)
  : option ((number * number) * (number * number)) :=
  match o with
  | Ok B h => Some (box2_of h B)
  | Throw _ => None
  end.

Definition box3_result (o : outcome Box3)
  : option ((number * number * number) * (number * number * number)) :=
  match o with
  | Ok B h => Some (box3_of h B)
  | Throw _ => None
  end.

(** The vector [(3, 4)] at reference 0 and a 2D transform at 1. *)
Definition alias_heap : heap := heap_of [[3; 4]; [2; 0; 1; 0; 2; 1]].

(** A populated Box3 [[(0,0,0),(1,1,1)]] at references 0 and 1. *)
Definition box3_heap : heap := heap_of [[0; 0; 0]; [1; 1; 1]].
Definition unit_box3 : Box3 := {| B3P0 := 0; B3P1 := 1 |}.


(** * Vocabulary of the further properties *)

(** ** The order of numbers *)

(** A bound beyond the scaled value of every finite number. *)
Definition beyond : Z := (2 ^ 2100)%Z.

(** The place of a number other than NaN in the order of [<]: the exact
    value scaled by [2^1074], with the infinities beyond every finite
    number. *)
Definition SFrank (x : spec_float) : Z :=
  match x with
  | S754_infinity s => cond_Zopp s beyond
  | _ => SFscaled x
  end.

Definition rank (x : number) : Z := SFrank (Prim2SF x).

(** The order in which [Math.min] and [Math.max] see the numbers other
    than NaN: as [rank], with [-0] before [+0]. *)
Definition key (x : number) : Z :=
  (2 * rank x - (if Math.is_neg_zero x then 1 else 0))%Z.

(** [key] extended to NaN, which [Math.min] treats as below and [Math.max]
    as above every other number. *)
Definition key_min (x : number) : Z := if is_nan x then (- (4 * beyond))%Z else key x.
Definition key_max (x : number) : Z := if is_nan x then (4 * beyond)%Z else key x.

(** ** The values of numbers *)

(** SameValueZero of the language standard: equal as [===], or both NaN. *)
Definition SameValueZero (a b : number) : bool :=
  (a =? b) || (is_nan a && is_nan b).

(** A number whose sign bit is clear, or NaN: no such number is below
    zero. *)
Definition SFunsigned (x : spec_float) : Prop :=
  match x with
  | S754_nan => True
  | S754_zero s | S754_infinity s | S754_finite s _ _ => s = false
  end.

(** [a] is [x] with zeros added: [x] itself, or a zero when [x] is one. *)
Definition absorbs (x a : number) : Prop :=
  (is_zero x = false -> a = x) /\ (is_zero x = true -> is_zero a = true).

(** [f] is what flooring [x] gives: for a finite [x] the integer-valued
    number [floor(x)], with [floor(x) <= x < floor(x) + 1], which passes
    [int]; for NaN and the infinities [x] itself, which does not. *)
Definition floored (x f : number) (h : heap) : Prop :=
  (not_finite x = false ->
     is_integer f (floorZ x) /\
     (floorZ x * 2 ^ 1074 <= scaled x < (floorZ x + 1) * 2 ^ 1074)%Z /\
     int f h = Ok f h) /\
  (not_finite x = true -> f = x /\ int f h = Throw "not an integer").

(** ** Boxes around points *)

(** The arrays [rs] exist in the store [h]. *)
Definition allocated (h : heap) (rs : list ref) : Prop :=
  forall r, In r rs -> (r < next h)%nat.

(** No coordinate of the point is NaN. *)
Definition no_NaN2 (p : point2) : Prop :=
  is_nan (fst p) = false /\ is_nan (snd p) = false.

(** The box [b] contains the point [p], every bound included. *)
Definition within2 (b : point2 * point2) (p : point2) : Prop :=
  (fst (fst b) <=? fst p) = true /\ (fst p <=? fst (snd b)) = true /\
  (snd (fst b) <=? snd p) = true /\ (snd p <=? snd (snd b)) = true.

(** Each of the four bounds of [b] is a coordinate of one of the points. *)
Definition attained2 (b : point2 * point2) (ps : list point2) : Prop :=
  In (fst (fst b)) (map fst ps) /\ In (fst (snd b)) (map fst ps) /\
  In (snd (fst b)) (map snd ps) /\ In (snd (snd b)) (map snd ps).

(** The three coordinates of a point of space. *)
Definition x3 (p : point3) : number := fst (fst p).
Definition y3 (p : point3) : number := snd (fst p).
Definition z3 (p : point3) : number := snd p.

Definition no_NaN3 (p : point3) : Prop :=
  is_nan (x3 p) = false /\ is_nan (y3 p) = false /\ is_nan (z3 p) = false.

(** [within2] and [attained2] on three axes. *)
Definition within3 (b : point3 * point3) (p : point3) : Prop :=
  (x3 (fst b) <=? x3 p) = true /\ (x3 p <=? x3 (snd b)) = true /\
  (y3 (fst b) <=? y3 p) = true /\ (y3 p <=? y3 (snd b)) = true /\
  (z3 (fst b) <=? z3 p) = true /\ (z3 p <=? z3 (snd b)) = true.

Definition attained3 (b : point3 * point3) (ps : list point3) : Prop :=
  In (x3 (fst b)) (map x3 ps) /\ In (x3 (snd b)) (map x3 ps) /\
  In (y3 (fst b)) (map y3 ps) /\ In (y3 (snd b)) (map y3 ps) /\
  In (z3 (fst b)) (map z3 ps) /\ In (z3 (snd b)) (map z3 ps).

(** ** Boxes around boxes *)

(** The least box around two boxes, corner by corner. *)
Definition union2 (b c : point2 * point2) : point2 * point2 :=
  let '((x0, y0), (x1, y1)) := b in
  let '((cx0, cy0), (cx1, cy1)) := c in
  ((Math.min x0 cx0, Math.min y0 cy0), (Math.max x1 cx1, Math.max y1 cy1)).

(** The box [C] shares no corner array with the box [o]. *)
Definition apart (o : Box2) (C : Box2) : Prop :=
  P0 C <> P0 o /\ P0 C <> P1 o /\ P1 C <> P0 o /\ P1 C <> P1 o.

(** No coordinate of the box is NaN. *)
Definition no_NaN (b : point2 * point2) : Prop :=
  is_nan (fst (fst b)) = false /\ is_nan (snd (fst b)) = false /\
  is_nan (fst (snd b)) = false /\ is_nan (snd (snd b)) = false.

(** The box [w] encloses the box [b]: its lower corner is not above and
    its upper corner not below, on both axes. *)
Definition encloses (w b : point2 * point2) : Prop :=
  (fst (fst w) <=? fst (fst b)) = true /\ (snd (fst w) <=? snd (fst b)) = true /\
  (fst (snd b) <=? fst (snd w)) = true /\ (snd (snd b) <=? snd (snd w)) = true.

(** ** A consumer that keeps what the generator yields *)

(** The generator resumed through [n] steps of its body by a consumer that
    keeps the yielded values themselves, as [Array.from(g)] does: the
    references yielded so far, the state reached and the store. *)
Fixpoint resume (n : nat) (g : Box2.generator) (h : heap)
  : list ref * Box2.generator * heap :=
  match n with
  | O => ([], g, h)
  | S n' =>
      match Box2.step g h with
      | Ok (g', y) h' =>
          let '(ys, g'', h'') := resume n' g' h' in
          (match y with Some P => P :: ys | None => ys end, g'', h'')
      | Throw _ => ([], g, h)
      end
  end.

(** The output vector of a generator whose body has started is [p]. *)
Definition output_is (p : ref) (g : Box2.generator) : Prop :=
  match g with
  | Box2.Created _ => False
  | Box2.OuterTest _ _ _ _ P
  | Box2.InnerTest _ _ _ _ _ P
  | Box2.Suspended _ _ _ _ _ P => P = p
  | Box2.Completed => True
  end.

(** ** Matrices and vectors *)

(** Two vectors whose components are the same values. *)
Definition same_vec3 (a b : point3) : Prop :=
  SameValueZero (x3 a) (x3 b) = true /\
  SameValueZero (y3 a) (y3 b) = true /\
  SameValueZero (z3 a) (z3 b) = true.

(** The store after [A[i] *= s]. *)
Definition multiplied (A : ref) (s : number) (h : heap) (i : nat) : heap :=
  write h A (arr_set (cells h A) i (arr_get (cells h A) i * s)).

(** The entries of the matrix that a call of a mutator stores into. *)
Definition written (op : MatA_op) : list nat :=
  match op with
  | op_translate _ => [3; 7; 11]
  | op_scaleX _ => [0; 1; 2; 3]
  | op_scaleY _ => [4; 5; 6; 7]
  | op_scaleZ _ => [8; 9; 10; 11]
  | op_scale _ | op_scaleVector _ => [0; 1; 2; 3; 4; 5; 6; 7; 8; 9; 10; 11]
  | op_rotateX _ => [4; 5; 6; 7; 8; 9; 10; 11]
  | op_rotateY _ => [8; 9; 10; 11; 0; 1; 2; 3]
  | op_rotateZ _ => [0; 1; 2; 3; 4; 5; 6; 7]
  end%nat.

(** A computation that returns normally, allocates nothing and leaves
    every number of every array as it was: every element reads as the
    number it read as before, and an element that was a number is that
    very number.  (An element that was [undefined] may have become
    NaN.) *)
Definition keeps_numbers (m : M unit) : Prop :=
  forall h, exists h', m h = Ok tt h' /\ next h' = next h /\
    forall r j,
      arr_get (cells h' r) j = arr_get (cells h r) j /\
      forall x, arr_read (cells h r) j = Num x -> arr_read (cells h' r) j = Num x.

(** A computation that returns normally, allocates nothing and leaves
    every entry of every array with the same value, where a zero may
    have changed its sign. *)
Definition keeps_values (m : M unit) (h : heap) : Prop :=
  exists h', m h = Ok tt h' /\ next h' = next h /\
    forall r j, SameValueZero (arr_get (cells h' r) j) (arr_get (cells h r) j) = true.

(** ** More stores to run the kernel on *)

(** The points [(0, 0)] and [(NaN, 1)] at references 0 and 1. *)
Definition nan_heap : heap := heap_of [[0; 0]; [NaN; 1]].

(** The second box of [unit_box_heap], at references 2 and 3. *)
Definition second_box : Box2 := {| P0 := 2; P1 := 3 |}.


(** * Proofs *)

(** ** Arrays and the store *)

Lemma arr_read_nil (i : nat) : arr_read [] i = Undefined.
Proof. destruct i; reflexivity. Qed.

Lemma arr_read_put_same (l : list value) (i : nat) (v : value) :
  arr_read (arr_put l i v) i = v.
Proof.
  revert l. induction i as [|i IH]; intros [|a l]; cbn; auto.
  - apply (IH []).
  - apply IH.
Qed.

Lemma arr_read_put_other (l : list value) (i j : nat) (v : value) :
  i <> j -> arr_read (arr_put l i v) j = arr_read l j.
Proof.
  unfold arr_read.
  revert l j. induction i as [|i IH]; intros [|a l] [|j] Hij; cbn; try congruence; auto.
  - destruct j; reflexivity.
  - rewrite (IH [] j) by congruence. now destruct j.
Qed.

Lemma arr_read_set_same (l : list value) (i : nat) (x : number) :
  arr_read (arr_set l i x) i = Num x.
Proof. apply arr_read_put_same. Qed.

Lemma arr_read_set_other (l : list value) (i j : nat) (x : number) :
  i <> j -> arr_read (arr_set l i x) j = arr_read l j.
Proof. apply arr_read_put_other. Qed.

Lemma arr_get_put_same (l : list value) (i : nat) (v : value) :
  arr_get (arr_put l i v) i = ToNumber v.
Proof. unfold arr_get. now rewrite arr_read_put_same. Qed.

Lemma arr_get_put_other (l : list value) (i j : nat) (v : value) :
  i <> j -> arr_get (arr_put l i v) j = arr_get l j.
Proof. intros Hij. unfold arr_get. now rewrite arr_read_put_other. Qed.

Lemma arr_get_set_same (l : list value) (i : nat) (v : number) :
  arr_get (arr_set l i v) i = v.
Proof. apply arr_get_put_same. Qed.

Lemma arr_get_nil (i : nat) : arr_get [] i = NaN.
Proof. destruct i; reflexivity. Qed.

Lemma arr_get_set_other (l : list value) (i j : nat) (v : number) :
  i <> j -> arr_get (arr_set l i v) j = arr_get l j.
Proof. apply arr_get_put_other. Qed.

(** An element read as it is, then converted, is the element read as an
    operand. *)
Lemma ToNumber_arr_read (l : list value) (i : nat) :
  ToNumber (arr_read l i) = arr_get l i.
Proof. reflexivity. Qed.

Lemma arr_read_nums (l : list number) (i : nat) :
  (i < List.length l)%nat -> arr_read (nums l) i = Num (nth i l NaN).
Proof.
  revert i. induction l as [|a l IH]; intros [|i] Hi; cbn in *; try lia; auto.
  apply IH. lia.
Qed.

Lemma arr_get_nums (l : list number) (i : nat) : arr_get (nums l) i = nth i l NaN.
Proof.
  revert i. induction l as [|a l IH]; intros [|i]; cbn; auto. apply IH.
Qed.

Lemma cells_write_same (h : heap) (a : ref) (l : list value) :
  cells (write h a l) a = l.
Proof. cbn. now rewrite Nat.eqb_refl. Qed.

Lemma cells_write_other (h : heap) (a r : ref) (l : list value) :
  r <> a -> cells (write h a l) r = cells h r.
Proof. intros Hr. cbn. now apply Nat.eqb_neq in Hr as ->. Qed.

Lemma cells_grow_new (h : heap) (l : list value) : cells (grow h l) (next h) = l.
Proof. cbn. now rewrite Nat.eqb_refl. Qed.

Lemma cells_grow_old (h : heap) (l : list value) (r : ref) :
  r <> next h -> cells (grow h l) r = cells h r.
Proof. intros Hr. cbn. now apply Nat.eqb_neq in Hr as ->. Qed.

Lemma cells_extend_new (h : heap) (l : list number) :
  cells (extend h l) (next h) = nums l.
Proof. apply cells_grow_new. Qed.

Lemma cells_extend_old (h : heap) (l : list number) (r : ref) :
  r <> next h -> cells (extend h l) r = cells h r.
Proof. apply cells_grow_old. Qed.

Lemma next_write (h : heap) (a : ref) (l : list value) : next (write h a l) = next h.
Proof. reflexivity. Qed.

Lemma next_grow (h : heap) (l : list value) : next (grow h l) = S (next h).
Proof. reflexivity. Qed.

Lemma next_extend (h : heap) (l : list number) : next (extend h l) = S (next h).
Proof. reflexivity. Qed.

Ltac heap_simpl :=
  repeat first
    [ rewrite cells_write_same
    | rewrite cells_extend_new
    | rewrite cells_grow_new
    | rewrite next_write
    | rewrite next_extend
    | rewrite next_grow
    | rewrite arr_get_set_same
    | rewrite arr_get_put_same
    | rewrite cells_write_other by lia
    | rewrite cells_extend_old by lia
    | rewrite cells_grow_old by lia
    | rewrite arr_get_set_other by lia
    | rewrite arr_get_put_other by lia ].

(** ** Programs that establish a relation between the stores *)

Section Sat.

Context (R : heap -> heap -> Prop) {PR : PreOrder R}.

Lemma sat_ret {A} (a : A) : sat R (ret a).
Proof. intros h. exists a, h. split; [reflexivity | apply PR]. Qed.

Lemma sat_bind {A B} (m : M A) (k : A -> M B) :
  sat R m -> (forall a, sat R (k a)) -> sat R (bind m k).
Proof.
  intros Hm Hk h. destruct (Hm h) as (a & h1 & E1 & R1).
  destruct (Hk a h1) as (b & h2 & E2 & R2).
  exists b, h2. unfold bind. rewrite E1. split; [assumption|].
  now transitivity h1.
Qed.

Lemma sat_get (a : ref) (i : nat) : sat R (get a i).
Proof. intros h. eexists _, h. split; [reflexivity | apply PR]. Qed.

Lemma sat_read (a : ref) (i : nat) : sat R (read a i).
Proof. intros h. eexists _, h. split; [reflexivity | apply PR]. Qed.

Lemma sat_if {A} (c : bool) (m1 m2 : M A) :
  sat R m1 -> sat R m2 -> sat R (if c then m1 else m2).
Proof. now destruct c. Qed.

Lemma sat_forOf {A} (xs : list A) (body : A -> M unit) :
  (forall x, sat R (body x)) -> sat R (forOf xs body).
Proof.
  intros Hb. induction xs as [|x xs IH]; cbn.
  - apply sat_ret.
  - apply sat_bind; auto.
Qed.

End Sat.

(** ** MatA: the last row is never written (C7) *)

#[export] Instance writes_only_affine_preorder (A : ref) : PreOrder (writes_only_affine A).
Proof.
  split.
  - intros h. repeat split; auto.
  - intros h1 h2 h3 (N1 & O1 & L1) (N2 & O2 & L2). repeat split.
    + congruence.
    + intros r Hr. rewrite O2, O1; auto.
    + intros i Hi. rewrite L2, L1; auto.
Qed.

Lemma sat_set_affine (A : ref) (i : nat) (v : number) :
  (i < 12)%nat -> sat (writes_only_affine A) (set A i v).
Proof.
  intros Hi h. eexists tt, _. split; [reflexivity|]. repeat split.
  - intros r Hr. now apply cells_write_other.
  - intros j Hj. rewrite cells_write_same. apply arr_get_set_other. lia.
Qed.

Ltac affine :=
  repeat lazymatch goal with
    | |- sat _ (bind _ _) => apply sat_bind; [ exact _ | | intros ]
    | |- sat _ (ret _) => apply sat_ret; exact _
    | |- sat _ (get _ _) => apply sat_get; exact _
    | |- sat _ (set _ _ _) => apply sat_set_affine; lia
    end.

Lemma MatA_call_affine (H : Math.impl) (op : MatA_op) (A : ref) :
  sat (writes_only_affine A) (MatA_call H op A).
Proof.
  destruct op; cbn;
    unfold MatA.translate, MatA.scaleX, MatA.scaleY, MatA.scaleZ, MatA.scale,
      MatA.scaleVector, MatA.rotateX, MatA.rotateY, MatA.rotateZ, mul_assign;
    affine.
Qed.

Lemma MatAComposer_call_forwards (H : Math.impl) (op : MatA_op) (this : MatAComposer)
    (h : heap) :
  MatAComposer_call H op this h =
  match MatA_call H op (composer_A this) h with
  | Ok _ h' => Ok this h'
  | Throw msg => Throw msg
  end.
Proof.
  destruct op; cbn [MatAComposer_call MatA_call];
    unfold MatAComposer.translate, MatAComposer.scaleX, MatAComposer.scaleY,
      MatAComposer.scaleZ, MatAComposer.scale, MatAComposer.scaleVector,
      MatAComposer.rotateX, MatAComposer.rotateY, MatAComposer.rotateZ, bind, ret;
    reflexivity.
Qed.

Lemma MatAComposer_chain_affine (H : Math.impl) (ops : list MatA_op) (A : ref)
    (h : heap) :
  exists h', MatAComposer_chain H ops {| composer_A := A |} h = Ok A h' /\
             writes_only_affine A h h'.
Proof.
  revert h. induction ops as [|op ops IH]; intros h; cbn [MatAComposer_chain].
  - exists h. split; reflexivity.
  - unfold bind. rewrite MatAComposer_call_forwards. cbn [composer_A].
    destruct (MatA_call_affine H op A h) as ([] & h1 & E1 & R1). rewrite E1.
    destruct (IH h1) as (h2 & E2 & R2). exists h2. split; [assumption|].
    now transitivity h1.
Qed.

Lemma writes_only_affine_last_row (A : ref) (h h' : heap) :
  writes_only_affine A h h' -> last_row h' A = last_row h A.
Proof.
  intros (_ & _ & L). unfold last_row. now rewrite !L by lia.
Qed.

(** C7.  Every MatA mutator, called statically or through a chain of
    composer methods, returns normally having written at most entries 0 to
    11 of the matrix: entries 12 and above, every other array and the
    allocation pointer are as before.  Hence a matrix whose last row is
    (0, 0, 0, 1) before the call has that last row after it. *)
Theorem MatA_last_row_invariant (H : Math.impl) (h : heap) (A : ref) :
  last_row h A = [0; 0; 0; 1] ->
  (forall op, exists h',
      MatA_call H op A h = Ok tt h' /\
      writes_only_affine A h h' /\ last_row h' A = [0; 0; 0; 1]) /\
  (forall ops, exists h',
      MatAComposer_chain H ops {| composer_A := A |} h = Ok A h' /\
      writes_only_affine A h h' /\ last_row h' A = [0; 0; 0; 1]).
Proof.
  intros Hrow. split.
  - intros op. destruct (MatA_call_affine H op A h) as ([] & h' & E & R).
    exists h'. repeat split; try apply R; auto.
    now rewrite (writes_only_affine_last_row R).
  - intros ops. destruct (MatAComposer_chain_affine H ops A h) as (h' & E & R).
    exists h'. repeat split; try apply R; auto.
    now rewrite (writes_only_affine_last_row R).
Qed.

Lemma MatA_last_row_invariant_witness :
  last_row eye_heap 0 = [0; 0; 0; 1] /\
  (forall op, exists h',
      MatA_call sample_math op 0 eye_heap = Ok tt h' /\
      writes_only_affine 0 eye_heap h' /\ last_row h' 0 = [0; 0; 0; 1]) /\
  (forall ops, exists h',
      MatAComposer_chain sample_math ops {| composer_A := 0 |} eye_heap = Ok 0%nat h' /\
      writes_only_affine 0 eye_heap h' /\ last_row h' 0 = [0; 0; 0; 1]).
Proof.
  split; [reflexivity
         | apply (@MatA_last_row_invariant sample_math eye_heap 0); reflexivity].
Defined.

(** ** Classification of numbers *)

Lemma SFcompare_refl_finite (s : bool) (m : positive) (e : Z) :
  SFcompare (S754_finite s m e) (S754_finite s m e) = Some Eq.
Proof.
  cbn. rewrite Z.compare_refl, Pos.compare_cont_refl. now destruct s.
Qed.

Lemma is_nan_spec (x : number) :
  is_nan x = match Prim2SF x with S754_nan => true | _ => false end.
Proof.
  unfold is_nan. rewrite FloatAxioms.eqb_spec. unfold SFeqb.
  destruct (Prim2SF x) as [s|s| |s m e].
  - reflexivity.
  - now destruct s.
  - reflexivity.
  - now rewrite SFcompare_refl_finite.
Qed.

Lemma is_infinity_spec (x : number) :
  is_infinity x = match Prim2SF x with S754_infinity _ => true | _ => false end.
Proof.
  unfold is_infinity. rewrite FloatAxioms.eqb_spec, abs_spec.
  change (Prim2SF infinity) with (S754_infinity false).
  now destruct (Prim2SF x) as [s|s| |s m e].
Qed.

Lemma not_finite_spec (x : number) :
  not_finite x = match Prim2SF x with
                 | S754_nan | S754_infinity _ => true
                 | _ => false
                 end.
Proof.
  unfold not_finite. rewrite is_nan_spec, is_infinity_spec.
  now destruct (Prim2SF x).
Qed.

Lemma eqb_zero_spec (w : number) :
  (w =? 0) = true -> exists s, Prim2SF w = S754_zero s.
Proof.
  rewrite FloatAxioms.eqb_spec. change (Prim2SF 0) with (S754_zero false).
  destruct (Prim2SF w) as [s|s| |s m e]; cbn; try discriminate.
  - eauto.
  - now destruct s.
  - now destruct s.
Qed.

Lemma div_by_zero_not_finite (a w : number) :
  (w =? 0) = true -> not_finite (a / w) = true.
Proof.
  intros Hw. destruct (eqb_zero_spec Hw) as [s Es].
  rewrite not_finite_spec, div_spec. unfold SF64div, SFdiv. rewrite Es.
  now destruct (Prim2SF a).
Qed.


(** * Binary64 arithmetic *)

Section Binary64.

Local Open Scope Z_scope.


(** ** Binary64 mantissas and exponents *)

Lemma digits2_pos_bounds (m : positive) :
  2 ^ (Zpos (digits2_pos m) - 1) <= Zpos m < 2 ^ Zpos (digits2_pos m).
Proof.
  induction m as [m IH|m IH|]; cbn [digits2_pos].
  - rewrite Pos2Z.inj_succ, Z.pow_succ_r by lia.
    replace (Z.succ (Zpos (digits2_pos m)) - 1) with (Z.succ (Zpos (digits2_pos m) - 1)) by lia.
    rewrite Z.pow_succ_r by lia. lia.
  - rewrite Pos2Z.inj_succ, Z.pow_succ_r by lia.
    replace (Z.succ (Zpos (digits2_pos m)) - 1) with (Z.succ (Zpos (digits2_pos m) - 1)) by lia.
    rewrite Z.pow_succ_r by lia. lia.
  - cbn. lia.
Qed.

Lemma digits2_pos_unique (m : positive) (d : Z) :
  2 ^ (d - 1) <= Zpos m < 2 ^ d -> Zpos (digits2_pos m) = d.
Proof.
  intros [Hlo Hhi]. pose proof (digits2_pos_bounds m) as [Blo Bhi].
  set (d' := Zpos (digits2_pos m)) in *.
  assert (0 < d).
  { destruct (Z_lt_le_dec 0 d); auto. rewrite Z.pow_neg_r in Hlo by lia.
    destruct (Z.eq_dec d 0) as [->|]; [cbn in Hhi; lia|].
    rewrite Z.pow_neg_r in Hhi by lia. lia. }
  destruct (Z.lt_trichotomy d' d) as [L|[E|G]]; auto.
  - assert (2 ^ d' <= 2 ^ (d - 1)) by (apply Z.pow_le_mono_r; lia). lia.
  - assert (2 ^ d <= 2 ^ (d' - 1)) by (apply Z.pow_le_mono_r; lia). lia.
Qed.

Lemma digits2_pos_shift (m : positive) (k : Z) (M : positive) :
  0 <= k -> Zpos M = Zpos m * 2 ^ k ->
  Zpos (digits2_pos M) = Zpos (digits2_pos m) + k.
Proof.
  intros Hk E. apply digits2_pos_unique. rewrite E.
  pose proof (digits2_pos_bounds m) as [Blo Bhi].
  replace (Zpos (digits2_pos m) + k - 1) with (Zpos (digits2_pos m) - 1 + k) by lia.
  rewrite !Z.pow_add_r by lia.
  assert (0 < 2 ^ k) by (apply Z.pow_pos_nonneg; lia). nia.
Qed.

Lemma iter_xO_pow (m k : positive) : Zpos (Pos.iter xO m k) = Zpos m * 2 ^ Zpos k.
Proof.
  induction k as [|k IH] using Pos.peano_ind.
  - cbn. lia.
  - rewrite Pos.iter_succ, Pos2Z.inj_succ, Z.pow_succ_r by lia.
    rewrite Pos2Z.inj_xO, IH. lia.
Qed.

Lemma shr_1_even (z : Z) :
  0 < z -> shr_1 (Build_shr_record (z * 2) false false) = Build_shr_record z false false.
Proof.
  destruct z as [|p|p]; try lia. intros _.
  replace (Zpos p * 2) with (Zpos p~0) by lia. reflexivity.
Qed.

Lemma pow2_xO (p : positive) : 2 ^ Zpos p~0 = 2 ^ Zpos p * 2 ^ Zpos p.
Proof.
  replace (Zpos p~0) with (Zpos p + Zpos p) by lia. apply Z.pow_add_r; lia.
Qed.

Lemma pow2_xI (p : positive) : 2 ^ Zpos p~1 = 2 ^ Zpos p * 2 ^ Zpos p * 2.
Proof.
  replace (Zpos p~1) with (Zpos p + Zpos p + 1) by lia.
  rewrite !Z.pow_add_r by lia. reflexivity.
Qed.

Lemma iter_shr_1_exact (p : positive) (z : Z) :
  0 < z ->
  iter_pos shr_1 p (Build_shr_record (z * 2 ^ Zpos p) false false) =
  Build_shr_record z false false.
Proof.
  revert z. induction p as [p IH|p IH|]; intros z Hz; cbn [iter_pos].
  - assert (0 < 2 ^ Zpos p) by (apply Z.pow_pos_nonneg; lia).
    rewrite pow2_xI.
    replace (z * (2 ^ Zpos p * 2 ^ Zpos p * 2)) with (z * 2 ^ Zpos p * 2 ^ Zpos p * 2) by lia.
    rewrite shr_1_even by nia. rewrite IH by nia. now apply IH.
  - assert (0 < 2 ^ Zpos p) by (apply Z.pow_pos_nonneg; lia).
    rewrite pow2_xO.
    replace (z * (2 ^ Zpos p * 2 ^ Zpos p)) with (z * 2 ^ Zpos p * 2 ^ Zpos p) by lia.
    rewrite IH by nia. now apply IH.
  - change (2 ^ 1) with 2. now apply shr_1_even.
Qed.

Lemma bounded_canonical (m : positive) (e : Z) :
  bounded prec emax m e = true <-> canonical m e.
Proof.
  unfold bounded, canonical_mantissa, canonical, fexp, SpecFloat.emin, prec, emax.
  rewrite andb_true_iff, Z.eqb_eq, Z.leb_le. cbn. lia.
Qed.

Lemma shr_exact (z : Z) (e k : Z) :
  0 < z -> 0 <= k ->
  shr (Build_shr_record (z * 2 ^ k) false false) (e - k) k =
  (Build_shr_record z false false, e).
Proof.
  intros Hz Hk. destruct k as [|p|p]; try lia; cbn [shr].
  - f_equal; [f_equal|]; lia.
  - rewrite iter_shr_1_exact by assumption. f_equal. lia.
Qed.

Lemma binary_round_aux_exact (s : bool) (m : positive) (e k : Z) :
  canonical m e -> 0 <= k ->
  binary_round_aux prec emax s (Zpos m * 2 ^ k) (e - k) loc_Exact = S754_finite s m e.
Proof.
  intros [Hc He] Hk. unfold binary_round_aux, shr_fexp.
  assert (0 < 2 ^ k) by (apply Z.pow_pos_nonneg; lia).
  destruct (Zpos m * 2 ^ k) as [|M|M] eqn:EM; try nia.
  pose proof (digits2_pos_shift m Hk (eq_sym EM)) as HD.
  cbn [Zdigits2 shr_record_of_loc].
  replace (fexp prec emax (Zpos (digits2_pos M) + (e - k)) - (e - k)) with k
    by (unfold fexp, SpecFloat.emin, prec, emax; lia).
  rewrite <- EM, shr_exact by lia.
  cbn [shr_m loc_of_shr_record round_nearest_even Zdigits2 shr_record_of_loc].
  replace (fexp prec emax (Zpos (digits2_pos m) + e) - e) with 0
    by (unfold fexp, SpecFloat.emin, prec, emax; lia).
  cbn [shr shr_m].
  replace (e <=? emax - prec) with true; [reflexivity|].
  symmetry. apply Z.leb_le. unfold emax, prec. lia.
Qed.


Lemma pow2_pos (k : Z) : 0 <= k -> 0 < 2 ^ k.
Proof. intros. apply Z.pow_pos_nonneg; lia. Qed.

Lemma pow2_split (a b : Z) : a <= b -> -1074 <= a ->
  2 ^ (b + 1074) = 2 ^ (b - a) * 2 ^ (a + 1074).
Proof. intros. rewrite <- Z.pow_add_r by lia. f_equal. lia. Qed.

Lemma canonical_bounds (m : positive) (e : Z) :
  canonical m e ->
  -1074 <= e <= 971 /\ Zpos m < 2 ^ 53 /\ (-1074 < e -> 2 ^ 52 <= Zpos m).
Proof.
  intros [Hc He]. pose proof (digits2_pos_bounds m) as [Blo Bhi].
  set (d := Zpos (digits2_pos m)) in *.
  assert (d <= 53) by lia.
  repeat split; try lia.
  - assert (2 ^ d <= 2 ^ 53) by (apply Z.pow_le_mono_r; lia). lia.
  - intros Hlt. assert (d = 53) by lia. subst d. rewrite H0 in Blo.
    exact Blo.
Qed.

Lemma binary_round_repr (s : bool) (M m : positive) (E e : Z) :
  canonical m e -> -1074 <= E ->
  Zpos M * 2 ^ (E + 1074) = Zpos m * 2 ^ (e + 1074) ->
  binary_round prec emax s M E = S754_finite s m e.
Proof.
  intros Hc HE Heq. pose proof (canonical_bounds Hc) as [[He1 He2] _].
  unfold binary_round.
  destruct (Z_le_gt_dec E e) as [Hle|Hgt].
  - assert (EM : Zpos M = Zpos m * 2 ^ (e - E)).
    { rewrite (pow2_split Hle HE) in Heq.
      pose proof (pow2_pos (k := E + 1074)). nia. }
    pose proof (digits2_pos_shift m (k := e - E) ltac:(lia) EM) as HD.
    replace (fexp prec emax (Zpos (digits2_pos M) + E)) with e
      by (destruct Hc; unfold fexp, SpecFloat.emin, prec, emax; lia).
    unfold shl_align. destruct (e - E) as [|d|d] eqn:Ed; try lia.
    + rewrite EM. replace E with (e - 0) by lia. now apply binary_round_aux_exact.
    + rewrite EM. replace E with (e - Zpos d) by lia. now apply binary_round_aux_exact.
  - assert (EM : Zpos m = Zpos M * 2 ^ (E - e)).
    { rewrite (@pow2_split e E) in Heq by lia.
      pose proof (pow2_pos (k := e + 1074)). nia. }
    pose proof (digits2_pos_shift M (k := E - e) ltac:(lia) EM) as HD.
    replace (fexp prec emax (Zpos (digits2_pos M) + E)) with e
      by (destruct Hc; unfold fexp, SpecFloat.emin, prec, emax; lia).
    unfold shl_align. destruct (e - E) as [|d|d] eqn:Ed; try lia.
    assert (Pos.iter xO M d = m) as ->.
    { apply Pos2Z.inj. rewrite iter_xO_pow, EM. do 2 f_equal. lia. }
    replace (Zpos m) with (Zpos m * 2 ^ 0) by (cbn; lia).
    replace e with (e - 0) at 1 by lia. now apply binary_round_aux_exact.
Qed.

(** ** Order *)

Lemma canonical_lt (m1 m2 : positive) (e1 e2 : Z) :
  canonical m1 e1 -> canonical m2 e2 -> e1 < e2 ->
  Zpos m1 * 2 ^ (e1 + 1074) < Zpos m2 * 2 ^ (e2 + 1074).
Proof.
  intros H1 H2 Hlt.
  destruct (canonical_bounds H1) as ([? ?] & Hm1 & _).
  destruct (canonical_bounds H2) as ([? ?] & _ & Hm2).
  specialize (Hm2 ltac:(lia)).
  rewrite (@pow2_split e1 e2) by lia.
  pose proof (pow2_pos (k := e1 + 1074) ltac:(lia)) as Ha.
  assert (Hb : 2 ^ 1 <= 2 ^ (e2 - e1)) by (apply Z.pow_le_mono_r; lia).
  pose proof (pow2_pos (k := 52) ltac:(lia)) as HT.
  replace (2 ^ 53) with (2 ^ 52 * 2 ^ 1) in Hm1 by reflexivity.
  set (a := 2 ^ (e1 + 1074)) in *. set (b := 2 ^ (e2 - e1)) in *.
  set (T := 2 ^ 52) in *. set (two := 2 ^ 1) in *.
  apply Z.lt_le_trans with (T * two * a).
  - apply Z.mul_lt_mono_pos_r; assumption.
  - rewrite Z.mul_assoc. apply Z.mul_le_mono_nonneg_r; [lia|].
    apply Z.mul_le_mono_nonneg; lia.
Qed.

Lemma scaled_pos (m : positive) (e : Z) : -1074 <= e -> 0 < Zpos m * 2 ^ (e + 1074).
Proof. intros. pose proof (pow2_pos (k := e + 1074)). nia. Qed.

Lemma SFcompare_scaled (x y : spec_float) :
  valid_binary x = true -> valid_binary y = true ->
  SFfinite x = true -> SFfinite y = true ->
  SFcompare x y = Some (SFscaled x ?= SFscaled y).
Proof.
  destruct x as [sx|sx| |sx mx ex], y as [sy|sy| |sy my ey]; try discriminate;
    cbn [valid_binary SFfinite SFscaled]; intros Vx Vy _ _.
  - reflexivity.
  - apply bounded_canonical in Vy. destruct (canonical_bounds Vy) as ([? ?] & _).
    pose proof (scaled_pos my (e := ey) ltac:(lia)).
    destruct sy; cbn [SFcompare cond_Zopp]; f_equal; symmetry.
    + apply Z.compare_gt_iff. lia.
    + apply Z.compare_lt_iff. lia.
  - apply bounded_canonical in Vx. destruct (canonical_bounds Vx) as ([? ?] & _).
    pose proof (scaled_pos mx (e := ex) ltac:(lia)).
    destruct sx; cbn [SFcompare cond_Zopp]; f_equal; symmetry.
    + apply Z.compare_lt_iff. lia.
    + apply Z.compare_gt_iff. lia.
  - apply bounded_canonical in Vx, Vy.
    destruct (canonical_bounds Vx) as ([? ?] & _).
    destruct (canonical_bounds Vy) as ([? ?] & _).
    pose proof (scaled_pos mx (e := ex) ltac:(lia)).
    pose proof (scaled_pos my (e := ey) ltac:(lia)).
    cbn [SFcompare]. f_equal.
    destruct sx, sy; cbn [cond_Zopp].
    + rewrite Z.compare_opp.
      destruct (Z.compare_spec ex ey) as [E|L|G].
      * subst ey. change (Pos.compare_cont Eq mx my) with (mx ?= my)%positive.
        rewrite <- Pos.compare_antisym, Pos2Z.inj_compare.
        apply Zmult_compare_compat_r. apply Z.lt_gt, pow2_pos; lia.
      * symmetry. apply Z.compare_gt_iff. now apply canonical_lt.
      * symmetry. apply Z.compare_lt_iff. now apply canonical_lt.
    + symmetry. apply Z.compare_lt_iff. lia.
    + symmetry. apply Z.compare_gt_iff. lia.
    + destruct (Z.compare_spec ex ey) as [E|L|G].
      * subst ey. change (Pos.compare_cont Eq mx my) with (mx ?= my)%positive.
        rewrite Pos2Z.inj_compare.
        apply Zmult_compare_compat_r. apply Z.lt_gt, pow2_pos; lia.
      * symmetry. apply Z.compare_lt_iff. now apply canonical_lt.
      * symmetry. apply Z.compare_gt_iff. now apply canonical_lt.
Qed.


Lemma scaled_SF (x : number) : scaled x = SFscaled (Prim2SF x).
Proof. reflexivity. Qed.

Lemma finite_SF (x : number) : not_finite x = false -> SFfinite (Prim2SF x) = true.
Proof. rewrite not_finite_spec. now destruct (Prim2SF x). Qed.

Lemma compare_scaled (x y : number) :
  not_finite x = false -> not_finite y = false ->
  SFcompare (Prim2SF x) (Prim2SF y) = Some (scaled x ?= scaled y).
Proof.
  intros Hx Hy. rewrite !scaled_SF.
  apply SFcompare_scaled; auto using Prim2SF_valid, finite_SF.
Qed.

Lemma leb_scaled (x y : number) :
  not_finite x = false -> not_finite y = false ->
  (x <=? y)%float = (scaled x <=? scaled y).
Proof.
  intros Hx Hy. rewrite leb_spec. unfold SFleb. rewrite compare_scaled by assumption.
  unfold Z.leb. now destruct (scaled x ?= scaled y).
Qed.

Lemma ltb_scaled (x y : number) :
  not_finite x = false -> not_finite y = false ->
  (x <? y)%float = (scaled x <? scaled y).
Proof.
  intros Hx Hy. rewrite ltb_spec. unfold SFltb. rewrite compare_scaled by assumption.
  unfold Z.ltb. now destruct (scaled x ?= scaled y).
Qed.

Lemma eqb_scaled (x y : number) :
  not_finite x = false -> not_finite y = false ->
  (x =? y)%float = (scaled x =? scaled y).
Proof.
  intros Hx Hy. rewrite FloatAxioms.eqb_spec. unfold SFeqb.
  rewrite compare_scaled by assumption.
  rewrite Z.eqb_compare. now destruct (scaled x ?= scaled y).
Qed.

Lemma canonical_unique (m1 m2 : positive) (e1 e2 : Z) :
  canonical m1 e1 -> canonical m2 e2 ->
  Zpos m1 * 2 ^ (e1 + 1074) = Zpos m2 * 2 ^ (e2 + 1074) ->
  m1 = m2 /\ e1 = e2.
Proof.
  intros H1 H2 E.
  destruct (Z.lt_trichotomy e1 e2) as [L|[Q|G]].
  - pose proof (canonical_lt H1 H2 L). lia.
  - subst e2. split; [|reflexivity].
    destruct (canonical_bounds H1) as ([? ?] & _).
    pose proof (pow2_pos (k := e1 + 1074) ltac:(lia)).
    apply Z.mul_reg_r in E; [congruence | lia].
  - pose proof (canonical_lt H2 H1 G). lia.
Qed.

(** A finite number is determined by its sign and its value. *)
Lemma SF_finite_unique (s1 s2 : bool) (m1 m2 : positive) (e1 e2 : Z) :
  canonical m1 e1 -> canonical m2 e2 ->
  SFscaled (S754_finite s1 m1 e1) = SFscaled (S754_finite s2 m2 e2) ->
  S754_finite s1 m1 e1 = S754_finite s2 m2 e2.
Proof.
  intros H1 H2 E. cbn [SFscaled] in E.
  destruct (canonical_bounds H1) as ([? ?] & _).
  destruct (canonical_bounds H2) as ([? ?] & _).
  pose proof (scaled_pos m1 (e := e1) ltac:(lia)).
  pose proof (scaled_pos m2 (e := e2) ltac:(lia)).
  destruct s1, s2; cbn [cond_Zopp] in E; try lia;
    destruct (@canonical_unique m1 m2 e1 e2) as [-> ->]; auto; lia.
Qed.

(** ** Exact sums *)

Lemma shl_align_fst (m : positive) (e e' : Z) :
  e' <= e -> Zpos (fst (shl_align m e e')) = Zpos m * 2 ^ (e - e').
Proof.
  intros H. unfold shl_align. destruct (e' - e) as [|d|d] eqn:E; try lia; cbn [fst].
  - replace (e - e') with 0 by lia. cbn. lia.
  - rewrite iter_xO_pow. do 2 f_equal. lia.
Qed.

Lemma SFadd_exact (sx sy : bool) (mx my : positive) (ex ey : Z) (z : spec_float) :
  canonical mx ex -> canonical my ey ->
  valid_binary z = true ->
  SFscaled z = SFscaled (S754_finite sx mx ex) + SFscaled (S754_finite sy my ey) ->
  match z with
  | S754_zero s => s = false
  | S754_finite _ _ _ => True
  | _ => False
  end ->
  SF64add (S754_finite sx mx ex) (S754_finite sy my ey) = z.
Proof.
  intros Hx Hy Vz Hsum Hz.
  destruct (canonical_bounds Hx) as ([? ?] & _).
  destruct (canonical_bounds Hy) as ([? ?] & _).
  unfold SF64add, SFadd.
  set (ez := Z.min ex ey).
  rewrite !shl_align_fst by (unfold ez; lia).
  set (S := cond_Zopp sx (Zpos mx * 2 ^ (ex - ez)) + cond_Zopp sy (Zpos my * 2 ^ (ey - ez))).
  assert (HS : S * 2 ^ (ez + 1074) = SFscaled z).
  { rewrite Hsum. cbn [SFscaled]. unfold S.
    rewrite (@pow2_split ez ex), (@pow2_split ez ey) by (unfold ez; lia).
    destruct sx, sy; cbn [cond_Zopp]; ring. }
  pose proof (pow2_pos (k := ez + 1074) ltac:(unfold ez; lia)) as Hpow.
  destruct z as [sz|sz| |sz mz ez']; try contradiction.
  - subst sz. cbn [SFscaled] in HS.
    assert (S = 0) as -> by nia. reflexivity.
  - cbn [valid_binary] in Vz. apply bounded_canonical in Vz.
    destruct (canonical_bounds Vz) as ([? ?] & _).
    pose proof (scaled_pos mz (e := ez') ltac:(lia)).
    cbn [SFscaled] in HS.
    destruct S as [|p|p] eqn:ES; cbn [binary_normalize].
    + destruct sz; cbn [cond_Zopp] in HS; lia.
    + destruct sz; cbn [cond_Zopp] in HS; [lia|].
      apply binary_round_repr; auto. unfold ez; lia.
    + destruct sz; cbn [cond_Zopp] in HS; [|lia].
      apply binary_round_repr; auto. unfold ez; lia. lia.
Qed.


(** ** Integers as numbers *)

Lemma canonical_of_integer (N : positive) :
  Zpos N <= 2 ^ 53 ->
  exists m e, canonical m e /\ Zpos m * 2 ^ (e + 1074) = Zpos N * 2 ^ 1074.
Proof.
  intros HN. pose proof (digits2_pos_bounds N) as [Blo Bhi].
  set (d := Zpos (digits2_pos N)) in *.
  assert (1 <= d) by (unfold d; lia).
  destruct (Z_le_gt_dec d 53) as [Hd|Hd].
  - pose proof (pow2_pos (k := 53 - d) ltac:(lia)) as Hp.
    assert (Em : Zpos (Z.to_pos (Zpos N * 2 ^ (53 - d))) = Zpos N * 2 ^ (53 - d))
      by (apply Z2Pos.id; nia).
    exists (Z.to_pos (Zpos N * 2 ^ (53 - d))), (d - 53). split.
    + pose proof (digits2_pos_shift N (k := 53 - d) ltac:(lia) Em) as HD.
      fold d in HD. unfold canonical. rewrite HD. lia.
    + rewrite Em, <- Z.mul_assoc, <- Z.pow_add_r by lia. do 2 f_equal. lia.
  - assert (d - 1 <= 53).
    { apply (Z.pow_le_mono_r_iff 2); lia. }
    assert (d = 54) by lia.
    assert (Zpos N = 2 ^ 53) by (replace (d - 1) with 53 in Blo by lia; lia).
    exists 4503599627370496%positive, 1. split.
    + apply bounded_canonical. reflexivity.
    + rewrite H2. reflexivity.
Qed.

Lemma Z2F_SF (n : Z) :
  n <> 0 -> Z.abs n <= 2 ^ 53 ->
  exists m e, canonical m e /\
              Prim2SF (Z2F n) = S754_finite (n <? 0) m e /\
              Zpos m * 2 ^ (e + 1074) = Z.abs n * 2 ^ 1074.
Proof.
  intros Hn Hb. unfold Z2F.
  destruct n as [|p|p]; try congruence; cbn [binary_normalize Z.abs] in *;
    destruct (canonical_of_integer (N := p) Hb) as (m & e & Hc & Hv);
    exists m, e; (split; [assumption|]); (split; [|assumption]).
  - rewrite (@binary_round_repr false p m 0 e); auto; try lia.
    apply Prim2SF_SF2Prim. now apply bounded_canonical.
  - rewrite (@binary_round_repr true p m 0 e); auto; try lia.
    apply Prim2SF_SF2Prim. now apply bounded_canonical.
Qed.

Lemma scaled_Z2F (n : Z) :
  Z.abs n <= 2 ^ 53 -> scaled (Z2F n) = n * 2 ^ 1074.
Proof.
  intros Hb. destruct (Z.eq_dec n 0) as [->|Hn]; [reflexivity|].
  destruct (Z2F_SF Hn Hb) as (m & e & Hc & E & Hv).
  unfold scaled, SFscaled. rewrite E.
  destruct (Z.ltb_spec n 0); cbn [cond_Zopp]; rewrite Hv; lia.
Qed.

Lemma finite_Z2F (n : Z) :
  Z.abs n <= 2 ^ 53 -> not_finite (Z2F n) = false.
Proof.
  intros Hb. rewrite not_finite_spec.
  destruct (Z.eq_dec n 0) as [->|Hn]; [reflexivity|].
  destruct (Z2F_SF Hn Hb) as (m & e & Hc & E & Hv). now rewrite E.
Qed.

Lemma is_integer_Z2F (n : Z) : Z.abs n <= 2 ^ 53 -> is_integer (Z2F n) n.
Proof. split; auto using finite_Z2F, scaled_Z2F. Qed.

Lemma pow2_1074_pos : 0 < 2 ^ 1074.
Proof. now apply pow2_pos. Qed.

(** Incrementing an integer below [2^53] in magnitude is exact. *)
Lemma add_one_exact (x : number) (n : Z) :
  is_integer x n -> - 2 ^ 53 <= n < 2 ^ 53 ->
  (x + 1)%float = Z2F (n + 1).
Proof.
  intros [Hf Hs] Hn. apply Prim2SF_inj. rewrite add_spec.
  rewrite not_finite_spec in Hf. unfold scaled, SFscaled in Hs.
  pose proof (Prim2SF_valid x) as Vx.
  change (Prim2SF 1) with (S754_finite false 4503599627370496 (-52)).
  pose proof pow2_1074_pos as HK.
  destruct (Prim2SF x) as [s|s| |s m e]; try discriminate.
  - assert (n = 0) as -> by nia. reflexivity.
  - cbn [valid_binary] in Vx. apply bounded_canonical in Vx.
    assert (V1 : canonical 4503599627370496 (-52)) by (apply bounded_canonical; reflexivity).
    assert (H1 : SFscaled (S754_finite false 4503599627370496 (-52)) = 2 ^ 1074)
      by reflexivity.
    destruct (Z.eq_dec (n + 1) 0) as [E0|N0].
    + rewrite E0. change (Prim2SF (Z2F 0)) with (S754_zero false).
      apply SFadd_exact; auto.
      rewrite H1. cbn [SFscaled]. rewrite Hs. lia.
    + destruct (@Z2F_SF (n + 1) N0 ltac:(lia)) as (m' & e' & Hc' & E' & Hv').
      rewrite E'. apply SFadd_exact; auto.
      * now apply bounded_canonical.
      * rewrite H1. cbn [SFscaled]. rewrite Hs.
        destruct (Z.ltb_spec (n + 1) 0); cbn [cond_Zopp]; rewrite Hv'; lia.
Qed.

(** ** Floor *)

Lemma cond_Zopp_mul (s : bool) (a b : Z) : cond_Zopp s (a * b) = cond_Zopp s a * b.
Proof. destruct s; cbn; lia. Qed.

Lemma floorZ_scaled (x : number) : floorZ x = scaled x / 2 ^ 1074.
Proof.
  unfold floorZ, scaled, SFscaled. pose proof (Prim2SF_valid x) as Vx.
  destruct (Prim2SF x) as [s|s| |s m e]; try reflexivity.
  cbn [valid_binary] in Vx. apply bounded_canonical in Vx.
  destruct (canonical_bounds Vx) as ([? ?] & _).
  rewrite cond_Zopp_mul.
  destruct (Z_le_gt_dec 0 e).
  - rewrite Z.shiftl_mul_pow2 by lia.
    rewrite Z.pow_add_r, Z.mul_assoc by lia.
    rewrite Z.div_mul; [reflexivity | pose proof pow2_1074_pos; lia].
  - rewrite <- (Z.opp_involutive e) at 1. rewrite Z.shiftl_opp_r.
    rewrite Z.shiftr_div_pow2 by lia.
    replace (2 ^ 1074) with (2 ^ (- e) * 2 ^ (e + 1074))
      by (rewrite <- Z.pow_add_r by lia; f_equal; lia).
    rewrite Z.div_mul_cancel_r; auto.
    + pose proof (pow2_pos (k := - e)); lia.
    + pose proof (pow2_pos (k := e + 1074)); lia.
Qed.

Lemma floor_is_integer (x : number) :
  not_finite x = false -> is_integer (Math.floor x) (floorZ x).
Proof.
  intros Hf. pose proof (floorZ_scaled x) as HZ.
  unfold Math.floor. unfold floorZ in *. unfold scaled, SFscaled in HZ.
  pose proof (Prim2SF_valid x) as Vx.
  rewrite not_finite_spec in Hf.
  destruct (Prim2SF x) as [s|s| |s m e] eqn:Ex; try discriminate.
  - split; [rewrite not_finite_spec; now rewrite Ex|].
    unfold scaled, SFscaled. now rewrite Ex.
  - cbn [valid_binary] in Vx. apply bounded_canonical in Vx.
    destruct (canonical_bounds Vx) as ([? ?] & Hm & _).
    destruct (Z.leb_spec 0 e).
    + split; [rewrite not_finite_spec; now rewrite Ex|].
      unfold scaled, SFscaled. rewrite Ex, cond_Zopp_mul.
      rewrite Z.shiftl_mul_pow2 by lia.
      rewrite Z.pow_add_r by lia. ring.
    + apply is_integer_Z2F.
      rewrite <- (Z.opp_involutive e). rewrite Z.shiftl_opp_r.
      rewrite Z.shiftr_div_pow2 by lia.
      pose proof (pow2_pos (k := - e) ltac:(lia)) as Hp.
      destruct s; cbn [cond_Zopp].
      * assert (- Zpos m <= - Zpos m / 2 ^ (- e)) by (apply Z.div_le_lower_bound; nia).
        assert (- Zpos m / 2 ^ (- e) < 0) by (apply Z.div_lt_upper_bound; nia).
        lia.
      * assert (0 <= Zpos m / 2 ^ (- e)) by (apply Z.div_pos; lia).
        assert (Zpos m / 2 ^ (- e) <= Zpos m) by (apply Z.div_le_upper_bound; nia).
        lia.
Qed.


(** ** Adding to zero and dividing by one *)

Lemma add_zero_l_SF (x : number) :
  Prim2SF (0 + x)%float =
  match Prim2SF x with
  | S754_zero _ => S754_zero false
  | y => y
  end.
Proof.
  rewrite add_spec. change (Prim2SF 0) with (S754_zero false).
  destruct (Prim2SF x) as [[|]|s| |s m e]; reflexivity.
Qed.

Lemma div_eucl_exact (a b : Z) : 0 < b -> Z.div_eucl (a * b) b = (a, 0).
Proof.
  intros Hb. generalize (Z_div_mod (a * b) b ltac:(lia)).
  destruct (Z.div_eucl (a * b) b) as [q r]. intros [Heq Hr].
  assert (q = a) by nia. subst q. f_equal. lia.
Qed.

Lemma SFdiv_one (s : bool) (m : positive) (e : Z) :
  canonical m e ->
  SF64div (S754_finite s m e) (S754_finite false 4503599627370496 (-52)) =
  S754_finite s m e.
Proof.
  intros Hc. pose proof Hc as [Hmax He].
  destruct (canonical_bounds Hc) as ([? ?] & _).
  unfold SF64div, SFdiv, SFdiv_core_binary. cbn [Zdigits2].
  change (Zpos (digits2_pos 4503599627370496)) with 53.
  set (d := Zpos (digits2_pos m)) in *.
  set (e0 := Z.max (d + e - 54) (-1074)).
  replace (Z.min (fexp prec emax (d + e - (53 + -52))) (e - -52)) with e0
    by (unfold e0, fexp, SpecFloat.emin, prec, emax; lia).
  assert (Hk : 0 <= e - e0 <= 1) by (unfold e0; lia).
  replace (e - -52 - e0) with (52 + (e - e0)) by lia.
  destruct (52 + (e - e0)) as [|p|p] eqn:Es; try lia.
  rewrite Z.shiftl_mul_pow2, <- Es by lia.
  replace (Zpos m * 2 ^ (52 + (e - e0)))
    with (Zpos m * 2 ^ (e - e0) * 4503599627370496)
    by (rewrite Z.pow_add_r by lia; change (2 ^ 52) with 4503599627370496; ring).
  rewrite div_eucl_exact by reflexivity.
  change (new_location 4503599627370496 0) with loc_Exact.
  replace (xorb s false) with s by now destruct s.
  replace e0 with (e - (e - e0)) at 2 by lia.
  apply binary_round_aux_exact; [assumption | lia].
Qed.

Lemma div_one (x : number) : (x / 1)%float = x.
Proof.
  apply Prim2SF_inj. rewrite div_spec.
  change (Prim2SF 1) with (S754_finite false 4503599627370496 (-52)).
  pose proof (Prim2SF_valid x) as Vx.
  destruct (Prim2SF x) as [s|s| |s m e]; try reflexivity.
  - now destruct s.
  - now destruct s.
  - apply SFdiv_one. now apply bounded_canonical.
Qed.

Lemma Prim2SF_zero_cases (x : number) (s : bool) :
  Prim2SF x = S754_zero s -> x = (if s then (-0)%float else 0%float).
Proof.
  intros E. apply Prim2SF_inj. rewrite E. now destruct s.
Qed.

(** [0 + x] is [x], except that [0 + (-0)] is [+0]. *)
Lemma add_zero_l (x : number) :
  (0 + x)%float = (if Math.is_neg_zero x then 0%float else x).
Proof.
  apply Prim2SF_inj. rewrite add_zero_l_SF.
  destruct (Prim2SF x) as [s|s| |s m e] eqn:E.
  - apply Prim2SF_zero_cases in E. subst x. now destruct s.
  - assert (Math.is_neg_zero x = false) as ->; [|now rewrite E].
    unfold Math.is_neg_zero, is_zero. rewrite FloatAxioms.eqb_spec, E. now destruct s.
  - assert (Math.is_neg_zero x = false) as ->; [|now rewrite E].
    unfold Math.is_neg_zero, is_zero. now rewrite FloatAxioms.eqb_spec, E.
  - assert (Math.is_neg_zero x = false) as ->; [|now rewrite E].
    unfold Math.is_neg_zero, is_zero. rewrite FloatAxioms.eqb_spec, E. now destruct s.
Qed.

Lemma eqb_refl_not_nan (x : number) : is_nan x = false -> (x =? x)%float = true.
Proof. unfold is_nan. now destruct (x =? x)%float. Qed.

Lemma add_zero_l_eqb (x : number) : is_nan x = false -> (0 + x =? x)%float = true.
Proof.
  intros Hn. rewrite add_zero_l. unfold Math.is_neg_zero.
  destruct (is_zero x) eqn:Ez; cbn [andb]; [|now apply eqb_refl_not_nan].
  destruct (get_sign x); [|now apply eqb_refl_not_nan].
  unfold is_zero in Ez. rewrite FloatAxioms.eqb_spec in *.
  change (Prim2SF 0) with (S754_zero false) in *.
  destruct (Prim2SF x) as [s|s| |s m e]; try discriminate; try reflexivity.
  all: now destruct s.
Qed.

End Binary64.

(** ** Mat4 *)

(** The factor of the source is the documented one. *)
Lemma DEG_TO_RAD_documented : DEG_TO_RAD = radians_per_degree.
Proof. reflexivity. Qed.

(** C1.  [Mat4.perspective] returns a new array holding exactly the
    documented row-major matrix, for all parameters and so for a field of
    view strictly between 0 and 180 degrees, positive width, height and
    near distance, and a far distance beyond the near one.  The field of
    view is halved and converted to radians by the factor
    [radians_per_degree], whose exact value is [π / 180] to sixteen
    digits: 180 times it lies between 3.141592653589793 and
    3.141592653589794. *)
Theorem perspective_documented_matrix (H : Math.impl) (h : heap)
    (fovy width height near far : number) :
  Mat4.perspective H (Build_PerspectiveParams fovy width height near far) h =
    Ok (next h) (extend h (perspective_spec H fovy width height near far)) /\
  exact_value_between radians_per_degree
    3141592653589793 3141592653589794 (180 * 10 ^ 15).
Proof.
  split.
  - unfold Mat4.perspective, Mat4, perspective_spec, radians, alloc, bind, ret.
    now rewrite DEG_TO_RAD_documented.
  - split; [reflexivity|]. vm_compute. split; reflexivity.
Qed.

Lemma transformPoint_run (h : heap) (m P : ref) :
  let '(X, Y, Z) := transformPoint_spec (cells h m) (arr_get (cells h P) 0)
                      (arr_get (cells h P) 1) (arr_get (cells h P) 2) in
  Mat4.transformPoint m P h = Ok (next h) (extend h [X; Y; Z]).
Proof. reflexivity. Qed.

(** C2.  For every matrix [M] and point [P = (x, y, z)],
    [Mat4.transformPoint] returns a new vector whose components are the
    first three rows of [M] applied to [(x, y, z, 1)], each divided by
    the weight [w = M[12]*x + M[13]*y + M[14]*z + M[15]].  The division is
    not guarded and nothing is thrown: when [w] is zero every component of
    the result is NaN or an infinity. *)
Theorem transformPoint_homogeneous_divide (h : heap) (m P : ref) :
  let x := arr_get (cells h P) 0 in
  let y := arr_get (cells h P) 1 in
  let z := arr_get (cells h P) 2 in
  let M i := arr_get (cells h m) i in
  let w := M 12%nat * x + M 13%nat * y + M 14%nat * z + M 15%nat in
  let X := (M 0%nat * x + M 1%nat * y + M 2%nat * z + M 3%nat) / w in
  let Y := (M 4%nat * x + M 5%nat * y + M 6%nat * z + M 7%nat) / w in
  let Z := (M 8%nat * x + M 9%nat * y + M 10%nat * z + M 11%nat) / w in
  transformPoint_spec (cells h m) x y z = (X, Y, Z) /\
  weight (cells h m) x y z = w /\
  Mat4.transformPoint m P h = Ok (next h) (extend h [X; Y; Z]) /\
  vec3_of (extend h [X; Y; Z]) (next h) = (X, Y, Z) /\
  ((w =? 0) = true ->
   not_finite X = true /\ not_finite Y = true /\ not_finite Z = true).
Proof.
  cbv zeta. split; [reflexivity|]. split; [reflexivity|].
  split; [apply transformPoint_run|].
  split; [unfold vec3_of; now rewrite cells_extend_new|].
  intros Hw. repeat split; now apply div_by_zero_not_finite.
Qed.

(** ** Box2 *)

(** C6.  [Box2.containsInEx(B, P)] returns [true] exactly when
    [B.P0.x <= P.x < B.P1.x] and [B.P0.y <= P.y < B.P1.y], and leaves the
    store as it is; for finite coordinates these comparisons are the
    order of the values.  On the box [[(0,0),(1,1)]] the point [(0,0)] is
    contained and the point [(1,1)] is not. *)
Theorem containsInEx_half_open (h : heap) (B : Box2) (P : ref) :
  let x0 := arr_get (cells h (P0 B)) 0 in
  let y0 := arr_get (cells h (P0 B)) 1 in
  let x1 := arr_get (cells h (P1 B)) 0 in
  let y1 := arr_get (cells h (P1 B)) 1 in
  let x := arr_get (cells h P) 0 in
  let y := arr_get (cells h P) 1 in
  (exists b, Box2.containsInEx B P h = Ok b h /\
     (b = true <-> (x0 <=? x) = true /\ (x <? x1) = true /\
                   (y0 <=? y) = true /\ (y <? y1) = true) /\
     (not_finite x0 = false /\ not_finite y0 = false /\
      not_finite x1 = false /\ not_finite y1 = false /\
      not_finite x = false /\ not_finite y = false ->
      (b = true <-> (scaled x0 <= scaled x < scaled x1)%Z /\
                    (scaled y0 <= scaled y < scaled y1)%Z))) /\
  Box2.containsInEx unit_box 2 unit_box_heap = Ok true unit_box_heap /\
  Box2.containsInEx unit_box 3 unit_box_heap = Ok false unit_box_heap.
Proof.
  cbv zeta. split; [|split; reflexivity].
  set (x0 := arr_get (cells h (P0 B)) 0). set (y0 := arr_get (cells h (P0 B)) 1).
  set (x1 := arr_get (cells h (P1 B)) 0). set (y1 := arr_get (cells h (P1 B)) 1).
  set (x := arr_get (cells h P) 0). set (y := arr_get (cells h P) 1).
  assert (E : Box2.containsInEx B P h =
              Ok ((x0 <=? x) && ((x <? x1) && ((y0 <=? y) && (y <? y1)))) h).
  { subst x0 y0 x1 y1 x y. cbv [Box2.containsInEx bind get Box2.and_then ret].
    repeat (match goal with
            | |- context [if ?c then _ else _] => destruct c
            end; cbv beta);
      reflexivity. }
  eexists. split; [exact E|]. rewrite !andb_true_iff. split; [tauto|].
  intros (F1 & F2 & F3 & F4 & F5 & F6).
  rewrite !leb_scaled, !ltb_scaled by assumption.
  rewrite !Z.leb_le, !Z.ltb_lt. tauto.
Qed.

(** ** Box2.integerPoints *)

Section Loop.

Variables (x1 y0 y1 : number) (P : ref).

Lemma collect_inner_true (fuel : nat) (x y : number) (h : heap) :
  (y <=? y1)%float = true ->
  exists h',
    Box2.collect (S (S fuel)) (Box2.InnerTest x y x1 y0 y1 P) h =
    option_map (cons (x, y)) (Box2.collect fuel (Box2.InnerTest x (y + 1) x1 y0 y1 P) h').
Proof.
  intros Ht. eexists. cbn [Box2.collect Box2.step]. rewrite Ht.
  unfold bind, set, ret. rewrite !cells_write_same.
  rewrite arr_get_set_same, arr_get_set_other, arr_get_set_same by lia.
  destruct fuel; reflexivity.
Qed.

Lemma collect_inner_false (fuel : nat) (x y : number) (h : heap) :
  (y <=? y1)%float = false ->
  Box2.collect (S fuel) (Box2.InnerTest x y x1 y0 y1 P) h =
  Box2.collect fuel (Box2.OuterTest (x + 1) x1 y0 y1 P) h.
Proof. intros Ht. cbn [Box2.collect Box2.step]. now rewrite Ht. Qed.

Lemma collect_outer_true (fuel : nat) (x : number) (h : heap) :
  (x <=? x1)%float = true ->
  Box2.collect (S fuel) (Box2.OuterTest x x1 y0 y1 P) h =
  Box2.collect fuel (Box2.InnerTest x (Math.floor y0) x1 y0 y1 P) h.
Proof. intros Ht. cbn [Box2.collect Box2.step]. now rewrite Ht. Qed.

Lemma collect_outer_false (fuel : nat) (x : number) (h : heap) :
  (x <=? x1)%float = false ->
  Box2.collect (S (S fuel)) (Box2.OuterTest x x1 y0 y1 P) h = Some [].
Proof. intros Ht. cbn [Box2.collect Box2.step]. now rewrite Ht. Qed.

End Loop.

Lemma collect_created (fuel : nat) (B : Box2) (h : heap) :
  exists h',
    Box2.collect (S fuel) (Box2.integerPoints B) h =
    Box2.collect fuel
      (Box2.OuterTest (Math.floor (arr_get (cells h (P0 B)) 0))
                      (arr_get (cells h (P1 B)) 0)
                      (arr_get (cells h (P0 B)) 1)
                      (arr_get (cells h (P1 B)) 1) (next h)) h'.
Proof. eexists. reflexivity. Qed.

Section Lattice.

Local Open Scope Z_scope.

Lemma leb_integer (x y : number) (n : Z) :
  is_integer x n -> not_finite y = false ->
  (x <=? y)%float = (n <=? floorZ y).
Proof.
  intros [Hf Hs] Hy. rewrite leb_scaled, Hs, floorZ_scaled by assumption.
  pose proof pow2_1074_pos as HK.
  destruct (Z.leb_spec (n * 2 ^ 1074) (scaled y)) as [L|L];
    destruct (Z.leb_spec n (scaled y / 2 ^ 1074)) as [L'|L']; auto.
  - assert (n <= scaled y / 2 ^ 1074) by (apply Z.div_le_lower_bound; lia). lia.
  - assert (n * 2 ^ 1074 <= scaled y); [|lia].
    rewrite Z.mul_comm.
    apply Z.le_trans with (2 ^ 1074 * (scaled y / 2 ^ 1074)).
    + apply Z.mul_le_mono_nonneg_l; lia.
    + apply Z.mul_div_le. lia.
Qed.

Section Inner.

Variables (x x1 y0 y1 : number) (P : ref).
Hypothesis y1_finite : not_finite y1 = false.
Hypothesis y1_small : floorZ y1 < 2 ^ 53.

Lemma inner_loop (k : nat) :
  forall (y : number) (j : Z) (h : heap) (fuel : nat),
    is_integer y j -> - 2 ^ 53 <= j ->
    Z.of_nat k = Z.max 0 (floorZ y1 + 1 - j) ->
    exists L h',
      Box2.collect (2 * k + 1 + fuel) (Box2.InnerTest x y x1 y0 y1 P) h =
      option_map (app L) (Box2.collect fuel (Box2.OuterTest (x + 1) x1 y0 y1 P) h') /\
      Forall2 (fun p j' => fst p = x /\ is_integer (snd p) j') L (Zupto j k).
Proof.
  induction k as [|k IH]; intros y j h fuel Hy Hj Hk.
  - exists [], h. split; [|constructor].
    cbn [Nat.mul Nat.add]. rewrite collect_inner_false.
    + now destruct (Box2.collect fuel _ h).
    + rewrite (@leb_integer y y1 j Hy y1_finite). apply Z.leb_gt. lia.
  - assert (Hle : j <= floorZ y1) by lia.
    assert (Ht : (y <=? y1)%float = true).
    { rewrite (@leb_integer y y1 j Hy y1_finite). apply Z.leb_le. lia. }
    replace (2 * S k + 1 + fuel)%nat with (S (S (2 * k + 1 + fuel))) by lia.
    destruct (@collect_inner_true x1 y0 y1 P (2 * k + 1 + fuel) x y h Ht) as [h1 E1].
    rewrite E1.
    assert (Hy' : is_integer (y + 1)%float (j + 1)).
    { rewrite (@add_one_exact y j) by (auto; lia). apply is_integer_Z2F. lia. }
    destruct (IH (y + 1)%float (j + 1) h1 fuel Hy' ltac:(lia) ltac:(lia))
      as (L & h2 & E2 & F2).
    exists ((x, y) :: L), h2. split.
    + rewrite E2. now destruct (Box2.collect fuel _ h2).
    + cbn [Zupto]. constructor; auto.
Qed.

End Inner.

Lemma le_floorZ (n : Z) (y : number) :
  n <= floorZ y <-> n * 2 ^ 1074 <= scaled y.
Proof.
  rewrite floorZ_scaled. pose proof pow2_1074_pos as HK. split; intros L.
  - rewrite Z.mul_comm.
    apply Z.le_trans with (2 ^ 1074 * (scaled y / 2 ^ 1074)).
    + apply Z.mul_le_mono_nonneg_l; lia.
    + apply Z.mul_div_le. lia.
  - apply Z.div_le_lower_bound; lia.
Qed.

Lemma In_Zupto (z a : Z) (k : nat) : In z (Zupto a k) <-> a <= z < a + Z.of_nat k.
Proof.
  revert a. induction k as [|k IH]; intros a; cbn [Zupto In].
  - lia.
  - rewrite IH. lia.
Qed.

Lemma In_Zinterval (z a b : Z) : In z (Zinterval a b) <-> a <= z <= b.
Proof. unfold Zinterval. rewrite In_Zupto. lia. Qed.

Lemma In_lattice (a b c d i j : Z) :
  In (i, j) (lattice a b c d) <-> (a <= i <= b) /\ (c <= j <= d).
Proof.
  unfold lattice. rewrite in_flat_map. split.
  - intros (i' & Hi & Hj). apply in_map_iff in Hj as (j' & E & Hj).
    inversion E; subst. now rewrite In_Zinterval in *.
  - intros [Hi Hj]. exists i. rewrite In_Zinterval. split; [assumption|].
    apply in_map_iff. exists j. now rewrite In_Zinterval.
Qed.

Section Outer.

Variables (x1 y0 y1 : number) (P : ref).
Hypothesis x1_finite : not_finite x1 = false.
Hypothesis x1_small : floorZ x1 < 2 ^ 53.
Hypothesis y0_finite : not_finite y0 = false.
Hypothesis y0_large : - 2 ^ 53 <= floorZ y0.
Hypothesis y1_finite : not_finite y1 = false.
Hypothesis y1_small : floorZ y1 < 2 ^ 53.

Let ky : nat := Z.to_nat (floorZ y1 + 1 - floorZ y0).

Lemma column_points (x : number) (i : Z) (L : list (number * number)) (js : list Z) :
  is_integer x i ->
  Forall2 (fun p j' => fst p = x /\ is_integer (snd p) j') L js ->
  Forall2 is_point L (map (fun j => (i, j)) js).
Proof.
  intros Hx F. induction F as [|p j' L js [E Hj] F IH]; cbn [map]; constructor; auto.
  split; cbn [fst snd]; [now rewrite E | assumption].
Qed.

Lemma outer_loop (k : nat) :
  forall (x : number) (i : Z) (h : heap) (fuel : nat),
    is_integer x i -> - 2 ^ 53 <= i ->
    Z.of_nat k = Z.max 0 (floorZ x1 + 1 - i) ->
    exists L,
      Box2.collect (k * (2 * ky + 2) + 2 + fuel) (Box2.OuterTest x x1 y0 y1 P) h = Some L /\
      Forall2 is_point L
        (flat_map (fun i' => map (fun j => (i', j)) (Zupto (floorZ y0) ky)) (Zupto i k)).
Proof.
  induction k as [|k IH]; intros x i h fuel Hx Hi Hk.
  - exists []. split; [|constructor].
    cbn [Nat.mul Nat.add]. apply collect_outer_false.
    rewrite (@leb_integer x x1 i Hx x1_finite). apply Z.leb_gt. lia.
  - assert (Ht : (x <=? x1)%float = true).
    { rewrite (@leb_integer x x1 i Hx x1_finite). apply Z.leb_le. lia. }
    replace (S k * (2 * ky + 2) + 2 + fuel)%nat
      with (S (2 * ky + 1 + (k * (2 * ky + 2) + 2 + fuel))) by lia.
    rewrite collect_outer_true by assumption.
    destruct (@inner_loop x x1 y0 y1 P y1_finite y1_small ky (Math.floor y0) (floorZ y0) h
                (k * (2 * ky + 2) + 2 + fuel)%nat)
      as (Lin & h1 & E1 & F1).
    { now apply floor_is_integer. }
    { assumption. }
    { unfold ky. lia. }
    assert (Hx' : is_integer (x + 1)%float (i + 1)).
    { rewrite (@add_one_exact x i) by (auto; lia). apply is_integer_Z2F. lia. }
    destruct (IH (x + 1)%float (i + 1) h1 fuel Hx' ltac:(lia) ltac:(lia))
      as (Lout & E2 & F2).
    exists (Lin ++ Lout). split.
    + rewrite E1, E2. reflexivity.
    + cbn [Zupto flat_map]. apply Forall2_app; [|assumption].
      now apply column_points with (x := x).
Qed.

End Outer.

Lemma scaled_bound_low (x : number) :
  not_finite x = false -> (-0x1p53 <=? x)%float = true -> - 2 ^ 53 <= floorZ x.
Proof.
  intros Hf Hb. rewrite leb_scaled in Hb by (auto; reflexivity).
  apply Z.leb_le in Hb. apply le_floorZ.
  change (scaled (-0x1p53)) with (- 2 ^ 53 * 2 ^ 1074) in Hb. exact Hb.
Qed.

Lemma scaled_bound_high (x : number) :
  not_finite x = false -> (x <? 0x1p53)%float = true -> floorZ x < 2 ^ 53.
Proof.
  intros Hf Hb. rewrite ltb_scaled in Hb by (auto; reflexivity).
  apply Z.ltb_lt in Hb.
  change (scaled 0x1p53) with (2 ^ 53 * 2 ^ 1074) in Hb.
  destruct (Z_lt_le_dec (floorZ x) (2 ^ 53)) as [L|L]; [assumption|].
  apply le_floorZ in L. lia.
Qed.

(** C3 (amended).  For every Box2 with finite corners [(x0, y0)] and
    [(x1, y1)] such that [-2^53 <= x0], [-2^53 <= y0], [x1 < 2^53] and
    [y1 < 2^53], the generator [Box2.integerPoints] completes, and it
    yields exactly the points with integer coordinates [(i, j)] such that
    [floor(x0) <= i <= x1] and [floor(y0) <= j <= y1] (the upper bounds are
    not floored), in column-major order: ascending in [i] and, for each
    [i], ascending in [j]. *)
Theorem integerPoints_lattice (h : heap) (B : Box2) :
  let x0 := arr_get (cells h (P0 B)) 0 in
  let y0 := arr_get (cells h (P0 B)) 1 in
  let x1 := arr_get (cells h (P1 B)) 0 in
  let y1 := arr_get (cells h (P1 B)) 1 in
  not_finite x0 = false -> not_finite y0 = false ->
  not_finite x1 = false -> not_finite y1 = false ->
  (-0x1p53 <=? x0)%float = true -> (-0x1p53 <=? y0)%float = true ->
  (x1 <? 0x1p53)%float = true -> (y1 <? 0x1p53)%float = true ->
  integerPoints_yields h B (floorZ x0) (floorZ x1) (floorZ y0) (floorZ y1) /\
  (forall i j,
     In (i, j) (lattice (floorZ x0) (floorZ x1) (floorZ y0) (floorZ y1)) <->
     (floorZ x0 <= i /\ i * 2 ^ 1074 <= scaled x1) /\
     (floorZ y0 <= j /\ j * 2 ^ 1074 <= scaled y1)).
Proof.
  intros x0 y0 x1 y1 Fx0 Fy0 Fx1 Fy1 Lx0 Ly0 Hx1 Hy1. split.
  - pose proof (scaled_bound_low Fx0 Lx0) as Bx0.
    pose proof (scaled_bound_low Fy0 Ly0) as By0.
    pose proof (scaled_bound_high Fx1 Hx1) as Bx1.
    pose proof (scaled_bound_high Fy1 Hy1) as By1.
    set (kx := Z.to_nat (floorZ x1 + 1 - floorZ x0)).
    set (ky := Z.to_nat (floorZ y1 + 1 - floorZ y0)).
    destruct (collect_created (kx * (2 * ky + 2) + 2 + 0) B h) as [h1 E1].
    destruct (@outer_loop x1 y0 y1 (next h) Fx1 Bx1 Fy0 By0 Fy1 By1 kx
                (Math.floor x0) (floorZ x0) h1 0%nat)
      as (L & E2 & F2).
    { now apply floor_is_integer. }
    { assumption. }
    { unfold kx. lia. }
    exists (S (kx * (2 * ky + 2) + 2 + 0)), L. split.
    + rewrite E1. exact E2.
    + exact F2.
  - intros i j. rewrite In_lattice, <- !le_floorZ. tauto.
Qed.

Lemma integerPoints_lattice_witness :
  not_finite 0.5 = false /\ not_finite 2 = false /\
  (-0x1p53 <=? 0.5)%float = true /\ (2 <? 0x1p53)%float = true /\
  integerPoints_yields half_box_heap half_box 0 2 0 2 /\
  (forall i j,
     In (i, j) (lattice 0 2 0 2) <->
     (0 <= i /\ i * 2 ^ 1074 <= scaled 2) /\
     (0 <= j /\ j * 2 ^ 1074 <= scaled 2)).
Proof.
  do 4 (split; [reflexivity|]).
  apply (integerPoints_lattice half_box_heap half_box); reflexivity.
Defined.

End Lattice.

Lemma collect_more_fuel (n : nat) :
  forall (g : Box2.generator) (h : heap) (pts : list (number * number)) (m : nat),
    Box2.collect n g h = Some pts -> (n <= m)%nat -> Box2.collect m g h = Some pts.
Proof.
  induction n as [|n IH]; intros g h pts m E Hm; [discriminate|].
  destruct m as [|m]; [lia|]. cbn [Box2.collect] in *.
  destruct g; try assumption;
    (destruct (Box2.step _ h) as [[g' [Q|]] h'|]; [| |discriminate]);
    try (apply IH with (m := m) in E; [assumption | lia]).
  all: destruct (Box2.collect n g' h') as [l|] eqn:El; [|discriminate];
    rewrite (IH _ _ _ m El) by lia; assumption.
Qed.

Lemma collect_deterministic (n m : nat) (g : Box2.generator) (h : heap)
    (p q : list (number * number)) :
  Box2.collect n g h = Some p -> Box2.collect m g h = Some q -> p = q.
Proof.
  intros Hp Hq.
  apply collect_more_fuel with (m := Nat.max n m) in Hp; [|lia].
  apply collect_more_fuel with (m := Nat.max n m) in Hq; [|lia].
  congruence.
Qed.

Lemma half_box_run :
  Box2.collect 40 (Box2.integerPoints half_box) half_box_heap = Some nine_points.
Proof. vm_compute. reflexivity. Qed.

(** C4 (amended).  Over the box [[(0.5, 0.5), (2, 2)]] [Box2.integerPoints]
    yields exactly the nine points (0,0), (0,1), (0,2), (1,0), (1,1),
    (1,2), (2,0), (2,1), (2,2), in that column-major order: the lower
    bounds are floored to 0. *)
Theorem half_box_nine_points :
  Box2.collect 40 (Box2.integerPoints half_box) half_box_heap = Some nine_points /\
  (forall fuel pts,
     Box2.collect fuel (Box2.integerPoints half_box) half_box_heap = Some pts ->
     pts = nine_points).
Proof.
  split; [exact half_box_run|].
  intros fuel pts E. eapply collect_deterministic; [exact E | exact half_box_run].
Qed.

(** C4 as stated fails: the generator never yields just the four points
    (1,1), (1,2), (2,1), (2,2). *)
Lemma half_box_not_four_points :
  ~ exists fuel,
      Box2.collect fuel (Box2.integerPoints half_box) half_box_heap =
      Some [(1, 1); (1, 2); (2, 1); (2, 2)].
Proof.
  intros [fuel E].
  eapply collect_deterministic in E; [|exact half_box_run].
  discriminate E.
Qed.

Lemma stuck_inner (P : ref) (fuel : nat) :
  forall h, Box2.collect fuel
              (Box2.InnerTest 0 0x1p53 0 0x1p53 0x1.0000000000001p53 P) h = None.
Proof.
  induction fuel as [fuel IH] using lt_wf_ind. intros h.
  destruct fuel as [|[|fuel]]; try reflexivity.
  destruct (@collect_inner_true 0 0x1p53 0x1.0000000000001p53 P fuel 0 0x1p53 h
              eq_refl) as [h' E].
  rewrite E. change (0x1p53 + 1) with 0x1p53. rewrite IH by lia. reflexivity.
Qed.

(** C3 as stated fails: the box [[(0, 2^53), (0, 2^53 + 2)]] has finite
    corners, and over it the generator never completes, because
    [2^53 + 1] rounds back to [2^53]: it yields [(0, 2^53)] for ever. *)
Lemma big_box_never_completes :
  not_finite 0x1p53 = false /\ not_finite 0x1.0000000000001p53 = false /\
  ~ exists fuel pts,
      Box2.collect fuel (Box2.integerPoints big_box) big_box_heap = Some pts.
Proof.
  do 2 (split; [reflexivity|]).
  intros (fuel & pts & E).
  destruct fuel as [|[|fuel]]; try discriminate E.
  destruct (collect_created (S fuel) big_box big_box_heap) as [h' E'].
  rewrite E' in E. cbn [big_box P0 P1] in E.
  change (arr_get (cells big_box_heap 0) 0) with 0 in E.
  change (arr_get (cells big_box_heap 0) 1) with 0x1p53 in E.
  change (arr_get (cells big_box_heap 1) 0) with 0 in E.
  change (arr_get (cells big_box_heap 1) 1) with 0x1.0000000000001p53 in E.
  change (Math.floor 0) with 0 in E.
  rewrite collect_outer_true in E by reflexivity.
  change (Math.floor 0x1p53) with 0x1p53 in E.
  now rewrite stuck_inner in E.
Qed.

(** ** Translation of the origin (C8) *)

Lemma translate_cells (h : heap) (A u : ref) :
  A <> u ->
  exists h',
    MatA.translate A u h = Ok A h' /\
    next h' = next h /\
    (forall r, r <> A -> cells h' r = cells h r) /\
    (forall i, i <> 3%nat -> i <> 7%nat -> i <> 11%nat ->
               arr_get (cells h' A) i = arr_get (cells h A) i) /\
    arr_get (cells h' A) 3 = arr_get (cells h A) 3 + arr_get (cells h u) 0 /\
    arr_get (cells h' A) 7 = arr_get (cells h A) 7 + arr_get (cells h u) 1 /\
    arr_get (cells h' A) 11 = arr_get (cells h A) 11 + arr_get (cells h u) 2.
Proof.
  intros HA.
  unfold MatA.translate, bind, ret, get, set.
  eexists. split; [reflexivity|].
  split; [reflexivity|]. split; [|split; [|split; [|split]]].
  - intros r Hr. now heap_simpl.
  - intros i H3 H7 H11. now heap_simpl.
  - now heap_simpl.
  - now heap_simpl.
  - now heap_simpl.
Qed.

Lemma settle_idem (x : number) : (0 + (0 + x)) / 1 = settle x.
Proof.
  rewrite div_one, (add_zero_l x). fold (settle x).
  rewrite add_zero_l. unfold settle.
  destruct (Math.is_neg_zero x) eqn:E; [reflexivity|]. now rewrite E.
Qed.

Lemma settle_eqb (x : number) : not_finite x = false -> (settle x =? x) = true.
Proof.
  intros Hf. unfold settle. rewrite <- add_zero_l. apply add_zero_l_eqb.
  unfold not_finite in Hf. now apply orb_false_iff in Hf.
Qed.

(** C8.  For every vector [u] with finite components: build a matrix with
    [MatA.eye()], translate it by [u] with [MatA.translate], and apply
    [Mat4.transformPoint] to the origin (0, 0, 0).  The homogeneous weight
    is exactly 1 and every component of the result is equal ([===]) to the
    component of [u], with no rounding: it is the very same number, except
    that a component [-0] of [u] comes back as [+0]. *)
Theorem translation_maps_origin_to_vector (h : heap) (u : ref) :
  let u0 := arr_get (cells h u) 0 in
  let u1 := arr_get (cells h u) 1 in
  let u2 := arr_get (cells h u) 2 in
  (u < next h)%nat ->
  not_finite u0 = false -> not_finite u1 = false -> not_finite u2 = false ->
  exists A h1 h2 O h3 r h4,
    MatA.eye h = Ok A h1 /\
    MatA.translate A u h1 = Ok A h2 /\
    Vec3.zero h2 = Ok O h3 /\
    Mat4.transformPoint A O h3 = Ok r h4 /\
    weight (cells h3 A) 0 0 0 = 1 /\
    vec3_of h4 r = (settle u0, settle u1, settle u2) /\
    (settle u0 =? u0) = true /\ (settle u1 =? u1) = true /\ (settle u2 =? u2) = true.
Proof.
  intros u0 u1 u2 Hu F0 F1 F2.
  set (h1 := extend h [1; 0; 0; 0; 0; 1; 0; 0; 0; 0; 1; 0; 0; 0; 0; 1]).
  destruct (@translate_cells h1 (next h) u ltac:(lia))
    as (h2 & E2 & N2 & O2 & K2 & A3 & A7 & A11).
  set (h3 := extend h2 [0; 0; 0]).
  assert (HA : cells h3 (next h) = cells h2 (next h)).
  { unfold h3. apply cells_extend_old. rewrite N2. unfold h1. rewrite next_extend. lia. }
  assert (HO : cells h3 (next h2) = nums [0; 0; 0]) by apply cells_extend_new.
  assert (H1 : cells h1 (next h) = nums [1; 0; 0; 0; 0; 1; 0; 0; 0; 0; 1; 0; 0; 0; 0; 1])
    by apply cells_extend_new.
  assert (Hu1 : cells h1 u = cells h u) by (apply cells_extend_old; lia).
  pose proof (transformPoint_run h3 (next h) (next h2)) as E3.
  unfold transformPoint_spec in E3. rewrite HA, HO in E3.
  rewrite A3, A7, A11, !K2, H1, Hu1 in E3 by lia.
  cbn [arr_get arr_read nums map nth ToNumber] in E3.
  change (1 * 0 + 0 * 0 + 0 * 0) with 0 in E3.
  change (0 * 0 + 1 * 0 + 0 * 0) with 0 in E3.
  change (0 * 0 + 0 * 0 + 1 * 0) with 0 in E3.
  change (0 * 0 + 0 * 0 + 0 * 0 + 1) with 1 in E3.
  rewrite !settle_idem in E3. fold u0 u1 u2 in E3.
  exists (next h), h1, h2, (next h2), h3, (next h3), (extend h3 [settle u0; settle u1; settle u2]).
  split; [reflexivity|]. split; [exact E2|]. split; [reflexivity|].
  split; [exact E3|]. split.
  - unfold weight. rewrite HA, !K2, H1 by lia. reflexivity.
  - split; [unfold vec3_of; now rewrite cells_extend_new|].
    auto using settle_eqb.
Qed.

Lemma translation_maps_origin_to_vector_witness :
  (1 < next eye_heap)%nat /\
  not_finite 1 = false /\ not_finite 2 = false /\ not_finite 3 = false /\
  exists A h1 h2 O h3 r h4,
    MatA.eye eye_heap = Ok A h1 /\
    MatA.translate A 1 h1 = Ok A h2 /\
    Vec3.zero h2 = Ok O h3 /\
    Mat4.transformPoint A O h3 = Ok r h4 /\
    weight (cells h3 A) 0 0 0 = 1 /\
    vec3_of h4 r = (settle 1, settle 2, settle 3) /\
    (settle 1 =? 1) = true /\ (settle 2 =? 2) = true /\ (settle 3 =? 3) = true.
Proof.
  split; [cbn; lia|]. do 3 (split; [reflexivity|]).
  apply (@translation_maps_origin_to_vector eye_heap 1%nat); [cbn; lia | reflexivity ..].
Defined.

(** ** Destinations that alias a source (C9) *)

Ltac heap_step :=
  first
    [ rewrite cells_write_same
    | rewrite cells_extend_new
    | rewrite cells_grow_new
    | rewrite arr_get_set_same
    | rewrite arr_get_put_same
    | rewrite ToNumber_arr_read
    | rewrite next_write
    | rewrite next_extend
    | rewrite next_grow
    | rewrite arr_get_set_other by lia
    | rewrite arr_get_put_other by lia
    | rewrite cells_write_other by (cbn [next extend grow write]; lia)
    | rewrite cells_extend_old by (cbn [next extend grow write]; lia)
    | rewrite cells_grow_old by (cbn [next extend grow write]; lia)
    | match goal with
      | |- context [cells (write _ ?a _) ?b] =>
          destruct (Nat.eq_dec b a); [subst b|]
      end ].

Ltac run_both :=
  unfold Vec2.copy, Vec2.sum, Vec2.diff, Vec2.translated, Vec2.scaled, Vec2.divided,
    Vec2.span, Vec2.min, Vec2.max, Vec2.mid, Vec2.lper, Vec2.floor, Vec2.withLen,
    Vec2.lengthLimited, Vec2.lerp, Vec3.copy, Vec3.translated, Vec3.scaled, Vec3.span,
    Vec3.min, Vec3.max, Vec3.mid, Mat2A.transformPoint, Box2.center, Box2.size,
    Box2.span, Box3.span, Box3.center,
    Vec2.zero, Vec3.zero, Vec3, Vec2.uninitialized, dest, bind, ret, get, set, read, put,
    alloc, new_Array.

Lemma alias_safe_aux (H : Math.impl) (c : dest_call) (h : heap) (s : ref) :
  (forall r, In r (sources c) -> (r < next h)%nat) ->
  In s (sources c) ->
  alias_agrees H c h s.
Proof.
  intros Hb Hs. unfold alias_agrees.
  destruct c; try (destruct B as [p0 p1]);
    cbn [run_dest sources arity In P0 P1 B3P0 B3P1] in *;
    try (pose proof (Hb _ (or_introl eq_refl)));
    try (pose proof (Hb _ (or_intror (or_introl eq_refl))));
    clear Hb;
    repeat (destruct Hs as [Hs|Hs]; [subst s|]); try contradiction.
  all: run_both; cbn [P0 P1 B3P0 B3P1].
  all: rewrite ?cells_extend_old, ?cells_grow_old by lia.
  all: repeat match goal with |- context [if ?b then _ else _] => destruct b end.
  all: do 2 eexists; (split; [reflexivity|]); (split; [reflexivity|]).
  all: intros i Hi; destruct i as [|[|[|i]]]; try lia.
  all: repeat heap_step; try reflexivity.
Qed.

Lemma Vec2_copy_into (h : heap) (v o : ref) :
  exists h',
    Vec2.copy v (Some o) h = Ok o h' /\
    next h' = next h /\
    (forall r, r <> o -> cells h' r = cells h r) /\
    vec2_of h' o = vec2_of h v.
Proof.
  unfold Vec2.copy, dest, bind, ret, read, put.
  eexists. split; [reflexivity|]. split; [reflexivity|]. split.
  - intros r Hr. now repeat heap_step.
  - unfold vec2_of. destruct (Nat.eq_dec v o) as [->|N]; now repeat heap_step.
Qed.

(** [Box2.copy] into a given box: the first corner is written before the
    second corner of the source is read. *)
Lemma Box2_copy_given (h : heap) (B d : Box2) :
  d = B \/ (P0 d <> P1 B /\ P0 d <> P1 d) ->
  exists h',
    Box2.copy B (Some d) h = Ok d h' /\
    next h' = next h /\
    (forall r, r <> P0 d -> r <> P1 d -> cells h' r = cells h r) /\
    box2_of h' d = box2_of h B.
Proof.
  intros Hd. unfold Box2.copy. cbn [dest].
  destruct (Vec2_copy_into h (P0 B) (P0 d)) as (h1 & E1 & N1 & O1 & V1).
  destruct (Vec2_copy_into h1 (P1 B) (P1 d)) as (h2 & E2 & N2 & O2 & V2).
  exists h2. split; [|split; [congruence|split]].
  - cbv [bind ret]. rewrite E1, E2. reflexivity.
  - intros r R0 R1. rewrite O2, O1; auto.
  - unfold box2_of. rewrite V2. f_equal.
    + destruct (Nat.eq_dec (P0 d) (P1 d)) as [E|N].
      * destruct Hd as [->|[_ Hd]]; [|contradiction].
        rewrite E, V2, <- E. exact V1.
      * unfold vec2_of in *. rewrite O2 by exact N. exact V1.
    + destruct (Nat.eq_dec (P1 B) (P0 d)) as [E|N].
      * destruct Hd as [->|[Hd _]]; [|congruence].
        rewrite E, V1, <- E. reflexivity.
      * unfold vec2_of. now rewrite O1 by exact N.
Qed.

Lemma Box2_empty_fresh (h : heap) :
  exists o h',
    Box2.empty None h = Ok o h' /\
    P0 o = next h /\ P1 o = S (next h) /\
    forall r, (r < next h)%nat -> cells h' r = cells h r.
Proof.
  unfold Box2.empty, Box2.uninitialized, Vec2.uniform, Vec2.uninitialized,
    dest, bind, ret, set, new_Array. cbn [P0 P1].
  do 2 eexists. split; [reflexivity|]. cbn [P0 P1]. split; [reflexivity|].
  split; [reflexivity|]. intros r Hr. now repeat heap_step.
Qed.

Lemma Box2_copy_fresh (h : heap) (B : Box2) :
  (P0 B < next h)%nat -> (P1 B < next h)%nat ->
  exists B2 h2, Box2.copy B None h = Ok B2 h2 /\ box2_of h2 B2 = box2_of h B.
Proof.
  intros H0 H1.
  destruct (Box2_empty_fresh h) as (o & h0 & E0 & O0 & O1 & F).
  destruct (@Box2_copy_given h0 B o) as (h2 & E2 & _ & _ & V2).
  { right. rewrite O0, O1. split; lia. }
  exists o, h2. split.
  - unfold Box2.copy in *. cbn [dest] in *. unfold bind at 1. rewrite E0. exact E2.
  - rewrite V2. unfold box2_of, vec2_of. now rewrite !F.
Qed.

Lemma Box2_fromCenterRadius_agrees (h : heap) (P : ref) (r : number) (d : Box2) :
  (P < next h)%nat -> P0 d <> P1 d ->
  exists h1 B2 h2,
    Box2.fromCenterRadius P r (Some d) h = Ok d h1 /\
    Box2.fromCenterRadius P r None h = Ok B2 h2 /\
    box2_of h1 d = box2_of h2 B2.
Proof.
  intros HP Hd. destruct d as [p0 p1]. cbn [P0 P1] in *.
  unfold Box2.fromCenterRadius, Box2.uninitialized, Vec2.set,
    Vec2.uninitialized, dest, bind, ret, get, set, new_Array.
  cbn [P0 P1].
  do 3 eexists. split; [reflexivity|]. split; [reflexivity|].
  unfold box2_of, vec2_of. cbn [P0 P1].
  repeat heap_step; try reflexivity; try congruence; try lia.
Qed.

(** C9 (amended).  For every operation of Vec2, Vec3 and Mat2A that reads
    arrays and takes an optional vector destination, and for the [center],
    [size] and [span] of a box: a call whose destination is one of the
    arrays it reads leaves in it the component values that the call leaves
    in a fresh destination.  In particular [Vec2.lper(u, u)] leaves
    [(-y, x)] in [u] and [Mat2A.transformPoint(M, P, P)] leaves in [P] the
    transform of the components [P] had.  Of the operations with a box
    destination, [Box2.copy(B, d)] agrees with a fresh destination when
    [d] is [B] itself or when the first corner of [d] is neither the
    second corner of [B] nor the second corner of [d], and
    [Box2.fromCenterRadius(P, r, d)] agrees when the two corners of [d]
    are different arrays, whether or not [P] is one of them.
    ([Box2.copy] into a box whose first corner is the second corner of the
    source, [Box2.fromCenterRadius] into a box whose corners are one
    array, [Box2.fromPoints], [Box2.wrapping] and [Box3.fromPoints] are
    not among these.) *)
Theorem destination_may_alias_source (H : Math.impl) (c : dest_call) (h : heap) (s : ref) :
  (forall r, In r (sources c) -> (r < next h)%nat) ->
  In s (sources c) ->
  alias_agrees H c h s /\
  lper_in_place /\ transformPoint_in_place /\ box_destination_agrees.
Proof.
  intros Hb Hs. split; [now apply alias_safe_aux|]. split; [|split; [|split]].
  - intros h0 u. eexists. split; [reflexivity|].
    unfold vec2_of. now repeat heap_step.
  - intros h0 m P. eexists. split; [reflexivity|].
    cbv zeta. unfold vec2_of. now repeat heap_step.
  - intros h0 B d H0 H1 Hd.
    destruct (@Box2_copy_given h0 B d Hd) as (h1 & E1 & _ & _ & V1).
    destruct (@Box2_copy_fresh h0 B H0 H1) as (B2 & h2 & E2 & V2).
    exists h1, B2, h2. split; [exact E1|]. split; [exact E2|]. congruence.
  - intros h0 P r d. apply Box2_fromCenterRadius_agrees.
Qed.

Lemma destination_may_alias_source_witness :
  (forall r, In r (sources (c_Vec2_lper 0)) -> (r < next alias_heap)%nat) /\
  In 0%nat (sources (c_Vec2_lper 0)) /\
  alias_agrees sample_math (c_Vec2_lper 0) alias_heap 0 /\
  lper_in_place /\ transformPoint_in_place /\ box_destination_agrees.
Proof.
  assert (Hb : forall r, In r (sources (c_Vec2_lper 0)) -> (r < next alias_heap)%nat).
  { intros r [<-|[]]. cbn. lia. }
  split; [exact Hb|]. split; [now left|].
  exact (@destination_may_alias_source sample_math (c_Vec2_lper 0) alias_heap 0%nat
           Hb (or_introl eq_refl)).
Defined.

(** C9 as stated fails for [Box2.fromPoints]: a box is an iterable of its
    two corners, and [Box2.fromPoints(B, B)] on [B = [(0,0),(1,1)]] resets
    [B] before it reads it, leaving [[(inf,inf),(inf,inf)]], where a fresh
    destination receives [[(0,0),(1,1)]]. *)
Lemma fromPoints_into_its_own_source :
  box2_result (Box2.fromPoints (Box2_items unit_box) (Some unit_box) unit_box_heap) =
    Some ((Infinity, Infinity), (Infinity, Infinity)) /\
  box2_result (Box2.fromPoints (Box2_items unit_box) None unit_box_heap) =
    Some ((0, 0), (1, 1)) /\
  box2_result (Box2.fromPoints (Box2_items unit_box) (Some unit_box) unit_box_heap) <>
  box2_result (Box2.fromPoints (Box2_items unit_box) None unit_box_heap).
Proof.
  split; [vm_compute; reflexivity|]. split; [vm_compute; reflexivity|].
  intros E.
  apply (f_equal (fun o => match o with
                           | Some ((x, _), _) => is_infinity x
                           | None => false
                           end)) in E.
  vm_compute in E. discriminate E.
Qed.

(** The conditions on a box destination are needed.  [Box2.copy] of
    [[(0,0),(1,1)]] into the box of the same two corners exchanged writes
    the first corner over the second before it reads it, and
    [Box2.fromCenterRadius] into a box whose two corners are one array
    writes the upper corner over the lower one. *)
Lemma box_destination_conditions :
  box2_result (Box2.copy unit_box (Some {| P0 := 1; P1 := 0 |}) unit_box_heap) =
    Some ((0, 0), (0, 0)) /\
  box2_result (Box2.copy unit_box None unit_box_heap) = Some ((0, 0), (1, 1)) /\
  box2_result (Box2.fromCenterRadius 1 1 (Some {| P0 := 1; P1 := 1 |}) unit_box_heap) =
    Some ((2, 2), (2, 2)) /\
  box2_result (Box2.fromCenterRadius 1 1 None unit_box_heap) = Some ((0, 0), (2, 2)).
Proof. repeat split; vm_compute; reflexivity. Qed.

(** ** Boxes from points (C5) *)

Lemma Box2_expand_step (h : heap) (p0 p1 P : ref) :
  p0 <> p1 -> P <> p0 -> P <> p1 ->
  exists h',
    (bind (Vec2.min p0 P (Some p0)) (fun _ =>
     bind (Vec2.max p1 P (Some p1)) (fun _ => ret tt))) h = Ok tt h' /\
    next h' = next h /\
    (forall r, r <> p0 -> r <> p1 -> cells h' r = cells h r) /\
    box2_of h' {| P0 := p0; P1 := p1 |} =
    expand2 (box2_of h {| P0 := p0; P1 := p1 |}) (vec2_of h P).
Proof.
  intros H01 HP0 HP1.
  unfold Vec2.min, Vec2.max, dest, bind, ret, get, set.
  eexists. split; [reflexivity|]. split; [reflexivity|]. split.
  - intros r R0 R1. now repeat heap_step.
  - unfold box2_of, vec2_of, expand2. cbn [P0 P1].
    repeat heap_step; try reflexivity; congruence.
Qed.

Lemma Box2_expandAll_fold (Ps : list ref) :
  forall (h : heap) (p0 p1 : ref),
    p0 <> p1 -> ~ In p0 Ps -> ~ In p1 Ps ->
    exists h',
      Box2.expandAll {| P0 := p0; P1 := p1 |} Ps h = Ok tt h' /\
      next h' = next h /\
      (forall r, r <> p0 -> r <> p1 -> cells h' r = cells h r) /\
      box2_of h' {| P0 := p0; P1 := p1 |} =
      fold_left expand2 (map (vec2_of h) Ps) (box2_of h {| P0 := p0; P1 := p1 |}).
Proof.
  unfold Box2.expandAll. cbn [P0 P1].
  induction Ps as [|P Ps IH]; intros h p0 p1 H01 N0 N1; cbn [forOf map fold_left].
  - exists h. repeat split; auto.
  - cbn [In] in N0, N1.
    destruct (@Box2_expand_step h p0 p1 P H01 ltac:(tauto) ltac:(tauto))
      as (h1 & E1 & X1 & O1 & B1).
    destruct (IH h1 p0 p1 H01 ltac:(tauto) ltac:(tauto)) as (h2 & E2 & X2 & O2 & B2).
    exists h2. split; [|split; [congruence|split]].
    + unfold bind at 1. rewrite E1. exact E2.
    + intros r R0 R1. rewrite O2, O1; auto.
    + rewrite B2, B1. f_equal.
      apply map_ext_in. intros Q HQ. unfold vec2_of.
      rewrite O1; [reflexivity | |]; intros ->; tauto.
Qed.

Lemma Box2_empty_run (h : heap) (o : Box2) :
  P0 o <> P1 o ->
  exists h',
    Box2.empty (Some o) h = Ok o h' /\
    next h' = next h /\
    (forall r, r <> P0 o -> r <> P1 o -> cells h' r = cells h r) /\
    box2_of h' o = empty2.
Proof.
  intros H01. destruct o as [p0 p1]. cbn [P0 P1] in *.
  unfold Box2.empty, Vec2.uniform, dest, bind, ret, set. cbn [P0 P1].
  eexists. split; [reflexivity|]. split; [reflexivity|]. split.
  - intros r R0 R1. now repeat heap_step.
  - unfold box2_of, vec2_of, empty2. cbn [P0 P1].
    repeat heap_step; try reflexivity; congruence.
Qed.

Lemma map_vec2_of_unchanged (h h' : heap) (Ps : list ref) (p0 p1 : ref) :
  (forall r, r <> p0 -> r <> p1 -> cells h' r = cells h r) ->
  ~ In p0 Ps -> ~ In p1 Ps ->
  map (vec2_of h') Ps = map (vec2_of h) Ps.
Proof.
  intros O N0 N1. apply map_ext_in. intros Q HQ. unfold vec2_of.
  rewrite O; [reflexivity | |]; intros ->; tauto.
Qed.

Lemma Box2_fromPoints_supplied (h : heap) (Ps : list ref) (o : Box2) :
  P0 o <> P1 o -> ~ In (P0 o) Ps -> ~ In (P1 o) Ps ->
  exists h',
    Box2.fromPoints Ps (Some o) h = Ok o h' /\
    box2_of h' o = fold_left expand2 (map (vec2_of h) Ps) empty2.
Proof.
  intros H01 N0 N1.
  destruct (@Box2_empty_run h o H01) as (h1 & E1 & X1 & O1 & B1).
  destruct o as [p0 p1]. cbn [P0 P1] in *.
  destruct (@Box2_expandAll_fold Ps h1 p0 p1 H01 N0 N1) as (h2 & E2 & X2 & O2 & B2).
  exists h2. split.
  - unfold Box2.fromPoints, dest. unfold bind, ret at 1. cbv beta iota.
    rewrite E1, E2. reflexivity.
  - rewrite B2, B1. f_equal. now apply map_vec2_of_unchanged with (p0 := p0) (p1 := p1).
Qed.

Lemma Box2_fromPoints_fresh (h : heap) (Ps : list ref) :
  (forall P, In P Ps -> (P < next h)%nat) ->
  exists B h',
    Box2.fromPoints Ps None h = Ok B h' /\
    box2_of h' B = fold_left expand2 (map (vec2_of h) Ps) empty2.
Proof.
  intros Hb.
  set (h0 := grow (grow h (holes 2)) (holes 2)).
  set (o := {| P0 := next h; P1 := S (next h) |}).
  assert (N0 : ~ In (P0 o) Ps) by (intros I; apply Hb in I; cbn in I; lia).
  assert (N1 : ~ In (P1 o) Ps) by (intros I; apply Hb in I; cbn in I; lia).
  destruct (@Box2_fromPoints_supplied h0 Ps o ltac:(cbn; lia) N0 N1) as (h' & E & B).
  exists o, h'. split.
  - exact E.
  - rewrite B. f_equal. apply map_ext_in. intros Q HQ. apply Hb in HQ.
    unfold vec2_of, h0. now rewrite !cells_grow_old by (cbn [next grow]; lia).
Qed.

Lemma Box3_expand_step (h : heap) (p0 p1 P : ref) :
  p0 <> p1 -> P <> p0 -> P <> p1 ->
  exists h',
    (bind (Vec3.min p0 P (Some p0)) (fun _ =>
     bind (Vec3.max p1 P (Some p1)) (fun _ => ret tt))) h = Ok tt h' /\
    next h' = next h /\
    (forall r, r <> p0 -> r <> p1 -> cells h' r = cells h r) /\
    box3_of h' {| B3P0 := p0; B3P1 := p1 |} =
    expand3 (box3_of h {| B3P0 := p0; B3P1 := p1 |}) (vec3_of h P).
Proof.
  intros H01 HP0 HP1.
  unfold Vec3.min, Vec3.max, dest, bind, ret, get, set.
  eexists. split; [reflexivity|]. split; [reflexivity|]. split.
  - intros r R0 R1. now repeat heap_step.
  - unfold box3_of, vec3_of, expand3. cbn [B3P0 B3P1].
    repeat heap_step; try reflexivity; congruence.
Qed.

Lemma Box3_expandAll_fold (Ps : list ref) :
  forall (h : heap) (p0 p1 : ref),
    p0 <> p1 -> ~ In p0 Ps -> ~ In p1 Ps ->
    exists h',
      Box3.expandAll {| B3P0 := p0; B3P1 := p1 |} Ps h = Ok tt h' /\
      next h' = next h /\
      (forall r, r <> p0 -> r <> p1 -> cells h' r = cells h r) /\
      box3_of h' {| B3P0 := p0; B3P1 := p1 |} =
      fold_left expand3 (map (vec3_of h) Ps) (box3_of h {| B3P0 := p0; B3P1 := p1 |}).
Proof.
  unfold Box3.expandAll. cbn [B3P0 B3P1].
  induction Ps as [|P Ps IH]; intros h p0 p1 H01 N0 N1; cbn [forOf map fold_left].
  - exists h. repeat split; auto.
  - cbn [In] in N0, N1.
    destruct (@Box3_expand_step h p0 p1 P H01 ltac:(tauto) ltac:(tauto))
      as (h1 & E1 & X1 & O1 & B1).
    destruct (IH h1 p0 p1 H01 ltac:(tauto) ltac:(tauto)) as (h2 & E2 & X2 & O2 & B2).
    exists h2. split; [|split; [congruence|split]].
    + unfold bind at 1. rewrite E1. exact E2.
    + intros r R0 R1. rewrite O2, O1; auto.
    + rewrite B2, B1. f_equal.
      apply map_ext_in. intros Q HQ. unfold vec3_of.
      rewrite O1; [reflexivity | |]; intros ->; tauto.
Qed.

Lemma Box3_fromPoints_supplied (h : heap) (Ps : list ref) (o : Box3) :
  B3P0 o <> B3P1 o -> ~ In (B3P0 o) Ps -> ~ In (B3P1 o) Ps ->
  exists h',
    Box3.fromPoints Ps (Some o) h = Ok o h' /\
    box3_of h' o = fold_left expand3 (map (vec3_of h) Ps) (box3_of h o).
Proof.
  intros H01 N0 N1. destruct o as [p0 p1]. cbn [B3P0 B3P1] in *.
  destruct (@Box3_expandAll_fold Ps h p0 p1 H01 N0 N1) as (h2 & E2 & X2 & O2 & B2).
  exists h2. split; [|exact B2].
  unfold Box3.fromPoints, dest. unfold bind, ret at 1. cbv beta iota.
  rewrite E2. reflexivity.
Qed.

Lemma Box3_fromPoints_fresh (h : heap) (Ps : list ref) :
  (forall P, In P Ps -> (P < next h)%nat) ->
  exists B h',
    Box3.fromPoints Ps None h = Ok B h' /\
    box3_of h' B = fold_left expand3 (map (vec3_of h) Ps) empty3.
Proof.
  intros Hb.
  set (h0 := extend (extend h [Infinity; Infinity; Infinity])
                    [- Infinity; - Infinity; - Infinity]).
  set (o := {| B3P0 := next h; B3P1 := S (next h) |}).
  assert (N0 : ~ In (B3P0 o) Ps) by (intros I; apply Hb in I; cbn in I; lia).
  assert (N1 : ~ In (B3P1 o) Ps) by (intros I; apply Hb in I; cbn in I; lia).
  destruct (@Box3_fromPoints_supplied h0 Ps o ltac:(cbn; lia) N0 N1) as (h' & E & B).
  exists o, h'. split.
  - exact E.
  - rewrite B. f_equal.
    + apply map_ext_in. intros Q HQ. apply Hb in HQ.
      unfold vec3_of, h0. now rewrite !cells_extend_old by (cbn [next extend grow]; lia).
    + unfold box3_of, vec3_of, h0, o. cbn [B3P0 B3P1].
      rewrite cells_extend_new.
      rewrite cells_extend_old by (cbn [next extend grow]; lia).
      rewrite cells_extend_new. reflexivity.
Qed.

(** [Box2.fromPoints], with a fresh destination or a supplied one that
    shares no array with the points, returns the empty box expanded by
    each point in order; so does [Box3.fromPoints] with a fresh
    destination.  Into a supplied destination [Box3.fromPoints] expands
    the box the destination holds. *)
Lemma fromPoints_folds_expansion (h : heap) (Ps : list ref) :
  (forall P, In P Ps -> (P < next h)%nat) ->
  (exists B h',
     Box2.fromPoints Ps None h = Ok B h' /\
     box2_of h' B = fold_left expand2 (map (vec2_of h) Ps) empty2) /\
  (forall o, P0 o <> P1 o -> ~ In (P0 o) Ps -> ~ In (P1 o) Ps ->
     exists h',
       Box2.fromPoints Ps (Some o) h = Ok o h' /\
       box2_of h' o = fold_left expand2 (map (vec2_of h) Ps) empty2) /\
  (exists B h',
     Box3.fromPoints Ps None h = Ok B h' /\
     box3_of h' B = fold_left expand3 (map (vec3_of h) Ps) empty3) /\
  (forall o, B3P0 o <> B3P1 o -> ~ In (B3P0 o) Ps -> ~ In (B3P1 o) Ps ->
     exists h',
       Box3.fromPoints Ps (Some o) h = Ok o h' /\
       box3_of h' o = fold_left expand3 (map (vec3_of h) Ps) (box3_of h o)).
Proof.
  intros Hb. split; [now apply Box2_fromPoints_fresh|].
  split; [intros o; apply Box2_fromPoints_supplied|].
  split; [now apply Box3_fromPoints_fresh|].
  intros o; apply Box3_fromPoints_supplied.
Qed.

(** C5.  [Box3.fromPoints] with a caller-supplied, populated destination
    does not start from the empty box: for no input points it returns the
    destination as it was, [[(0,0,0),(1,1,1)]], where the claim requires
    the empty box.  Without a destination it returns the empty box, and
    [Box2.fromPoints] resets the destination it is given. *)
Theorem Box3_fromPoints_keeps_destination :
  box3_result (Box3.fromPoints [] (Some unit_box3) box3_heap) =
    Some ((0, 0, 0), (1, 1, 1)) /\
  box3_result (Box3.fromPoints [] None box3_heap) =
    Some ((Infinity, Infinity, Infinity), (- Infinity, - Infinity, - Infinity)) /\
  box2_result (Box2.fromPoints [] (Some unit_box) unit_box_heap) =
    Some ((Infinity, Infinity), (- Infinity, - Infinity)).
Proof. split; [|split]; vm_compute; reflexivity. Qed.

(** ** Validation and errors (C10) *)

#[export] Instance any_store_preorder : PreOrder any_store.
Proof. split; constructor. Qed.

Lemma sat_set_any (a : ref) (i : nat) (v : number) : sat any_store (set a i v).
Proof. intros h. eexists tt, _. split; [reflexivity | exact I]. Qed.

Lemma sat_put_any (a : ref) (i : nat) (v : value) : sat any_store (put a i v).
Proof. intros h. eexists tt, _. split; [reflexivity | exact I]. Qed.

Lemma sat_alloc_any (l : list number) : sat any_store (alloc l).
Proof. intros h. eexists _, _. split; [reflexivity | exact I]. Qed.

Lemma sat_new_Array_any (n : nat) : sat any_store (new_Array n).
Proof. intros h. eexists _, _. split; [reflexivity | exact I]. Qed.

Lemma sat_weaken {A} (R : heap -> heap -> Prop) (m : M A) :
  sat R m -> sat any_store m.
Proof. intros Hm h. destruct (Hm h) as (a & h' & E & _). exists a, h'. now split. Qed.

Lemma sat_no_throw {A} (R : heap -> heap -> Prop) (m : M A) (h : heap) :
  sat R m -> threw (m h) = false.
Proof. intros Hm. destruct (Hm h) as (a & h' & E & _). now rewrite E. Qed.

Ltac head_of t := lazymatch t with ?f _ => head_of f | _ => t end.

Ltac total :=
  repeat lazymatch goal with
    | |- sat _ (bind _ _) => apply sat_bind; [ exact _ | | intros ]
    | |- sat _ (ret _) => apply sat_ret; exact _
    | |- sat _ (get _ _) => apply sat_get; exact _
    | |- sat _ (read _ _) => apply sat_read; exact _
    | |- sat _ (set _ _ _) => apply sat_set_any
    | |- sat _ (put _ _ _) => apply sat_put_any
    | |- sat _ (alloc _) => apply sat_alloc_any
    | |- sat _ (new_Array _) => apply sat_new_Array_any
    | |- sat _ (dest ?d _) => destruct d; cbn [dest]
    | |- sat _ (forOf _ _) => apply sat_forOf; [ exact _ | intros ]
    | |- sat _ (if _ then _ else _) => apply sat_if
    | |- sat _ (match ?p with _ => _ end) => destruct p
    | |- sat _ ?m => let f := head_of m in unfold f
    end.

Lemma run_dest_total (H : Math.impl) (c : dest_call) (d : option ref) :
  sat any_store (run_dest H c d).
Proof. destruct c; cbn [run_dest]; total. Qed.

Lemma step_total (g : Box2.generator) : sat any_store (Box2.step g).
Proof. destruct g; cbn [Box2.step]; total. Qed.

Lemma kernel_total (H : Host) (c : call) (h : heap) :
  (forall n, c <> call_int n) -> throws H c h = false.
Proof.
  intros Hc. destruct c; cbn [throws]; try (exfalso; eapply Hc; reflexivity);
    try (apply (@sat_no_throw _ any_store)).
  all: total.
Qed.

Section Integral.

Local Open Scope Z_scope.

Lemma isInteger_spec (x : number) :
  Number.isInteger x = true <-> exists z, is_integer x z.
Proof.
  unfold Number.isInteger, is_integer, scaled. rewrite not_finite_spec.
  pose proof (Prim2SF_valid x) as Vx. pose proof pow2_1074_pos as HK.
  destruct (Prim2SF x) as [s|s| |s m e]; cbn [SFscaled].
  - split; [intros _; exists 0; auto | auto].
  - split; [discriminate | intros (z & D & _); discriminate].
  - split; [discriminate | intros (z & D & _); discriminate].
  - cbn [valid_binary] in Vx. apply bounded_canonical in Vx.
    destruct (canonical_bounds Vx) as ([? ?] & _).
    rewrite orb_true_iff, Z.leb_le, Z.eqb_eq, cond_Zopp_mul.
    split.
    + intros [He|Hm].
      * exists (cond_Zopp s (Zpos m) * 2 ^ e). split; [reflexivity|].
        rewrite Z.pow_add_r by lia. ring.
      * destruct (Z_le_gt_dec 0 e) as [He|He].
        { exists (cond_Zopp s (Zpos m) * 2 ^ e). split; [reflexivity|].
          rewrite Z.pow_add_r by lia. ring. }
        pose proof (pow2_pos (k := - e) ltac:(lia)) as Hp.
        apply Z.mod_divide in Hm; [|lia]. destruct Hm as [q Hq].
        exists (cond_Zopp s q). split; [reflexivity|].
        replace (2 ^ 1074) with (2 ^ (- e) * 2 ^ (e + 1074))
          by (rewrite <- Z.pow_add_r by lia; f_equal; lia).
        rewrite Hq. destruct s; cbn [cond_Zopp]; ring.
    + intros (z & _ & Hz).
      destruct (Z_le_gt_dec 0 e) as [He|He]; [now left | right].
      pose proof (pow2_pos (k := - e) ltac:(lia)) as Hp.
      pose proof (pow2_pos (k := e + 1074) ltac:(lia)) as Hp'.
      replace (2 ^ 1074) with (2 ^ (- e) * 2 ^ (e + 1074)) in Hz
        by (rewrite <- Z.pow_add_r by lia; f_equal; lia).
      rewrite Z.mul_assoc in Hz. apply Z.mul_reg_r in Hz; [|lia].
      apply Z.mod_divide; [lia|].
      exists (cond_Zopp s z). destruct s; cbn [cond_Zopp] in *; lia.
Qed.

End Integral.

(** C10.  [int(n)] returns [n] unchanged when [n] is integral and throws
    when it is not; a number is integral exactly when it is finite and its
    value is an integer, so NaN and the infinities are rejected.  Of every
    call of the kernel, a call of [int] on a number that is not integral
    is the only one that throws. *)
Theorem int_is_the_only_check (H : Host) :
  (forall n h, Number.isInteger n = true -> int n h = Ok n h) /\
  (forall n h, Number.isInteger n = false -> int n h = Throw "not an integer") /\
  (forall n, Number.isInteger n = true <-> exists z, is_integer n z) /\
  Number.isInteger NaN = false /\
  Number.isInteger Infinity = false /\
  Number.isInteger (- Infinity) = false /\
  (forall c h, throws H c h = true <->
               exists n, c = call_int n /\ Number.isInteger n = false).
Proof.
  split; [|split; [|split; [|split; [|split; [|split]]]]]; try reflexivity.
  - intros n h E. unfold int. now rewrite E.
  - intros n h E. unfold int. now rewrite E.
  - apply isInteger_spec.
  - intros c h. split.
    + intros T. destruct c; try (rewrite kernel_total in T by discriminate; discriminate).
      exists n. split; [reflexivity|]. cbn [throws] in T. unfold int in T.
      now destruct (Number.isInteger n).
    + intros (n & -> & E). cbn [throws]. unfold int. now rewrite E.
Qed.


(** * Further properties of the kernel *)

(** ** The order of numbers *)

Section Order.

Local Open Scope Z_scope.

Lemma SFscaled_bound (x : spec_float) :
  valid_binary x = true -> - beyond < SFscaled x < beyond.
Proof.
  assert (P : 0 < beyond) by (apply pow2_pos; lia).
  destruct x as [s|s| |s m e]; cbn [SFscaled]; try lia.
  intros V. cbn [valid_binary] in V. apply bounded_canonical in V.
  destruct (canonical_bounds V) as ([L U] & Hm & _).
  assert (0 < Zpos m * 2 ^ (e + 1074) < beyond).
  { split; [apply scaled_pos; lia|].
    apply Z.lt_le_trans with (2 ^ 53 * 2 ^ (e + 1074)).
    - apply Z.mul_lt_mono_pos_r; [apply pow2_pos; lia | exact Hm].
    - rewrite <- Z.pow_add_r by lia. apply Z.pow_le_mono_r; lia. }
  destruct s; cbn [cond_Zopp]; lia.
Qed.

Lemma SFcompare_rank (x y : spec_float) :
  valid_binary x = true -> valid_binary y = true ->
  x <> S754_nan -> y <> S754_nan ->
  SFcompare x y = Some (SFrank x ?= SFrank y).
Proof.
  intros Vx Vy Nx Ny.
  pose proof (SFscaled_bound x Vx) as Bx. pose proof (SFscaled_bound y Vy) as By.
  assert (P : 0 < beyond) by (apply pow2_pos; lia).
  destruct x as [sx|sx| |sx mx ex]; try congruence;
  destruct y as [sy|sy| |sy my ey]; try congruence;
  try (apply SFcompare_scaled; auto; fail).
  all: cbn [SFcompare SFrank]; cbn [SFscaled] in *; f_equal; symmetry.
  all: try destruct sx; try destruct sy; cbn [cond_Zopp] in *;
       try (apply Z.compare_eq_iff; lia);
       try (apply Z.compare_lt_iff; lia);
       try (apply Z.compare_gt_iff; lia).
Qed.

Lemma beyond_pos : 0 < beyond.
Proof. apply pow2_pos; lia. Qed.

Lemma rank_bound (x : number) : - beyond <= rank x <= beyond.
Proof.
  unfold rank. pose proof (SFscaled_bound (Prim2SF x) (Prim2SF_valid x)) as B.
  pose proof beyond_pos.
  destruct (Prim2SF x) as [s|s| |s m e]; cbn [SFrank SFscaled] in *; try lia.
  destruct s; cbn [cond_Zopp]; lia.
Qed.

Lemma is_nan_Prim2SF (x : number) : is_nan x = false -> Prim2SF x <> S754_nan.
Proof. rewrite is_nan_spec. intros H E. now rewrite E in H. Qed.

Lemma compare_rank (x y : number) :
  is_nan x = false -> is_nan y = false ->
  SFcompare (Prim2SF x) (Prim2SF y) = Some (rank x ?= rank y).
Proof.
  intros Hx Hy. apply SFcompare_rank; auto using Prim2SF_valid, is_nan_Prim2SF.
Qed.

Lemma ltb_rank (x y : number) :
  is_nan x = false -> is_nan y = false -> (x <? y)%float = (rank x <? rank y).
Proof.
  intros Hx Hy. rewrite ltb_spec. unfold SFltb. rewrite compare_rank by assumption.
  unfold Z.ltb. now destruct (rank x ?= rank y).
Qed.

Lemma leb_rank (x y : number) :
  is_nan x = false -> is_nan y = false -> (x <=? y)%float = (rank x <=? rank y).
Proof.
  intros Hx Hy. rewrite leb_spec. unfold SFleb. rewrite compare_rank by assumption.
  unfold Z.leb. now destruct (rank x ?= rank y).
Qed.

Lemma is_neg_zero_spec (x : number) :
  Math.is_neg_zero x = match Prim2SF x with S754_zero true => true | _ => false end.
Proof.
  destruct (Prim2SF x) as [s|s| |s m e] eqn:E.
  - apply Prim2SF_zero_cases in E. subst x. now destruct s.
  - unfold Math.is_neg_zero, is_zero. rewrite FloatAxioms.eqb_spec, E. now destruct s.
  - unfold Math.is_neg_zero, is_zero. now rewrite FloatAxioms.eqb_spec, E.
  - unfold Math.is_neg_zero, is_zero. rewrite FloatAxioms.eqb_spec, E. now destruct s.
Qed.

Lemma is_nan_eq (x : number) : is_nan x = true -> x = NaN.
Proof.
  rewrite is_nan_spec. intros H. apply Prim2SF_inj.
  destruct (Prim2SF x); try discriminate. reflexivity.
Qed.

Lemma key_inj (a b : number) :
  is_nan a = false -> is_nan b = false -> key a = key b -> a = b.
Proof.
  intros Ha Hb. unfold key, rank. rewrite !is_neg_zero_spec.
  rewrite is_nan_spec in Ha, Hb.
  pose proof (Prim2SF_valid a) as Va. pose proof (Prim2SF_valid b) as Vb.
  pose proof (SFscaled_bound _ Va) as Ba. pose proof (SFscaled_bound _ Vb) as Bb.
  pose proof beyond_pos as P.
  intros K. apply Prim2SF_inj.
  destruct (Prim2SF a) as [sa|sa| |sa ma ea]; try discriminate;
  destruct (Prim2SF b) as [sb|sb| |sb mb eb]; try discriminate;
  cbn [SFrank SFscaled valid_binary] in *.
  all: try (destruct sa; destruct sb; cbn [cond_Zopp] in *; first [reflexivity | lia]).
  all: try (apply bounded_canonical in Va; pose proof (scaled_pos ma (e := ea)
              ltac:(destruct (canonical_bounds Va) as ([? ?] & _); lia))).
  all: try (apply bounded_canonical in Vb; pose proof (scaled_pos mb (e := eb)
              ltac:(destruct (canonical_bounds Vb) as ([? ?] & _); lia))).
  all: try (destruct sa; try destruct sb; cbn [cond_Zopp] in *; lia).
  apply SF_finite_unique; auto. cbn [SFscaled]. 
  destruct sa; destruct sb; cbn [cond_Zopp] in *; lia.
Qed.

Lemma min_by_key (a b : number) :
  is_nan a = false -> is_nan b = false ->
  Math.min a b = if key a <=? key b then a else b.
Proof.
  intros Ha Hb. unfold Math.min. rewrite Ha, Hb. cbn [orb].
  rewrite !ltb_rank by assumption.
  pose proof (@key_inj a b Ha Hb) as Inj. unfold key in *.
  destruct (Z.ltb_spec (rank a) (rank b)) as [L|L].
  { destruct (Z.leb_spec (2 * rank a - (if Math.is_neg_zero a then 1 else 0))
                         (2 * rank b - (if Math.is_neg_zero b then 1 else 0))); auto.
    destruct (Math.is_neg_zero a), (Math.is_neg_zero b); lia. }
  destruct (Z.ltb_spec (rank b) (rank a)) as [L'|L'].
  { destruct (Z.leb_spec (2 * rank a - (if Math.is_neg_zero a then 1 else 0))
                         (2 * rank b - (if Math.is_neg_zero b then 1 else 0))); auto.
    destruct (Math.is_neg_zero a), (Math.is_neg_zero b); lia. }
  assert (E : rank a = rank b) by lia. rewrite E in *.
  destruct (Math.is_neg_zero a), (Math.is_neg_zero b);
    destruct (Z.leb_spec (2 * rank b - 1) (2 * rank b - 1));
    destruct (Z.leb_spec (2 * rank b - 1) (2 * rank b - 0));
    destruct (Z.leb_spec (2 * rank b - 0) (2 * rank b - 1));
    destruct (Z.leb_spec (2 * rank b - 0) (2 * rank b - 0));
    try lia; try reflexivity.
  symmetry. apply Inj. reflexivity.
Qed.

Lemma max_by_key (a b : number) :
  is_nan a = false -> is_nan b = false ->
  Math.max a b = if key a <=? key b then b else a.
Proof.
  intros Ha Hb. unfold Math.max. rewrite Ha, Hb. cbn [orb].
  rewrite !ltb_rank by assumption.
  pose proof (@key_inj a b Ha Hb) as Inj. unfold key in *.
  destruct (Z.ltb_spec (rank a) (rank b)) as [L|L].
  { destruct (Z.leb_spec (2 * rank a - (if Math.is_neg_zero a then 1 else 0))
                         (2 * rank b - (if Math.is_neg_zero b then 1 else 0))); auto.
    destruct (Math.is_neg_zero a), (Math.is_neg_zero b); lia. }
  destruct (Z.ltb_spec (rank b) (rank a)) as [L'|L'].
  { destruct (Z.leb_spec (2 * rank a - (if Math.is_neg_zero a then 1 else 0))
                         (2 * rank b - (if Math.is_neg_zero b then 1 else 0))); auto.
    destruct (Math.is_neg_zero a), (Math.is_neg_zero b); lia. }
  assert (E : rank a = rank b) by lia. rewrite E in *.
  destruct (Math.is_neg_zero a), (Math.is_neg_zero b);
    destruct (Z.leb_spec (2 * rank b - 1) (2 * rank b - 1));
    destruct (Z.leb_spec (2 * rank b - 1) (2 * rank b - 0));
    destruct (Z.leb_spec (2 * rank b - 0) (2 * rank b - 1));
    destruct (Z.leb_spec (2 * rank b - 0) (2 * rank b - 0));
    try lia; try reflexivity.
  apply Inj. reflexivity.
Qed.

Lemma key_le_leb (a b : number) :
  is_nan a = false -> is_nan b = false -> key a <= key b -> (a <=? b)%float = true.
Proof.
  intros Ha Hb K. rewrite leb_rank by assumption. apply Z.leb_le.
  unfold key in K. destruct (Math.is_neg_zero a), (Math.is_neg_zero b); lia.
Qed.

Lemma key_range (x : number) : 2 * - beyond <= key x <= 2 * beyond.
Proof.
  pose proof (rank_bound x) as B. pose proof beyond_pos.
  unfold key. rewrite is_neg_zero_spec. unfold rank in *.
  destruct (Prim2SF x) as [[|]|s| |s m e]; cbn [SFrank SFscaled] in *; lia.
Qed.

Lemma key_bound (x : number) : - (4 * beyond) < key x < 4 * beyond.
Proof.
  pose proof (rank_bound x). pose proof beyond_pos.
  unfold key. destruct (Math.is_neg_zero x); lia.
Qed.

Lemma key_min_inj (a b : number) : key_min a = key_min b -> a = b.
Proof.
  unfold key_min. pose proof (key_bound a). pose proof (key_bound b).
  destruct (is_nan a) eqn:Ha, (is_nan b) eqn:Hb; intros K; try lia.
  - apply is_nan_eq in Ha, Hb. congruence.
  - now apply key_inj.
Qed.

Lemma key_max_inj (a b : number) : key_max a = key_max b -> a = b.
Proof.
  unfold key_max. pose proof (key_bound a). pose proof (key_bound b).
  destruct (is_nan a) eqn:Ha, (is_nan b) eqn:Hb; intros K; try lia.
  - apply is_nan_eq in Ha, Hb. congruence.
  - now apply key_inj.
Qed.

Lemma min_by_key_min (a b : number) :
  Math.min a b = if key_min a <=? key_min b then a else b.
Proof.
  unfold key_min. pose proof (key_bound a). pose proof (key_bound b).
  destruct (is_nan a) eqn:Ha, (is_nan b) eqn:Hb.
  - rewrite Z.leb_refl. unfold Math.min. rewrite Ha. cbn [orb]. symmetry. now apply is_nan_eq.
  - destruct (Z.leb_spec (- (4 * beyond)) (key b)); [|lia].
    unfold Math.min. rewrite Ha. cbn [orb]. symmetry. now apply is_nan_eq.
  - destruct (Z.leb_spec (key a) (- (4 * beyond))); [lia|].
    unfold Math.min. rewrite Ha, Hb. cbn [orb]. symmetry. now apply is_nan_eq.
  - now apply min_by_key.
Qed.

Lemma max_by_key_max (a b : number) :
  Math.max a b = if key_max a <=? key_max b then b else a.
Proof.
  unfold key_max. pose proof (key_bound a). pose proof (key_bound b).
  destruct (is_nan a) eqn:Ha, (is_nan b) eqn:Hb.
  - rewrite Z.leb_refl. unfold Math.max. rewrite Ha. cbn [orb]. symmetry. now apply is_nan_eq.
  - destruct (Z.leb_spec (4 * beyond) (key b)); [lia|].
    unfold Math.max. rewrite Ha. cbn [orb]. symmetry. now apply is_nan_eq.
  - destruct (Z.leb_spec (key a) (4 * beyond)); [|lia].
    unfold Math.max. rewrite Ha, Hb. cbn [orb]. symmetry. now apply is_nan_eq.
  - now apply max_by_key.
Qed.

Lemma key_min_min (a b : number) :
  key_min (Math.min a b) = Z.min (key_min a) (key_min b).
Proof.
  rewrite min_by_key_min. destruct (Z.leb_spec (key_min a) (key_min b)); lia.
Qed.

Lemma key_max_max (a b : number) :
  key_max (Math.max a b) = Z.max (key_max a) (key_max b).
Proof.
  rewrite max_by_key_max. destruct (Z.leb_spec (key_max a) (key_max b)); lia.
Qed.

(** [Math.min] and [Math.max] are commutative, associative and idempotent
    on all numbers, NaN and the two zeros included. *)
Lemma min_comm (a b : number) : Math.min a b = Math.min b a.
Proof. apply key_min_inj. rewrite !key_min_min. lia. Qed.

Lemma max_comm (a b : number) : Math.max a b = Math.max b a.
Proof. apply key_max_inj. rewrite !key_max_max. lia. Qed.

Lemma min_assoc (a b c : number) :
  Math.min (Math.min a b) c = Math.min a (Math.min b c).
Proof. apply key_min_inj. rewrite !key_min_min. lia. Qed.

Lemma max_assoc (a b c : number) :
  Math.max (Math.max a b) c = Math.max a (Math.max b c).
Proof. apply key_max_inj. rewrite !key_max_max. lia. Qed.

Lemma min_idem (a : number) : Math.min a a = a.
Proof. apply key_min_inj. rewrite !key_min_min. lia. Qed.

Lemma max_idem (a : number) : Math.max a a = a.
Proof. apply key_max_inj. rewrite !key_max_max. lia. Qed.

Lemma min_Infinity_l (x : number) : Math.min Infinity x = x.
Proof.
  apply key_min_inj. rewrite key_min_min.
  assert (E : key_min Infinity = 2 * beyond) by reflexivity.
  rewrite E. apply Z.min_r.
  unfold key_min. pose proof (key_range x). pose proof beyond_pos.
  destruct (is_nan x); lia.
Qed.

Lemma max_neg_Infinity_l (x : number) : Math.max (- Infinity) x = x.
Proof.
  apply key_max_inj. rewrite key_max_max.
  assert (E : key_max (- Infinity) = 2 * - beyond) by reflexivity.
  rewrite E. apply Z.max_r.
  unfold key_max. pose proof (key_range x). pose proof beyond_pos.
  destruct (is_nan x); lia.
Qed.

End Order.

Lemma ltb_irrefl (x : number) : (x <? x) = false.
Proof.
  rewrite ltb_spec. unfold SFltb.
  destruct (is_nan x) eqn:N.
  - apply is_nan_eq in N. now subst x.
  - rewrite compare_rank by assumption. now rewrite Z.compare_refl.
Qed.

Lemma leb_NaN_l (x : number) : (NaN <=? x) = false.
Proof. rewrite leb_spec. reflexivity. Qed.

Lemma ltb_NaN_l (x : number) : (NaN <? x) = false.
Proof. rewrite ltb_spec. reflexivity. Qed.

Lemma ltb_Infinity_l (x : number) : (Infinity <? x) = false.
Proof.
  rewrite ltb_spec. change (Prim2SF Infinity) with (S754_infinity false).
  now destruct (Prim2SF x) as [s|[|]| |[|] m e].
Qed.

Lemma ltb_neg_Infinity_r (x : number) : (x <? - Infinity) = false.
Proof.
  rewrite ltb_spec. change (Prim2SF (- Infinity)) with (S754_infinity true).
  now destruct (Prim2SF x) as [s|[|]| |[|] m e].
Qed.

Lemma min_NaN_l (x : number) : Math.min NaN x = NaN.
Proof. reflexivity. Qed.

Lemma max_NaN_l (x : number) : Math.max NaN x = NaN.
Proof. reflexivity. Qed.

Lemma min_not_nan (a b : number) :
  is_nan a = false -> is_nan b = false -> is_nan (Math.min a b) = false.
Proof.
  intros Ha Hb. rewrite min_by_key by assumption. now destruct (key a <=? key b)%Z.
Qed.

Lemma max_not_nan (a b : number) :
  is_nan a = false -> is_nan b = false -> is_nan (Math.max a b) = false.
Proof.
  intros Ha Hb. rewrite max_by_key by assumption. now destruct (key a <=? key b)%Z.
Qed.

Lemma key_min_le (a b : number) :
  is_nan a = false -> is_nan b = false ->
  (key (Math.min a b) <= key a /\ key (Math.min a b) <= key b)%Z.
Proof.
  intros Ha Hb. rewrite min_by_key by assumption.
  destruct (Z.leb_spec (key a) (key b)); lia.
Qed.

Lemma key_max_ge (a b : number) :
  is_nan a = false -> is_nan b = false ->
  (key a <= key (Math.max a b) /\ key b <= key (Math.max a b))%Z.
Proof.
  intros Ha Hb. rewrite max_by_key by assumption.
  destruct (Z.leb_spec (key a) (key b)); lia.
Qed.

(** ** Exact identities of binary64 arithmetic *)

Lemma add_comm (x y : number) : x + y = y + x.
Proof.
  apply Prim2SF_inj. rewrite !add_spec. unfold SF64add, SFadd.
  destruct (Prim2SF x) as [[|]|[|]| |sx mx ex], (Prim2SF y) as [[|]|[|]| |sy my ey];
    try reflexivity.
  now rewrite Z.min_comm, Z.add_comm.
Qed.

Lemma mul_comm (x y : number) : x * y = y * x.
Proof.
  apply Prim2SF_inj. rewrite !mul_spec. unfold SF64mul, SFmul.
  destruct (Prim2SF x) as [[|]|[|]| |sx mx ex], (Prim2SF y) as [[|]|[|]| |sy my ey];
    try reflexivity; try (now destruct sx); try (now destruct sy).
  now rewrite xorb_comm, Pos.mul_comm, Z.add_comm.
Qed.

Lemma mul_one_r (x : number) : x * 1 = x.
Proof.
  apply Prim2SF_inj. rewrite mul_spec.
  change (Prim2SF 1) with (S754_finite false 4503599627370496 (-52)).
  pose proof (Prim2SF_valid x) as Vx.
  destruct (Prim2SF x) as [s|s| |s m e]; cbn [SF64mul SFmul]; try reflexivity.
  - now destruct s.
  - now destruct s.
  - unfold SF64mul, SFmul. rewrite xorb_false_r.
    apply bounded_canonical in Vx.
    replace (Zpos (m * 4503599627370496)) with (Zpos m * 2 ^ 52)%Z by reflexivity.
    replace (e + -52)%Z with (e - 52)%Z by lia.
    apply binary_round_aux_exact; [assumption | lia].
Qed.

Lemma mul_one_l (x : number) : 1 * x = x.
Proof. rewrite mul_comm. apply mul_one_r. Qed.

Lemma opp_involutive (x : number) : - - x = x.
Proof.
  apply Prim2SF_inj. rewrite !opp_spec.
  destruct (Prim2SF x) as [s|s| |s m e]; cbn [SFopp]; now rewrite ?negb_involutive.
Qed.

Lemma mul_opp_opp (x y : number) : (- x) * (- y) = x * y.
Proof.
  apply Prim2SF_inj. rewrite !mul_spec, !opp_spec. unfold SF64mul, SFmul, SFopp.
  destruct (Prim2SF x) as [sx|sx| |sx mx ex], (Prim2SF y) as [sy|sy| |sy my ey];
    try reflexivity; now destruct sx, sy.
Qed.

Lemma binary_round_aux_sign (s : bool) (m e : Z) (l : location) :
  match binary_round_aux prec emax s m e l with
  | S754_nan => True
  | S754_zero s' | S754_infinity s' | S754_finite s' _ _ => s' = s
  end.
Proof.
  unfold binary_round_aux.
  destruct (shr_fexp prec emax m e l) as [mrs' e'].
  destruct (shr_fexp prec emax _ e' loc_Exact) as [mrs'' e''].
  destruct (shr_m mrs''); try exact I; try reflexivity.
  now destruct (e'' <=? emax - prec)%Z.
Qed.

Lemma binary_round_sign (s : bool) (m : positive) (e : Z) :
  match binary_round prec emax s m e with
  | S754_nan => True
  | S754_zero s' | S754_infinity s' | S754_finite s' _ _ => s' = s
  end.
Proof.
  unfold binary_round. destruct (shl_align m e _) as [mz ez].
  apply binary_round_aux_sign.
Qed.

Lemma SFunsigned_mul_self (x : spec_float) : SFunsigned (SF64mul x x).
Proof.
  destruct x as [s|s| |s m e]; cbn [SF64mul SFmul SFunsigned];
    try (now destruct s); try exact I.
  unfold SF64mul, SFmul. rewrite xorb_nilpotent.
  pose proof (binary_round_aux_sign false (Zpos (m * m)) (e + e) loc_Exact) as H.
  now destruct (binary_round_aux prec emax false (Zpos (m * m)) (e + e) loc_Exact).
Qed.

Lemma SFunsigned_add (x y : spec_float) :
  SFunsigned x -> SFunsigned y -> SFunsigned (SF64add x y).
Proof.
  destruct x as [sx|sx| |sx mx ex], y as [sy|sy| |sy my ey]; cbn [SFunsigned];
    intros Hx Hy; subst; cbn [SF64add SFadd SFunsigned]; auto.
  unfold SF64add, SFadd. cbn [cond_Zopp].
  set (a := fst (shl_align mx ex (Z.min ex ey))).
  set (b := fst (shl_align my ey (Z.min ex ey))).
  change (Zpos a + Zpos b)%Z with (Zpos (a + b)). cbn [binary_normalize].
  pose proof (binary_round_sign false (a + b) (Z.min ex ey)) as H.
  now destruct (binary_round prec emax false (a + b) (Z.min ex ey)).
Qed.

Lemma SFunsigned_not_below_zero (x : number) :
  SFunsigned (Prim2SF x) -> (x <? 0) = false.
Proof.
  rewrite ltb_spec. change (Prim2SF 0) with (S754_zero false).
  destruct (Prim2SF x) as [s|s| |s m e]; cbn [SFunsigned]; intros H; subst; reflexivity.
Qed.

Lemma SFunsigned_zero_le (x : number) :
  SFunsigned (Prim2SF x) -> is_nan x = false -> (0 <=? x) = true.
Proof.
  rewrite leb_spec, is_nan_spec. change (Prim2SF 0) with (S754_zero false).
  destruct (Prim2SF x) as [s|s| |s m e]; cbn [SFunsigned]; intros H N; subst;
    try reflexivity; discriminate.
Qed.

Lemma binary_round_opp (m : positive) (e : Z) :
  binary_round prec emax true m e = SFopp (binary_round prec emax false m e).
Proof.
  unfold binary_round. destruct (shl_align m e _) as [mz ez].
  unfold binary_round_aux.
  destruct (shr_fexp prec emax (Zpos mz) ez loc_Exact) as [mrs' e'].
  destruct (shr_fexp prec emax _ e' loc_Exact) as [mrs'' e''].
  destruct (shr_m mrs''); try reflexivity.
  now destruct (e'' <=? emax - prec)%Z.
Qed.

Lemma binary_normalize_opp (m e : Z) :
  m <> 0%Z ->
  binary_normalize prec emax (- m) e false =
  SFopp (binary_normalize prec emax m e false).
Proof.
  destruct m as [|p|p]; [congruence| |]; intros _; cbn [Z.opp binary_normalize].
  - apply binary_round_opp.
  - rewrite binary_round_opp.
    destruct (binary_round prec emax false p e) as [s|s| |s m' e']; cbn [SFopp];
      now rewrite ?negb_involutive.
Qed.

Lemma is_zero_spec (x : number) :
  is_zero x = match Prim2SF x with S754_zero _ => true | _ => false end.
Proof.
  unfold is_zero. rewrite FloatAxioms.eqb_spec. change (Prim2SF 0) with (S754_zero false).
  destruct (Prim2SF x) as [s|[|]| |[|] m e]; reflexivity.
Qed.

(** [b - a] is the opposite of [a - b], or both are zeros. *)
Lemma sub_swap (a b : number) :
  b - a = - (a - b) \/ (is_zero (a - b) = true /\ is_zero (b - a) = true).
Proof.
  rewrite !is_zero_spec.
  assert (E : Prim2SF (b - a) = SFopp (Prim2SF (a - b)) \/
              (exists s s', Prim2SF (a - b) = S754_zero s /\ Prim2SF (b - a) = S754_zero s')).
  { rewrite !sub_spec. unfold SF64sub, SFsub.
    destruct (Prim2SF a) as [[|]|[|]| |sa ma ea], (Prim2SF b) as [[|]|[|]| |sb mb eb];
      cbn [SFopp negb]; try (left; reflexivity); try (right; eauto; fail);
      try (left; now rewrite negb_involutive).
    rewrite (Z.min_comm eb ea).
    set (A := cond_Zopp sa (Zpos (fst (shl_align ma ea (Z.min ea eb))))).
    set (B := cond_Zopp sb (Zpos (fst (shl_align mb eb (Z.min ea eb))))).
    destruct (Z.eq_dec (A - B) 0) as [Z0|NZ].
    - right. replace (B - A)%Z with 0%Z by lia. rewrite Z0. cbn. eauto.
    - left. replace (B - A)%Z with (- (A - B))%Z by lia.
      now apply binary_normalize_opp. }
  destruct E as [E|(s & s' & E1 & E2)].
  - left. apply Prim2SF_inj. now rewrite opp_spec.
  - right. now rewrite E1, E2.
Qed.

Lemma mul_zero_zero (a b : number) :
  is_zero a = true -> is_zero b = true -> a * a = b * b.
Proof.
  rewrite !is_zero_spec. intros Ha Hb. apply Prim2SF_inj. rewrite !mul_spec.
  destruct (Prim2SF a) as [[|]|sa| |sa ma ea]; try discriminate;
  destruct (Prim2SF b) as [[|]|sb| |sb mb eb]; try discriminate; reflexivity.
Qed.

Lemma sq_sub_swap (a b : number) : (a - b) * (a - b) = (b - a) * (b - a).
Proof.
  destruct (sub_swap a b) as [->|[Z1 Z2]].
  - now rewrite mul_opp_opp.
  - now apply mul_zero_zero.
Qed.

Lemma mul_zero_finite (z x : number) :
  is_zero z = true -> not_finite x = false -> is_zero (z * x) = true.
Proof.
  rewrite !is_zero_spec, not_finite_spec, mul_spec. unfold SF64mul, SFmul.
  destruct (Prim2SF z) as [sz|sz| |sz mz ez]; try discriminate.
  destruct (Prim2SF x) as [s|s| |s m e]; try discriminate; reflexivity.
Qed.

Lemma mul_zero_not_finite (z x : number) :
  is_zero z = true -> not_finite x = true -> z * x = NaN.
Proof.
  rewrite is_zero_spec, not_finite_spec. intros Hz Hx.
  apply Prim2SF_inj. rewrite mul_spec. unfold SF64mul, SFmul.
  destruct (Prim2SF z) as [sz|sz| |sz mz ez]; try discriminate.
  destruct (Prim2SF x) as [s|s| |s m e]; try discriminate; reflexivity.
Qed.

Lemma zero_times_over_zero (z l w : number) :
  is_zero z = true -> is_zero w = true -> z * (l / w) = NaN.
Proof.
  rewrite !is_zero_spec. intros Hz Hw. apply Prim2SF_inj.
  rewrite mul_spec, div_spec. unfold SF64mul, SFmul, SF64div, SFdiv.
  destruct (Prim2SF z) as [sz|sz| |sz mz ez]; try discriminate.
  destruct (Prim2SF w) as [sw|sw| |sw mw ew]; try discriminate.
  now destruct (Prim2SF l) as [sl|sl| |sl ml el].
Qed.

Lemma add_zero_zero (a b : number) :
  is_zero a = true -> is_zero b = true -> is_zero (a + b) = true.
Proof.
  rewrite !is_zero_spec, add_spec. unfold SF64add, SFadd.
  destruct (Prim2SF a) as [[|]|sz| |sz mz ez]; try discriminate;
  destruct (Prim2SF b) as [[|]|s| |s m e]; try discriminate; reflexivity.
Qed.

Lemma add_zero_r_nonzero (x z : number) :
  is_zero z = true -> is_zero x = false -> x + z = x.
Proof.
  rewrite !is_zero_spec. intros Hz Hx. apply Prim2SF_inj. rewrite add_spec.
  unfold SF64add, SFadd.
  destruct (Prim2SF z) as [sz|sz| |sz mz ez]; try discriminate.
  destruct (Prim2SF x) as [s|[|]| |s m e]; try discriminate; reflexivity.
Qed.

Lemma add_zero_l_nonzero (x z : number) :
  is_zero z = true -> is_zero x = false -> z + x = x.
Proof. intros. rewrite add_comm. now apply add_zero_r_nonzero. Qed.

Lemma add_NaN_l (x : number) : NaN + x = NaN.
Proof. apply Prim2SF_inj. rewrite add_spec. reflexivity. Qed.

Lemma add_NaN_r (x : number) : x + NaN = NaN.
Proof. rewrite add_comm. apply add_NaN_l. Qed.

Lemma div_NaN_r (x : number) : x / NaN = NaN.
Proof.
  apply Prim2SF_inj. rewrite div_spec. change (Prim2SF NaN) with S754_nan.
  unfold SF64div, SFdiv. now destruct (Prim2SF x).
Qed.

Lemma SameValueZero_refl (x : number) : SameValueZero x x = true.
Proof.
  unfold SameValueZero. destruct (is_nan x) eqn:E.
  - now rewrite orb_true_r.
  - now rewrite eqb_refl_not_nan.
Qed.

Lemma SameValueZero_zeros (a b : number) :
  is_zero a = true -> is_zero b = true -> SameValueZero a b = true.
Proof.
  rewrite !is_zero_spec. unfold SameValueZero. rewrite FloatAxioms.eqb_spec.
  destruct (Prim2SF a) as [sa|sa| |sa ma ea]; try discriminate.
  destruct (Prim2SF b) as [sb|sb| |sb mb eb]; try discriminate. reflexivity.
Qed.

(** Adding a zero of either sign gives the same value. *)
Lemma add_zero_r_same (x z : number) :
  is_zero z = true ->
  SameValueZero (x + z) x = true /\ (is_zero x = false -> x + z = x).
Proof.
  intros Hz. split; [|now apply add_zero_r_nonzero].
  destruct (is_zero x) eqn:Hx.
  - apply SameValueZero_zeros; [now apply add_zero_zero | assumption].
  - rewrite add_zero_r_nonzero by assumption. apply SameValueZero_refl.
Qed.

Lemma SameValueZero_trans (a b c : number) :
  SameValueZero a b = true -> SameValueZero b c = true -> SameValueZero a c = true.
Proof.
  unfold SameValueZero. rewrite !is_nan_spec, !FloatAxioms.eqb_spec. unfold SFeqb.
  pose proof (Prim2SF_valid a) as Va. pose proof (Prim2SF_valid b) as Vb.
  pose proof (Prim2SF_valid c) as Vc.
  destruct (Prim2SF a) as [sa|sa| |sa ma ea] eqn:Ea;
  destruct (Prim2SF b) as [sb|sb| |sb mb eb] eqn:Eb;
  destruct (Prim2SF c) as [sc|sc| |sc mc ec] eqn:Ec;
  try reflexivity; try discriminate;
  try (destruct sa, sb; discriminate); try (destruct sb, sc; discriminate);
  try (destruct sa, sb, sc; (discriminate || reflexivity)).
  rewrite !orb_false_r.
  rewrite <- Ea, <- Eb, <- Ec.
  assert (Fa : not_finite a = false) by (now rewrite not_finite_spec, Ea).
  assert (Fb : not_finite b = false) by (now rewrite not_finite_spec, Eb).
  assert (Fc : not_finite c = false) by (now rewrite not_finite_spec, Ec).
  rewrite !compare_scaled by assumption.
  destruct (Z.compare_spec (scaled a) (scaled b)); try discriminate.
  destruct (Z.compare_spec (scaled b) (scaled c)); try discriminate.
  intros _ _. replace (scaled a) with (scaled c) by lia. now rewrite Z.compare_refl.
Qed.

Lemma absorbs_refl (x : number) : absorbs x x.
Proof. split; auto. Qed.

Lemma absorbs_add_r (x a z : number) :
  absorbs x a -> is_zero z = true -> absorbs x (a + z).
Proof.
  intros [N Z] Hz. split; intros Hx.
  - rewrite (N Hx). now apply add_zero_r_nonzero.
  - apply add_zero_zero; auto.
Qed.

Lemma absorbs_add_l (x a z : number) :
  absorbs x a -> is_zero z = true -> absorbs x (z + a).
Proof. intros. rewrite add_comm. now apply absorbs_add_r. Qed.

Lemma mul_neg_one_l (x : number) : -1 * x = - x.
Proof.
  rewrite mul_comm. apply Prim2SF_inj. rewrite mul_spec, (opp_spec x).
  change (Prim2SF (-1)) with (S754_finite true 4503599627370496 (-52)).
  pose proof (Prim2SF_valid x) as Vx.
  destruct (Prim2SF x) as [s|s| |s m e]; cbn [SF64mul SFmul SFopp]; try reflexivity.
  rewrite xorb_true_r. apply bounded_canonical in Vx.
  replace (Zpos (m * 4503599627370496)) with (Zpos m * 2 ^ 52)%Z by reflexivity.
  replace (e + -52)%Z with (e - 52)%Z by lia.
  apply binary_round_aux_exact; [assumption | lia].
Qed.

Lemma is_zero_opp (x : number) : is_zero (- x) = is_zero x.
Proof.
  rewrite !is_zero_spec, opp_spec. now destruct (Prim2SF x).
Qed.

(** Two zeros divided by the same number, itself not zero, give the same
    value: a zero, or NaN. *)
Lemma div_zeros (a x w : number) :
  is_zero a = true -> is_zero x = true -> is_zero w = false ->
  SameValueZero (a / w) (x / w) = true.
Proof.
  rewrite !is_zero_spec. unfold SameValueZero.
  rewrite FloatAxioms.eqb_spec, !is_nan_spec, !div_spec. unfold SF64div, SFdiv.
  destruct (Prim2SF a) as [sa|sa| |sa ma ea]; try discriminate.
  destruct (Prim2SF x) as [sx|sx| |sx mx ex]; try discriminate.
  destruct (Prim2SF w) as [sw|sw| |sw mw ew]; try discriminate; reflexivity.
Qed.

Lemma div_absorbs (x a w : number) :
  absorbs x a -> is_zero w = false -> SameValueZero (a / w) (x / w) = true.
Proof.
  intros [N Z] Hw. destruct (is_zero x) eqn:Zx.
  - apply div_zeros; auto.
  - rewrite (N eq_refl). apply SameValueZero_refl.
Qed.

Lemma absorbs_then_add (t n b : number) : absorbs t n -> absorbs (t + b) (n + b).
Proof.
  intros [N Z]. destruct (is_zero t) eqn:Zt.
  - specialize (Z eq_refl). destruct (is_zero b) eqn:Zb.
    + split; intros E; [|now apply add_zero_zero].
      rewrite (@add_zero_zero t b Zt Zb) in E. discriminate.
    + rewrite (@add_zero_l_nonzero b n Z Zb), (@add_zero_l_nonzero b t Zt Zb).
      apply absorbs_refl.
  - rewrite (N eq_refl). apply absorbs_refl.
Qed.

Lemma sub_zero_r_same (x z : number) :
  is_zero z = true -> SameValueZero (x - z) x = true.
Proof.
  intros Hz. destruct (is_zero x) eqn:Hx.
  - apply SameValueZero_zeros; [|assumption].
    revert Hz Hx. rewrite !is_zero_spec, sub_spec. unfold SF64sub, SFsub.
    destruct (Prim2SF z) as [sz|sz| |sz mz ez]; try discriminate.
    destruct (Prim2SF x) as [[|]|s| |s m e]; try discriminate; destruct sz; reflexivity.
  - replace (x - z) with x; [apply SameValueZero_refl|].
    apply Prim2SF_inj. revert Hz Hx. rewrite !is_zero_spec, sub_spec.
    unfold SF64sub, SFsub.
    destruct (Prim2SF z) as [sz|sz| |sz mz ez]; try discriminate.
    destruct (Prim2SF x) as [s|s| |s m e]; try discriminate; reflexivity.
Qed.

(** ** Flooring *)

Section Floor.

Local Open Scope Z_scope.

Lemma scaled_inj (a b : number) :
  not_finite a = false -> not_finite b = false ->
  scaled a = scaled b -> scaled a <> 0 -> a = b.
Proof.
  rewrite !not_finite_spec. unfold scaled.
  pose proof (Prim2SF_valid a) as Va. pose proof (Prim2SF_valid b) as Vb.
  intros Fa Fb E N. apply Prim2SF_inj.
  destruct (Prim2SF a) as [sa|sa| |sa ma ea]; try discriminate;
    cbn [SFscaled] in N; try congruence.
  destruct (Prim2SF b) as [sb|sb| |sb mb eb]; try discriminate.
  - cbn [SFscaled] in E. congruence.
  - cbn [valid_binary] in *. apply bounded_canonical in Va, Vb.
    now apply SF_finite_unique.
Qed.

(** A number whose value is an integer is its own floor. *)
Lemma floor_fixed (y : number) (n : Z) : is_integer y n -> Math.floor y = y.
Proof.
  intros [Fy Sy]. unfold Math.floor.
  pose proof (Prim2SF_valid y) as Vy.
  destruct (Prim2SF y) as [s|s| |s m e] eqn:Ey; try reflexivity.
  destruct (Z.leb_spec 0 e) as [He|He]; [reflexivity|].
  cbn [valid_binary] in Vy. apply bounded_canonical in Vy.
  destruct (canonical_bounds Vy) as ([L U] & Hm & _).
  pose proof pow2_1074_pos as K.
  assert (Hs : scaled y = cond_Zopp s (Zpos m * 2 ^ (e + 1074))).
  { unfold scaled. now rewrite Ey. }
  assert (Hn : floorZ y = n).
  { rewrite floorZ_scaled, Sy. apply Z.div_mul. lia. }
  rewrite Hn.
  assert (Hpos : 0 < Zpos m * 2 ^ (e + 1074)) by (apply scaled_pos; lia).
  assert (Hlt : Zpos m * 2 ^ (e + 1074) < 2 ^ 53 * 2 ^ 1074).
  { apply Z.lt_le_trans with (2 ^ 53 * 2 ^ (e + 1074)).
    - apply Z.mul_lt_mono_pos_r; [apply pow2_pos; lia | exact Hm].
    - apply Z.mul_le_mono_nonneg_l; [lia|]. apply Z.pow_le_mono_r; lia. }
  assert (Bn : Z.abs n <= 2 ^ 53).
  { rewrite Sy in Hs. destruct s; cbn [cond_Zopp] in Hs; nia. }
  symmetry. apply scaled_inj; auto.
  - now apply finite_Z2F.
  - rewrite scaled_Z2F by assumption. now symmetry.
  - rewrite Hs. destruct s; cbn [cond_Zopp]; lia.
Qed.

Lemma floor_idempotent (x : number) : Math.floor (Math.floor x) = Math.floor x.
Proof.
  destruct (not_finite x) eqn:F.
  - assert (E : Math.floor x = x); [|now rewrite !E].
    unfold Math.floor. rewrite not_finite_spec in F.
    now destruct (Prim2SF x).
  - eapply floor_fixed. now apply floor_is_integer.
Qed.

Lemma floorZ_bracket (x : number) :
  floorZ x * 2 ^ 1074 <= scaled x < (floorZ x + 1) * 2 ^ 1074.
Proof.
  rewrite floorZ_scaled. pose proof pow2_1074_pos as K.
  pose proof (Z.div_mod (scaled x) (2 ^ 1074) ltac:(lia)).
  pose proof (Z.mod_pos_bound (scaled x) (2 ^ 1074) K). lia.
Qed.

Lemma floor_not_finite (x : number) : not_finite x = true -> Math.floor x = x.
Proof.
  rewrite not_finite_spec. unfold Math.floor. now destruct (Prim2SF x).
Qed.

Lemma isInteger_not_finite (x : number) :
  not_finite x = true -> Number.isInteger x = false.
Proof.
  rewrite not_finite_spec. unfold Number.isInteger. now destruct (Prim2SF x).
Qed.

Lemma floor_cases (x : number) (h : heap) : floored x (Math.floor x) h.
Proof.
  split; intros F.
  - pose proof (floor_is_integer x F) as I. split; [exact I|]. split; [apply floorZ_bracket|].
    unfold int. assert (E : Number.isInteger (Math.floor x) = true).
    { apply isInteger_spec. eauto. }
    now rewrite E.
  - rewrite (floor_not_finite x F). split; [reflexivity|].
    unfold int. now rewrite (isInteger_not_finite x F).
Qed.

End Floor.

(** ** Bounding boxes *)

Lemma fold_expand2 (ps : list point2) (x0 y0 x1 y1 : number) :
  fold_left expand2 ps ((x0, y0), (x1, y1)) =
  ((fold_left Math.min (map fst ps) x0, fold_left Math.min (map snd ps) y0),
   (fold_left Math.max (map fst ps) x1, fold_left Math.max (map snd ps) y1)).
Proof.
  revert x0 y0 x1 y1. induction ps as [|[x y] ps IH]; intros; [reflexivity|].
  cbn [fold_left map fst snd expand2]. apply IH.
Qed.

Lemma fold_expand3 (ps : list point3) (x0 y0 z0 x1 y1 z1 : number) :
  fold_left expand3 ps ((x0, y0, z0), (x1, y1, z1)) =
  ((fold_left Math.min (map (fun p => fst (fst p)) ps) x0,
    fold_left Math.min (map (fun p => snd (fst p)) ps) y0,
    fold_left Math.min (map snd ps) z0),
   (fold_left Math.max (map (fun p => fst (fst p)) ps) x1,
    fold_left Math.max (map (fun p => snd (fst p)) ps) y1,
    fold_left Math.max (map snd ps) z1)).
Proof.
  revert x0 y0 z0 x1 y1 z1. induction ps as [|[[x y] z] ps IH]; intros; [reflexivity|].
  cbn [fold_left map fst snd expand3]. apply IH.
Qed.

(** The fold of [Math.min] over numbers none of which is NaN is below its
    start and below each of them. *)
Lemma fold_min_below (xs : list number) :
  forall a, is_nan a = false -> (forall x, In x xs -> is_nan x = false) ->
    is_nan (fold_left Math.min xs a) = false /\
    (key (fold_left Math.min xs a) <= key a)%Z /\
    (forall x, In x xs -> (key (fold_left Math.min xs a) <= key x)%Z).
Proof.
  induction xs as [|x xs IH]; intros a Ha Hxs; cbn [fold_left].
  - split; [assumption|]. split; [lia|]. intros x [].
  - assert (Hx : is_nan x = false) by (apply Hxs; now left).
    destruct (IH (Math.min a x) (min_not_nan a x Ha Hx)) as (N & L & A).
    { intros y Hy. apply Hxs. now right. }
    destruct (key_min_le a x Ha Hx) as [La Lx].
    split; [assumption|]. split; [lia|].
    intros y [<-|Hy]; [lia | now apply A].
Qed.

Lemma fold_max_above (xs : list number) :
  forall a, is_nan a = false -> (forall x, In x xs -> is_nan x = false) ->
    is_nan (fold_left Math.max xs a) = false /\
    (key a <= key (fold_left Math.max xs a))%Z /\
    (forall x, In x xs -> (key x <= key (fold_left Math.max xs a))%Z).
Proof.
  induction xs as [|x xs IH]; intros a Ha Hxs; cbn [fold_left].
  - split; [assumption|]. split; [lia|]. intros x [].
  - assert (Hx : is_nan x = false) by (apply Hxs; now left).
    destruct (IH (Math.max a x) (max_not_nan a x Ha Hx)) as (N & L & A).
    { intros y Hy. apply Hxs. now right. }
    destruct (key_max_ge a x Ha Hx) as [La Lx].
    split; [assumption|]. split; [lia|].
    intros y [<-|Hy]; [lia | now apply A].
Qed.

(** The fold of [Math.min] or [Math.max] is its start or one of the
    numbers, whatever these are. *)
Lemma fold_min_attained (xs : list number) :
  forall a, fold_left Math.min xs a = a \/ In (fold_left Math.min xs a) xs.
Proof.
  induction xs as [|x xs IH]; intros a; cbn [fold_left]; [now left|].
  destruct (IH (Math.min a x)) as [E|I]; [|right; now right].
  rewrite E. rewrite min_by_key_min. destruct (key_min a <=? key_min x)%Z;
    [now left | right; now left].
Qed.

Lemma fold_max_attained (xs : list number) :
  forall a, fold_left Math.max xs a = a \/ In (fold_left Math.max xs a) xs.
Proof.
  induction xs as [|x xs IH]; intros a; cbn [fold_left]; [now left|].
  destruct (IH (Math.max a x)) as [E|I]; [|right; now right].
  rewrite E. rewrite max_by_key_max. destruct (key_max a <=? key_max x)%Z;
    [right; now left | now left].
Qed.

Lemma fold_min_Infinity (xs : list number) :
  xs <> [] -> In (fold_left Math.min xs Infinity) xs.
Proof.
  destruct xs as [|x xs]; [congruence|]. intros _. cbn [fold_left].
  rewrite min_Infinity_l. destruct (fold_min_attained xs x) as [->|I];
    [now left | now right].
Qed.

Lemma fold_max_neg_Infinity (xs : list number) :
  xs <> [] -> In (fold_left Math.max xs (- Infinity)) xs.
Proof.
  destruct xs as [|x xs]; [congruence|]. intros _. cbn [fold_left].
  rewrite max_neg_Infinity_l. destruct (fold_max_attained xs x) as [->|I];
    [now left | now right].
Qed.

Lemma fold_min_leb (xs : list number) (x : number) :
  (forall y, In y xs -> is_nan y = false) -> In x xs ->
  (fold_left Math.min xs Infinity <=? x) = true.
Proof.
  intros Hn Hx. destruct (@fold_min_below xs Infinity eq_refl Hn) as (N & _ & A).
  apply key_le_leb; auto.
Qed.

Lemma fold_max_leb (xs : list number) (x : number) :
  (forall y, In y xs -> is_nan y = false) -> In x xs ->
  (x <=? fold_left Math.max xs (- Infinity)) = true.
Proof.
  intros Hn Hx. destruct (@fold_max_above xs (- Infinity) eq_refl Hn) as (N & _ & A).
  apply key_le_leb; auto.
Qed.

Lemma map_not_nil {A B} (f : A -> B) (l : list A) : l <> [] -> map f l <> [].
Proof. destruct l; [congruence | discriminate]. Qed.

(** [Box2.fromPoints] with a fresh destination: the store it leaves. *)
Lemma Box2_fromPoints_run (h : heap) (Ps : list ref) :
  (forall P, In P Ps -> (P < next h)%nat) ->
  exists B h',
    Box2.fromPoints Ps None h = Ok B h' /\
    (forall r, (r < next h)%nat -> cells h' r = cells h r) /\
    box2_of h' B = fold_left expand2 (map (vec2_of h) Ps) empty2.
Proof.
  intros Hb.
  set (h0 := grow (grow h (holes 2)) (holes 2)).
  set (o := {| P0 := next h; P1 := S (next h) |}).
  assert (N0 : ~ In (P0 o) Ps) by (intros I; apply Hb in I; cbn in I; lia).
  assert (N1 : ~ In (P1 o) Ps) by (intros I; apply Hb in I; cbn in I; lia).
  assert (H01 : P0 o <> P1 o) by (cbn; lia).
  destruct (@Box2_empty_run h0 o H01) as (h1 & E1 & X1 & O1 & B1).
  destruct (@Box2_expandAll_fold Ps h1 (next h) (S (next h)) H01 N0 N1)
    as (h2 & E2 & X2 & O2 & B2).
  assert (F : forall r, (r < next h)%nat -> cells h2 r = cells h r).
  { intros r Hr. rewrite O2, O1 by (cbn; lia).
    unfold h0. now rewrite !cells_grow_old by (cbn [next grow]; lia). }
  exists o, h2. split; [|split; [exact F|]].
  - change (Box2.fromPoints Ps None h) with (Box2.fromPoints Ps (Some o) h0).
    unfold Box2.fromPoints, dest. unfold bind, ret at 1. cbv beta iota.
    rewrite E1. fold o in E2. rewrite E2. reflexivity.
  - fold o in B2. rewrite B2, B1. f_equal. apply map_ext_in. intros Q HQ.
    unfold vec2_of. rewrite O1.
    + unfold h0. apply Hb in HQ. now rewrite !cells_grow_old by (cbn [next grow]; lia).
    + intros ->. tauto.
    + intros ->. tauto.
Qed.

(** X1.  [Box2.fromPoints] around points none of whose coordinates is NaN
    returns their bounding box: the points are left as they are, each of
    them lies within the box, bounds included, and unless there is no
    point each of the four bounds is a coordinate of one of the points. *)
Theorem Box2_fromPoints_bounding_box (h : heap) (Ps : list ref) :
  allocated h Ps ->
  (forall P, In P Ps -> no_NaN2 (vec2_of h P)) ->
  exists B h',
    Box2.fromPoints Ps None h = Ok B h' /\
    (forall P, In P Ps ->
       vec2_of h' P = vec2_of h P /\ within2 (box2_of h' B) (vec2_of h P)) /\
    (Ps <> [] -> attained2 (box2_of h' B) (map (vec2_of h) Ps)).
Proof.
  intros Hb Hn.
  destruct (Box2_fromPoints_run h Ps Hb) as (B & h' & E & F & V).
  exists B, h'. split; [exact E|].
  rewrite V. unfold empty2. rewrite fold_expand2.
  set (ps := map (vec2_of h) Ps).
  assert (N : forall f : point2 -> number,
              (forall p, no_NaN2 p -> is_nan (f p) = false) ->
              forall x, In x (map f ps) -> is_nan x = false).
  { intros f Hf x Hx. apply in_map_iff in Hx. destruct Hx as (p & <- & Hp).
    apply in_map_iff in Hp. destruct Hp as (P & <- & HP). apply Hf. now apply Hn. }
  split.
  - intros P HP. split; [unfold vec2_of; now rewrite F by auto|].
    assert (Ip : In (vec2_of h P) ps) by now apply in_map.
    unfold within2. cbn [fst snd]. repeat split.
    + apply fold_min_leb; [apply N; now intros ? [? ?] | now apply in_map].
    + apply fold_max_leb; [apply N; now intros ? [? ?] | now apply in_map].
    + apply fold_min_leb; [apply N; now intros ? [? ?] | now apply in_map].
    + apply fold_max_leb; [apply N; now intros ? [? ?] | now apply in_map].
  - intros Hne. assert (Hps : ps <> []) by now apply map_not_nil.
    unfold attained2. cbn [fst snd].
    repeat split;
      first [apply fold_min_Infinity | apply fold_max_neg_Infinity];
      now apply map_not_nil.
Qed.

Lemma Box2_fromPoints_bounding_box_witness :
  allocated unit_box_heap [2; 3]%nat /\
  (forall P, In P [2; 3]%nat -> no_NaN2 (vec2_of unit_box_heap P)) /\
  exists B h',
    Box2.fromPoints [2; 3]%nat None unit_box_heap = Ok B h' /\
    (forall P, In P [2; 3]%nat ->
       vec2_of h' P = vec2_of unit_box_heap P /\
       within2 (box2_of h' B) (vec2_of unit_box_heap P)) /\
    ([2; 3]%nat <> [] ->
     attained2 (box2_of h' B) (map (vec2_of unit_box_heap) [2; 3]%nat)).
Proof.
  assert (Ha : allocated unit_box_heap [2; 3]%nat).
  { intros r [<-|[<-|[]]]; cbn; lia. }
  assert (Hn : forall P, In P [2; 3]%nat -> no_NaN2 (vec2_of unit_box_heap P)).
  { intros P [<-|[<-|[]]]; split; reflexivity. }
  split; [exact Ha|]. split; [exact Hn|].
  exact (@Box2_fromPoints_bounding_box unit_box_heap [2; 3]%nat Ha Hn).
Defined.

(** [Box3.fromPoints] with a fresh destination: the store it leaves. *)
Lemma Box3_fromPoints_run (h : heap) (Ps : list ref) :
  (forall P, In P Ps -> (P < next h)%nat) ->
  exists B h',
    Box3.fromPoints Ps None h = Ok B h' /\
    (forall r, (r < next h)%nat -> cells h' r = cells h r) /\
    box3_of h' B = fold_left expand3 (map (vec3_of h) Ps) empty3.
Proof.
  intros Hb.
  set (h0 := extend (extend h [Infinity; Infinity; Infinity])
                    [- Infinity; - Infinity; - Infinity]).
  set (o := {| B3P0 := next h; B3P1 := S (next h) |}).
  assert (N0 : ~ In (B3P0 o) Ps) by (intros I; apply Hb in I; cbn in I; lia).
  assert (N1 : ~ In (B3P1 o) Ps) by (intros I; apply Hb in I; cbn in I; lia).
  assert (H01 : B3P0 o <> B3P1 o) by (cbn; lia).
  destruct (@Box3_expandAll_fold Ps h0 (next h) (S (next h)) H01 N0 N1)
    as (h2 & E2 & X2 & O2 & B2).
  exists o, h2. split; [|split].
  - change (Box3.fromPoints Ps None h) with (Box3.fromPoints Ps (Some o) h0).
    unfold Box3.fromPoints, dest. unfold bind, ret at 1. cbv beta iota.
    fold o in E2. rewrite E2. reflexivity.
  - intros r Hr. rewrite O2 by lia.
    unfold h0. now rewrite !cells_extend_old by (cbn [next extend grow]; lia).
  - fold o in B2. rewrite B2. f_equal.
    + apply map_ext_in. intros Q HQ. apply Hb in HQ.
      unfold vec3_of, h0. now rewrite !cells_extend_old by (cbn [next extend grow]; lia).
    + unfold box3_of, vec3_of, h0, o. cbn [B3P0 B3P1].
      rewrite cells_extend_new.
      rewrite cells_extend_old by (cbn [next extend grow]; lia).
      rewrite cells_extend_new. reflexivity.
Qed.

(** X2.  [Box3.fromPoints] without a destination, around points none of
    whose coordinates is NaN, returns their bounding box: the points are
    left as they are, each of them lies within the box, bounds included,
    and unless there is no point each of the six bounds is a coordinate
    of one of the points. *)
Theorem Box3_fromPoints_bounding_box (h : heap) (Ps : list ref) :
  allocated h Ps ->
  (forall P, In P Ps -> no_NaN3 (vec3_of h P)) ->
  exists B h',
    Box3.fromPoints Ps None h = Ok B h' /\
    (forall P, In P Ps ->
       vec3_of h' P = vec3_of h P /\ within3 (box3_of h' B) (vec3_of h P)) /\
    (Ps <> [] -> attained3 (box3_of h' B) (map (vec3_of h) Ps)).
Proof.
  intros Hb Hn.
  destruct (Box3_fromPoints_run h Ps Hb) as (B & h' & E & F & V).
  exists B, h'. split; [exact E|].
  rewrite V. unfold empty3. rewrite fold_expand3.
  set (ps := map (vec3_of h) Ps).
  assert (N : forall f : point3 -> number,
              (forall p, no_NaN3 p -> is_nan (f p) = false) ->
              forall x, In x (map f ps) -> is_nan x = false).
  { intros f Hf x Hx. apply in_map_iff in Hx. destruct Hx as (p & <- & Hp).
    apply in_map_iff in Hp. destruct Hp as (P & <- & HP). apply Hf. now apply Hn. }
  split.
  - intros P HP. split; [unfold vec3_of; now rewrite F by auto|].
    assert (Ip : In (vec3_of h P) ps) by now apply in_map.
    unfold within3, x3, y3, z3. cbn [fst snd]. repeat split.
    + apply fold_min_leb; [apply N; now intros ? (? & ? & ?) |].
      now apply (in_map (fun p : point3 => fst (fst p))).
    + apply fold_max_leb; [apply N; now intros ? (? & ? & ?) |].
      now apply (in_map (fun p : point3 => fst (fst p))).
    + apply fold_min_leb; [apply N; now intros ? (? & ? & ?) |].
      now apply (in_map (fun p : point3 => snd (fst p))).
    + apply fold_max_leb; [apply N; now intros ? (? & ? & ?) |].
      now apply (in_map (fun p : point3 => snd (fst p))).
    + apply fold_min_leb; [apply N; now intros ? (? & ? & ?) | now apply in_map].
    + apply fold_max_leb; [apply N; now intros ? (? & ? & ?) | now apply in_map].
  - intros Hne. assert (Hps : ps <> []) by now apply map_not_nil.
    unfold attained3, x3, y3, z3. cbn [fst snd].
    repeat split;
      first [apply fold_min_Infinity | apply fold_max_neg_Infinity];
      now apply map_not_nil.
Qed.

Lemma Box3_fromPoints_bounding_box_witness :
  allocated box3_heap [0; 1]%nat /\
  (forall P, In P [0; 1]%nat -> no_NaN3 (vec3_of box3_heap P)) /\
  exists B h',
    Box3.fromPoints [0; 1]%nat None box3_heap = Ok B h' /\
    (forall P, In P [0; 1]%nat ->
       vec3_of h' P = vec3_of box3_heap P /\
       within3 (box3_of h' B) (vec3_of box3_heap P)) /\
    ([0; 1]%nat <> [] ->
     attained3 (box3_of h' B) (map (vec3_of box3_heap) [0; 1]%nat)).
Proof.
  assert (Ha : allocated box3_heap [0; 1]%nat).
  { intros r [<-|[<-|[]]]; cbn; lia. }
  assert (Hn : forall P, In P [0; 1]%nat -> no_NaN3 (vec3_of box3_heap P)).
  { intros P [<-|[<-|[]]]; repeat split; reflexivity. }
  split; [exact Ha|]. split; [exact Hn|].
  exact (@Box3_fromPoints_bounding_box box3_heap [0; 1]%nat Ha Hn).
Defined.

(** ** The set of the points *)

Section Members.
Local Open Scope Z_scope.

Lemma fold_min_least (xs : list number) :
  forall a,
    key_min (fold_left Math.min xs a) <= key_min a /\
    forall x, In x xs -> key_min (fold_left Math.min xs a) <= key_min x.
Proof.
  induction xs as [|x xs IH]; intros a; cbn [fold_left].
  - split; [lia | intros x []].
  - destruct (IH (Math.min a x)) as [L A]. rewrite key_min_min in L.
    split; [lia|]. intros y [<-|Hy]; [lia | now apply A].
Qed.

Lemma fold_max_greatest (xs : list number) :
  forall a,
    key_max a <= key_max (fold_left Math.max xs a) /\
    forall x, In x xs -> key_max x <= key_max (fold_left Math.max xs a).
Proof.
  induction xs as [|x xs IH]; intros a; cbn [fold_left].
  - split; [lia | intros x []].
  - destruct (IH (Math.max a x)) as [L A]. rewrite key_max_max in L.
    split; [lia|]. intros y [<-|Hy]; [lia | now apply A].
Qed.

Lemma fold_min_members (xs ys : list number) (a : number) :
  (forall x, In x xs <-> In x ys) ->
  fold_left Math.min xs a = fold_left Math.min ys a.
Proof.
  intros E. apply key_min_inj.
  destruct (fold_min_least xs a) as [Lx Ax], (fold_min_least ys a) as [Ly Ay].
  destruct (fold_min_attained xs a) as [Ex|Ix], (fold_min_attained ys a) as [Ey|Iy].
  - now rewrite Ex, Ey.
  - apply E in Iy. specialize (Ax _ Iy). rewrite Ex in *. lia.
  - apply E in Ix. specialize (Ay _ Ix). rewrite Ey in *. lia.
  - apply E in Ix. apply E in Iy. specialize (Ax _ Iy). specialize (Ay _ Ix). lia.
Qed.

Lemma fold_max_members (xs ys : list number) (a : number) :
  (forall x, In x xs <-> In x ys) ->
  fold_left Math.max xs a = fold_left Math.max ys a.
Proof.
  intros E. apply key_max_inj.
  destruct (fold_max_greatest xs a) as [Lx Ax], (fold_max_greatest ys a) as [Ly Ay].
  destruct (fold_max_attained xs a) as [Ex|Ix], (fold_max_attained ys a) as [Ey|Iy].
  - now rewrite Ex, Ey.
  - apply E in Iy. specialize (Ax _ Iy). rewrite Ex in *. lia.
  - apply E in Ix. specialize (Ay _ Ix). rewrite Ey in *. lia.
  - apply E in Ix. apply E in Iy. specialize (Ax _ Iy). specialize (Ay _ Ix). lia.
Qed.

End Members.

Lemma map_members {A B} (f : A -> B) (l l' : list A) :
  (forall x, In x l <-> In x l') -> forall y, In y (map f l) <-> In y (map f l').
Proof.
  intros E y. rewrite !in_map_iff. split; intros (x & <- & Hx); exists x;
    (split; [reflexivity | now apply E]).
Qed.

Lemma fold_expand2_members (ps qs : list point2) :
  (forall p, In p ps <-> In p qs) ->
  fold_left expand2 ps empty2 = fold_left expand2 qs empty2.
Proof.
  intros E. unfold empty2. rewrite !fold_expand2.
  now rewrite (fold_min_members (map fst ps) (map fst qs)),
    (fold_min_members (map snd ps) (map snd qs)),
    (fold_max_members (map fst ps) (map fst qs)),
    (fold_max_members (map snd ps) (map snd qs)) by now apply map_members.
Qed.

Lemma fold_expand3_members (ps qs : list point3) :
  (forall p, In p ps <-> In p qs) ->
  fold_left expand3 ps empty3 = fold_left expand3 qs empty3.
Proof.
  intros E. unfold empty3. rewrite !fold_expand3.
  now rewrite
    (fold_min_members (map (fun p => fst (fst p)) ps) (map (fun p => fst (fst p)) qs)),
    (fold_min_members (map (fun p => snd (fst p)) ps) (map (fun p => snd (fst p)) qs)),
    (fold_min_members (map snd ps) (map snd qs)),
    (fold_max_members (map (fun p => fst (fst p)) ps) (map (fun p => fst (fst p)) qs)),
    (fold_max_members (map (fun p => snd (fst p)) ps) (map (fun p => snd (fst p)) qs)),
    (fold_max_members (map snd ps) (map snd qs)) by now apply map_members.
Qed.

(** X3.  The box that [Box2.fromPoints] or [Box3.fromPoints] returns
    depends only on which points the list holds: two lists with the same
    points, in any order and however often each is repeated, NaN
    coordinates and zeros of either sign included, give boxes with
    identical bounds. *)
Theorem fromPoints_depends_on_the_set (h : heap) (Ps Qs : list ref) :
  allocated h Ps -> allocated h Qs ->
  ((forall p, In p (map (vec2_of h) Ps) <-> In p (map (vec2_of h) Qs)) ->
   exists B h1 C h2,
     Box2.fromPoints Ps None h = Ok B h1 /\
     Box2.fromPoints Qs None h = Ok C h2 /\
     box2_of h1 B = box2_of h2 C) /\
  ((forall p, In p (map (vec3_of h) Ps) <-> In p (map (vec3_of h) Qs)) ->
   exists B h1 C h2,
     Box3.fromPoints Ps None h = Ok B h1 /\
     Box3.fromPoints Qs None h = Ok C h2 /\
     box3_of h1 B = box3_of h2 C).
Proof.
  intros HP HQ. split; intros Same.
  - destruct (Box2_fromPoints_run h Ps HP) as (B & h1 & E1 & _ & V1).
    destruct (Box2_fromPoints_run h Qs HQ) as (C & h2 & E2 & _ & V2).
    exists B, h1, C, h2. split; [exact E1|]. split; [exact E2|].
    rewrite V1, V2. now apply fold_expand2_members.
  - destruct (Box3_fromPoints_run h Ps HP) as (B & h1 & E1 & _ & V1).
    destruct (Box3_fromPoints_run h Qs HQ) as (C & h2 & E2 & _ & V2).
    exists B, h1, C, h2. split; [exact E1|]. split; [exact E2|].
    rewrite V1, V2. now apply fold_expand3_members.
Qed.

Lemma fromPoints_depends_on_the_set_witness :
  allocated box3_heap [0; 1]%nat /\ allocated box3_heap [1; 0; 1]%nat /\
  (forall p, In p (map (vec2_of box3_heap) [0; 1]%nat) <->
             In p (map (vec2_of box3_heap) [1; 0; 1]%nat)) /\
  (forall p, In p (map (vec3_of box3_heap) [0; 1]%nat) <->
             In p (map (vec3_of box3_heap) [1; 0; 1]%nat)) /\
  ((forall p, In p (map (vec2_of box3_heap) [0; 1]%nat) <->
              In p (map (vec2_of box3_heap) [1; 0; 1]%nat)) ->
   exists B h1 C h2,
     Box2.fromPoints [0; 1]%nat None box3_heap = Ok B h1 /\
     Box2.fromPoints [1; 0; 1]%nat None box3_heap = Ok C h2 /\
     box2_of h1 B = box2_of h2 C) /\
  ((forall p, In p (map (vec3_of box3_heap) [0; 1]%nat) <->
              In p (map (vec3_of box3_heap) [1; 0; 1]%nat)) ->
   exists B h1 C h2,
     Box3.fromPoints [0; 1]%nat None box3_heap = Ok B h1 /\
     Box3.fromPoints [1; 0; 1]%nat None box3_heap = Ok C h2 /\
     box3_of h1 B = box3_of h2 C).
Proof.
  assert (Ha : allocated box3_heap [0; 1]%nat).
  { intros r [<-|[<-|[]]]; cbn; lia. }
  assert (Hb : allocated box3_heap [1; 0; 1]%nat).
  { intros r [<-|[<-|[<-|[]]]]; cbn; lia. }
  split; [exact Ha|]. split; [exact Hb|].
  split; [intros p; cbn [map In]; tauto|].
  split; [intros p; cbn [map In]; tauto|].
  exact (@fromPoints_depends_on_the_set box3_heap [0; 1]%nat [1; 0; 1]%nat Ha Hb).
Defined.

(** ** Points with a NaN coordinate *)

Lemma containsInEx_run (h : heap) (B : Box2) (P : ref) :
  Box2.containsInEx B P h =
  Ok ((arr_get (cells h (P0 B)) 0 <=? arr_get (cells h P) 0) &&
      ((arr_get (cells h P) 0 <? arr_get (cells h (P1 B)) 0) &&
       ((arr_get (cells h (P0 B)) 1 <=? arr_get (cells h P) 1) &&
        (arr_get (cells h P) 1 <? arr_get (cells h (P1 B)) 1)))) h.
Proof.
  cbv [Box2.containsInEx bind get Box2.and_then ret].
  repeat (match goal with
          | |- context [if ?c then _ else _] => destruct c
          end; cbv beta);
    reflexivity.
Qed.

Lemma fold_min_NaN (xs : list number) : fold_left Math.min xs NaN = NaN.
Proof. induction xs; cbn [fold_left]; [reflexivity | now rewrite min_NaN_l]. Qed.

Lemma fold_max_NaN (xs : list number) : fold_left Math.max xs NaN = NaN.
Proof. induction xs; cbn [fold_left]; [reflexivity | now rewrite max_NaN_l]. Qed.

Lemma fold_min_poisoned (xs : list number) :
  forall a, In NaN xs -> fold_left Math.min xs a = NaN.
Proof.
  induction xs as [|x xs IH]; intros a; cbn [fold_left In]; [tauto|].
  intros [->|I]; [|now apply IH].
  rewrite (min_comm a NaN), min_NaN_l. apply fold_min_NaN.
Qed.

Lemma fold_max_poisoned (xs : list number) :
  forall a, In NaN xs -> fold_left Math.max xs a = NaN.
Proof.
  induction xs as [|x xs IH]; intros a; cbn [fold_left In]; [tauto|].
  intros [->|I]; [|now apply IH].
  rewrite (max_comm a NaN), max_NaN_l. apply fold_max_NaN.
Qed.

(** X4.  One point with a NaN coordinate turns both bounds of the box on
    that axis into NaN, whatever the other points are, and the box that
    [Box2.fromPoints] returns then contains no point at all under
    [Box2.containsInEx]. *)
Theorem Box2_fromPoints_NaN (h : heap) (Ps : list ref) (N : ref) :
  allocated h Ps ->
  In N Ps ->
  is_nan (fst (vec2_of h N)) = true \/ is_nan (snd (vec2_of h N)) = true ->
  exists B h',
    Box2.fromPoints Ps None h = Ok B h' /\
    (is_nan (fst (vec2_of h N)) = true ->
       fst (fst (box2_of h' B)) = NaN /\ fst (snd (box2_of h' B)) = NaN) /\
    (is_nan (snd (vec2_of h N)) = true ->
       snd (fst (box2_of h' B)) = NaN /\ snd (snd (box2_of h' B)) = NaN) /\
    (forall Q, Box2.containsInEx B Q h' = Ok false h').
Proof.
  intros Hb HN Hnan.
  destruct (Box2_fromPoints_run h Ps Hb) as (B & h' & E & F & V).
  exists B, h'. split; [exact E|].
  assert (X : is_nan (fst (vec2_of h N)) = true ->
              fst (fst (box2_of h' B)) = NaN /\ fst (snd (box2_of h' B)) = NaN).
  { intros Hx. apply is_nan_eq in Hx.
    rewrite V. unfold empty2. rewrite fold_expand2. cbn [fst snd]. rewrite !map_map.
    assert (I : In NaN (map (fun P => fst (vec2_of h P)) Ps)).
    { apply in_map_iff. eauto. }
    split; [now apply fold_min_poisoned | now apply fold_max_poisoned]. }
  assert (Y : is_nan (snd (vec2_of h N)) = true ->
              snd (fst (box2_of h' B)) = NaN /\ snd (snd (box2_of h' B)) = NaN).
  { intros Hy. apply is_nan_eq in Hy.
    rewrite V. unfold empty2. rewrite fold_expand2. cbn [fst snd]. rewrite !map_map.
    assert (I : In NaN (map (fun P => snd (vec2_of h P)) Ps)).
    { apply in_map_iff. eauto. }
    split; [now apply fold_min_poisoned | now apply fold_max_poisoned]. }
  split; [exact X|]. split; [exact Y|].
  intros Q. rewrite containsInEx_run. f_equal.
  unfold box2_of, vec2_of in X, Y. cbn [fst snd] in X, Y.
  destruct Hnan as [Hx|Hy].
  - destruct (X Hx) as [-> _]. now rewrite leb_NaN_l.
  - destruct (Y Hy) as [-> _]. rewrite leb_NaN_l. now rewrite !andb_false_r.
Qed.

Lemma Box2_fromPoints_NaN_witness :
  allocated nan_heap [0; 1]%nat /\
  In 1%nat [0; 1]%nat /\
  (is_nan (fst (vec2_of nan_heap 1)) = true \/
   is_nan (snd (vec2_of nan_heap 1)) = true) /\
  exists B h',
    Box2.fromPoints [0; 1]%nat None nan_heap = Ok B h' /\
    (is_nan (fst (vec2_of nan_heap 1)) = true ->
       fst (fst (box2_of h' B)) = NaN /\ fst (snd (box2_of h' B)) = NaN) /\
    (is_nan (snd (vec2_of nan_heap 1)) = true ->
       snd (fst (box2_of h' B)) = NaN /\ snd (snd (box2_of h' B)) = NaN) /\
    (forall Q, Box2.containsInEx B Q h' = Ok false h').
Proof.
  assert (Ha : allocated nan_heap [0; 1]%nat).
  { intros r [<-|[<-|[]]]; cbn; lia. }
  split; [exact Ha|]. split; [right; now left|]. split; [left; reflexivity|].
  exact (@Box2_fromPoints_NaN nan_heap [0; 1]%nat 1%nat Ha
           (or_intror (or_introl eq_refl)) (or_introl eq_refl)).
Defined.

(** ** The upper bounds are exclusive *)

(** X5.  [Box2.containsInEx] excludes the upper bounds, so the box that
    [Box2.fromPoints] builds around a non-empty list of points never
    contains all of them: a point that attains the upper bound on the
    first axis exists and is reported as outside. *)
Theorem bounding_box_excludes_a_point (h : heap) (Ps : list ref) :
  allocated h Ps ->
  Ps <> [] ->
  exists B h',
    Box2.fromPoints Ps None h = Ok B h' /\
    exists P, In P Ps /\
              arr_get (cells h P) 0 = arr_get (cells h' (P1 B)) 0 /\
              Box2.containsInEx B P h' = Ok false h'.
Proof.
  intros Hb Hne.
  destruct (Box2_fromPoints_run h Ps Hb) as (B & h' & E & F & V).
  exists B, h'. split; [exact E|].
  assert (X : In (fst (snd (box2_of h' B))) (map (fun P => fst (vec2_of h P)) Ps)).
  { rewrite V. unfold empty2. rewrite fold_expand2. cbn [fst snd]. rewrite map_map.
    apply fold_max_neg_Infinity. now apply map_not_nil. }
  apply in_map_iff in X. destruct X as (P & EP & HP).
  unfold box2_of, vec2_of in EP. cbn [fst snd] in EP.
  exists P. split; [exact HP|]. split; [exact EP|].
  rewrite containsInEx_run. rewrite (F P (Hb P HP)), EP, ltb_irrefl.
  now rewrite andb_false_r.
Qed.

Lemma bounding_box_excludes_a_point_witness :
  allocated unit_box_heap [2; 3]%nat /\
  [2; 3]%nat <> [] /\
  exists B h',
    Box2.fromPoints [2; 3]%nat None unit_box_heap = Ok B h' /\
    exists P, In P [2; 3]%nat /\
              arr_get (cells unit_box_heap P) 0 = arr_get (cells h' (P1 B)) 0 /\
              Box2.containsInEx B P h' = Ok false h'.
Proof.
  assert (Ha : allocated unit_box_heap [2; 3]%nat).
  { intros r [<-|[<-|[]]]; cbn; lia. }
  assert (Hne : [2; 3]%nat <> []) by discriminate.
  split; [exact Ha|]. split; [exact Hne|].
  exact (@bounding_box_excludes_a_point unit_box_heap [2; 3]%nat Ha Hne).
Defined.

(** ** Boxes around boxes *)

Lemma Box2_expandByBox_step (h : heap) (p0 p1 : ref) (C : Box2) :
  p0 <> p1 -> P0 C <> p0 -> P0 C <> p1 -> P1 C <> p0 -> P1 C <> p1 ->
  exists h',
    Box2.expandByBox {| P0 := p0; P1 := p1 |} C h = Ok tt h' /\
    next h' = next h /\
    (forall r, r <> p0 -> r <> p1 -> cells h' r = cells h r) /\
    box2_of h' {| P0 := p0; P1 := p1 |} =
    union2 (box2_of h {| P0 := p0; P1 := p1 |}) (box2_of h C).
Proof.
  intros H01 H1 H2 H3 H4. destruct C as [c0 c1]. cbn [P0 P1] in *.
  unfold Box2.expandByBox, Vec2.min, Vec2.max, dest, bind, ret, get, set. cbn [P0 P1].
  eexists. split; [reflexivity|]. split; [reflexivity|]. split.
  - intros r R0 R1. now repeat heap_step.
  - unfold box2_of, vec2_of, union2. cbn [P0 P1].
    repeat heap_step; try reflexivity; congruence.
Qed.

Lemma Box2_expandByBoxes_fold (Cs : list Box2) :
  forall (h : heap) (p0 p1 : ref),
    p0 <> p1 -> (forall C, In C Cs -> apart {| P0 := p0; P1 := p1 |} C) ->
    exists h',
      forOf Cs (fun C => Box2.expandByBox {| P0 := p0; P1 := p1 |} C) h = Ok tt h' /\
      next h' = next h /\
      (forall r, r <> p0 -> r <> p1 -> cells h' r = cells h r) /\
      box2_of h' {| P0 := p0; P1 := p1 |} =
      fold_left union2 (map (box2_of h) Cs) (box2_of h {| P0 := p0; P1 := p1 |}).
Proof.
  induction Cs as [|C Cs IH]; intros h p0 p1 H01 Ha; cbn [forOf map fold_left].
  - exists h. repeat split; auto.
  - destruct (Ha C (or_introl eq_refl)) as (A1 & A2 & A3 & A4). cbn [P0 P1] in *.
    destruct (@Box2_expandByBox_step h p0 p1 C H01 A1 A2 A3 A4) as (h1 & E1 & X1 & O1 & B1).
    destruct (IH h1 p0 p1 H01) as (h2 & E2 & X2 & O2 & B2).
    { intros D HD. apply Ha. now right. }
    exists h2. split; [|split; [congruence|split]].
    + unfold bind at 1. rewrite E1. exact E2.
    + intros r R0 R1. rewrite O2, O1; auto.
    + rewrite B2, B1. f_equal.
      apply map_ext_in. intros D HD.
      destruct (Ha D (or_intror HD)) as (D1 & D2 & D3 & D4). cbn [P0 P1] in *.
      unfold box2_of, vec2_of. now rewrite !O1 by assumption.
Qed.

Lemma Box2_wrapping_run (h : heap) (Bs : list Box2) :
  (forall B, In B Bs -> (P0 B < next h)%nat /\ (P1 B < next h)%nat) ->
  exists W h',
    Box2.wrapping Bs None h = Ok W h' /\
    (forall r, (r < next h)%nat -> cells h' r = cells h r) /\
    box2_of h' W = fold_left union2 (map (box2_of h) Bs) empty2.
Proof.
  intros Hb.
  set (h0 := grow (grow h (holes 2)) (holes 2)).
  set (o := {| P0 := next h; P1 := S (next h) |}).
  assert (H01 : P0 o <> P1 o) by (cbn; lia).
  assert (Ha : forall C, In C Bs -> apart o C).
  { intros C HC. destruct (Hb C HC). unfold apart, o. cbn [P0 P1]. lia. }
  destruct (@Box2_empty_run h0 o H01) as (h1 & E1 & X1 & O1 & B1).
  destruct (@Box2_expandByBoxes_fold Bs h1 (next h) (S (next h)) H01 Ha)
    as (h2 & E2 & X2 & O2 & B2).
  assert (F1 : forall r, (r < next h)%nat -> cells h1 r = cells h r).
  { intros r Hr. rewrite O1 by (cbn; lia).
    unfold h0. now rewrite !cells_grow_old by (cbn [next grow]; lia). }
  exists o, h2. split; [|split].
  - change (Box2.wrapping Bs None h) with (Box2.wrapping Bs (Some o) h0).
    unfold Box2.wrapping, dest. unfold bind, ret at 1. cbv beta iota.
    rewrite E1. fold o in E2. rewrite E2. reflexivity.
  - intros r Hr. rewrite O2 by lia. now apply F1.
  - fold o in B2. rewrite B2, B1. f_equal. apply map_ext_in. intros C HC.
    destruct (Hb C HC). unfold box2_of, vec2_of. now rewrite !F1 by assumption.
Qed.

Lemma fold_union2 (cs : list (point2 * point2)) (x0 y0 x1 y1 : number) :
  fold_left union2 cs ((x0, y0), (x1, y1)) =
  ((fold_left Math.min (map (fun c => fst (fst c)) cs) x0,
    fold_left Math.min (map (fun c => snd (fst c)) cs) y0),
   (fold_left Math.max (map (fun c => fst (snd c)) cs) x1,
    fold_left Math.max (map (fun c => snd (snd c)) cs) y1)).
Proof.
  revert x0 y0 x1 y1. induction cs as [|[[a b] [c d]] cs IH]; intros; [reflexivity|].
  cbn [fold_left map fst snd union2]. apply IH.
Qed.

Lemma fold_union2_members (bs cs : list (point2 * point2)) :
  (forall b, In b bs <-> In b cs) ->
  fold_left union2 bs empty2 = fold_left union2 cs empty2.
Proof.
  intros E. unfold empty2. rewrite !fold_union2.
  now rewrite
    (fold_min_members (map (fun c => fst (fst c)) bs) (map (fun c => fst (fst c)) cs)),
    (fold_min_members (map (fun c => snd (fst c)) bs) (map (fun c => snd (fst c)) cs)),
    (fold_max_members (map (fun c => fst (snd c)) bs) (map (fun c => fst (snd c)) cs)),
    (fold_max_members (map (fun c => snd (snd c)) bs) (map (fun c => snd (snd c)) cs))
    by now apply map_members.
Qed.

(** X6.  [Box2.wrapping] returns the box around a list of boxes and leaves
    them as they are: around no box it is the empty box, around one box
    it has the bounds of that box, around boxes with no NaN bound it
    encloses each of them, and it depends only on which bounds occur
    among the boxes, not on their order or on how often one occurs. *)
Theorem Box2_wrapping_encloses (h : heap) (Bs : list Box2) :
  (forall B, In B Bs -> (P0 B < next h)%nat /\ (P1 B < next h)%nat) ->
  exists W h',
    Box2.wrapping Bs None h = Ok W h' /\
    (forall B, In B Bs -> box2_of h' B = box2_of h B) /\
    (Bs = [] -> box2_of h' W = empty2) /\
    (forall B, Bs = [B] -> box2_of h' W = box2_of h B) /\
    ((forall B, In B Bs -> no_NaN (box2_of h B)) ->
     forall B, In B Bs -> encloses (box2_of h' W) (box2_of h B)) /\
    (forall Cs, (forall C, In C Cs -> (P0 C < next h)%nat /\ (P1 C < next h)%nat) ->
       (forall b, In b (map (box2_of h) Bs) <-> In b (map (box2_of h) Cs)) ->
       exists V h2, Box2.wrapping Cs None h = Ok V h2 /\ box2_of h2 V = box2_of h' W).
Proof.
  intros Hb. destruct (Box2_wrapping_run h Bs Hb) as (W & h' & E & F & V).
  exists W, h'. split; [exact E|]. split; [|split; [|split; [|split]]].
  - intros B HB. destruct (Hb B HB). unfold box2_of, vec2_of. now rewrite !F.
  - intros ->. exact V.
  - intros B ->. rewrite V. cbn [map fold_left]. unfold empty2.
    destruct (box2_of h B) as [[a b] [c d]]. cbn [union2].
    now rewrite !min_Infinity_l, !max_neg_Infinity_l.
  - intros Hn B HB. rewrite V. unfold empty2. rewrite fold_union2.
    unfold encloses. cbn [fst snd].
    assert (N : forall f : point2 * point2 -> number,
                (forall b, no_NaN b -> is_nan (f b) = false) ->
                forall x, In x (map f (map (box2_of h) Bs)) -> is_nan x = false).
    { intros f Hf x Hx. apply in_map_iff in Hx. destruct Hx as (b & <- & Hx).
      apply in_map_iff in Hx. destruct Hx as (C & <- & HC). apply Hf. now apply Hn. }
    assert (I : forall f : point2 * point2 -> number,
                In (f (box2_of h B)) (map f (map (box2_of h) Bs))).
    { intros f. apply in_map. now apply in_map. }
    repeat split.
    + apply fold_min_leb; [apply N; now intros ? (?&?&?&?) |].
      apply (I (fun c => fst (fst c))).
    + apply fold_min_leb; [apply N; now intros ? (?&?&?&?) |].
      apply (I (fun c => snd (fst c))).
    + apply fold_max_leb; [apply N; now intros ? (?&?&?&?) |].
      apply (I (fun c => fst (snd c))).
    + apply fold_max_leb; [apply N; now intros ? (?&?&?&?) |].
      apply (I (fun c => snd (snd c))).
  - intros Cs Hc Perm. destruct (Box2_wrapping_run h Cs Hc) as (V2 & h2 & E2 & _ & W2).
    exists V2, h2. split; [exact E2|]. rewrite W2, V. symmetry.
    now apply fold_union2_members.
Qed.

Lemma Box2_wrapping_encloses_witness :
  (forall B, In B [unit_box; second_box] ->
     (P0 B < next unit_box_heap)%nat /\ (P1 B < next unit_box_heap)%nat) /\
  exists W h',
    Box2.wrapping [unit_box; second_box] None unit_box_heap = Ok W h' /\
    (forall B, In B [unit_box; second_box] ->
       box2_of h' B = box2_of unit_box_heap B) /\
    ([unit_box; second_box] = [] -> box2_of h' W = empty2) /\
    (forall B, [unit_box; second_box] = [B] ->
       box2_of h' W = box2_of unit_box_heap B) /\
    ((forall B, In B [unit_box; second_box] -> no_NaN (box2_of unit_box_heap B)) ->
     forall B, In B [unit_box; second_box] ->
       encloses (box2_of h' W) (box2_of unit_box_heap B)) /\
    (forall Cs,
       (forall C, In C Cs ->
          (P0 C < next unit_box_heap)%nat /\ (P1 C < next unit_box_heap)%nat) ->
       (forall b, In b (map (box2_of unit_box_heap) [unit_box; second_box]) <->
                  In b (map (box2_of unit_box_heap) Cs)) ->
       exists V h2, Box2.wrapping Cs None unit_box_heap = Ok V h2 /\
                    box2_of h2 V = box2_of h' W).
Proof.
  assert (Hb : forall B, In B [unit_box; second_box] ->
             (P0 B < next unit_box_heap)%nat /\ (P1 B < next unit_box_heap)%nat).
  { intros B [<-|[<-|[]]]; cbn; lia. }
  split; [exact Hb|].
  exact (@Box2_wrapping_encloses unit_box_heap [unit_box; second_box] Hb).
Defined.

(** ** The empty box *)

Lemma Box2_empty_upper (h : heap) (d : option Box2) :
  exists B h',
    Box2.empty d h = Ok B h' /\
    arr_get (cells h' (P1 B)) 0 = - Infinity.
Proof.
  destruct d as [[p0 p1]|];
    unfold Box2.empty, Box2.uninitialized, Vec2.uniform, Vec2.uninitialized,
      dest, bind, ret, set, alloc; cbn [P0 P1];
    do 2 eexists; (split; [reflexivity|]); cbn [P0 P1];
    repeat heap_step; reflexivity.
Qed.

(** X7.  The empty box is empty.  [Box2.empty], with or without a
    destination, leaves a box that contains no point under
    [Box2.containsInEx]; without a destination its corners are
    [(inf, inf)] and [(-inf, -inf)] and [Box2.integerPoints] over it
    completes without yielding a point. *)
Theorem empty_box_is_empty (h : heap) :
  (forall d P, exists B h',
     Box2.empty d h = Ok B h' /\
     Box2.containsInEx B P h' = Ok false h') /\
  (exists B h',
     Box2.empty None h = Ok B h' /\
     box2_of h' B = empty2 /\
     forall fuel, Box2.collect (3 + fuel) (Box2.integerPoints B) h' = Some []).
Proof.
  split.
  - intros d P. destruct (Box2_empty_upper h d) as (B & h' & E & U).
    exists B, h'. split; [exact E|].
    rewrite containsInEx_run, U, ltb_neg_Infinity_r. now rewrite andb_false_r.
  - unfold Box2.empty, Box2.uninitialized, Vec2.uniform, Vec2.uninitialized,
      dest, bind, ret, set, alloc; cbn [P0 P1].
    do 2 eexists. split; [reflexivity|]. split.
    + unfold box2_of, vec2_of, empty2. cbn [P0 P1].
      repeat heap_step; reflexivity.
    + intros fuel.
      match goal with |- Box2.collect _ (_ ?b) ?H = _ => set (h' := H); set (B := b) end.
      assert (X0 : arr_get (cells h' (P0 B)) 0 = Infinity).
      { unfold h', B. cbn [P0 P1]. repeat heap_step; reflexivity. }
      assert (X1 : arr_get (cells h' (P1 B)) 0 = - Infinity).
      { unfold h', B. cbn [P0 P1]. repeat heap_step; reflexivity. }
      change (3 + fuel)%nat with (S (S (S fuel))).
      destruct (collect_created (S (S fuel)) B h') as [h2 ->].
      rewrite X0, X1. now apply collect_outer_false.
Qed.

(** ** The vector that integerPoints yields *)

Lemma resume_started (p : ref) (n : nat) :
  forall g h, output_is p g ->
    Forall (eq p) (fst (fst (resume n g h))) /\
    (forall r, r <> p -> cells (snd (resume n g h)) r = cells h r) /\
    next (snd (resume n g h)) = next h.
Proof.
  induction n as [|n IH]; intros g h Hg; cbn [resume].
  { cbn [fst snd]. auto. }
  destruct g as [B|x x1 y0 y1 P|x y x1 y0 y1 P|x y x1 y0 y1 P|];
    cbn [output_is] in Hg; try contradiction; try subst P; cbn [Box2.step].
  - destruct (x <=? x1); unfold ret.
    + specialize (IH (Box2.InnerTest x (Math.floor y0) x1 y0 y1 p) h eq_refl).
      destruct (resume n _ h) as [[ys g'] h']. exact IH.
    + specialize (IH Box2.Completed h I).
      destruct (resume n _ h) as [[ys g'] h']. exact IH.
  - destruct (y <=? y1); unfold bind, set, ret.
    + match goal with |- context [resume n ?G ?H] =>
        specialize (IH G H eq_refl); destruct (resume n G H) as [[ys g'] h'] end.
      cbn [fst snd] in *. destruct IH as (A & F & N).
      split; [now constructor|]. split.
      * intros r Hr. rewrite F by assumption. now repeat heap_step.
      * rewrite N. reflexivity.
    + specialize (IH (Box2.OuterTest (x + 1) x1 y0 y1 p) h eq_refl).
      destruct (resume n _ h) as [[ys g'] h']. exact IH.
  - unfold ret.
    specialize (IH (Box2.InnerTest x (y + 1) x1 y0 y1 p) h eq_refl).
    destruct (resume n _ h) as [[ys g'] h']. exact IH.
  - unfold ret. specialize (IH Box2.Completed h I).
    destruct (resume n _ h) as [[ys g'] h']. exact IH.
Qed.

Lemma step_created (B : Box2) (h : heap) :
  exists g h1,
    Box2.step (Box2.Created B) h = Ok (g, None) h1 /\
    output_is (next h) g /\
    (forall r, (r < next h)%nat -> cells h1 r = cells h r) /\
    next h1 = S (next h).
Proof.
  do 2 eexists. split; [reflexivity|]. split; [reflexivity|]. split.
  - intros r Hr. now repeat heap_step.
  - reflexivity.
Qed.

(** X8.  However far the generator [Box2.integerPoints] is run, on
    whatever box: every value it yields is one and the same array, the one
    allocated when its body starts, so a consumer that keeps the yielded
    values keeps that one array many times; and no array that existed
    before, the corners of the box included, is written. *)
Theorem integerPoints_yields_one_vector (B : Box2) (h : heap) (n : nat) :
  Forall (eq (next h)) (fst (fst (resume n (Box2.integerPoints B) h))) /\
  (forall r, (r < next h)%nat ->
     cells (snd (resume n (Box2.integerPoints B) h)) r = cells h r) /\
  (next (snd (resume n (Box2.integerPoints B) h)) <= S (next h))%nat.
Proof.
  destruct n as [|n]; cbn [resume].
  { cbn [fst snd]. auto. }
  unfold Box2.integerPoints.
  destruct (step_created B h) as (g & h1 & -> & Hg & F1 & N1).
  destruct (@resume_started (next h) n g h1 Hg) as (A & F & N).
  destruct (resume n g h1) as [[ys g'] h']. cbn [fst snd] in *.
  split; [exact A|]. split.
  - intros r Hr. rewrite F by lia. now apply F1.
  - rewrite N, N1. lia.
Qed.

(** ** Affine matrices and the homogeneous divide *)

Lemma affine_weight_finite (x y z : number) :
  not_finite x = false -> not_finite y = false -> not_finite z = false ->
  0 * x + 0 * y + 0 * z + 1 = 1.
Proof.
  intros Fx Fy Fz. apply add_zero_l_nonzero; [|reflexivity].
  repeat apply add_zero_zero; now apply mul_zero_finite.
Qed.

Lemma affine_weight_not_finite (x y z : number) :
  not_finite x = true \/ not_finite y = true \/ not_finite z = true ->
  0 * x + 0 * y + 0 * z + 1 = NaN.
Proof.
  intros [F|[F|F]]; rewrite (@mul_zero_not_finite 0 _ eq_refl F);
    repeat (rewrite add_NaN_l || rewrite add_NaN_r); reflexivity.
Qed.

(** X9.  A matrix built by [MatA.compose()] and any chain of composer
    methods, applied by [Mat4.transformPoint]: for a point with finite
    coordinates the weight is exactly 1, so each component of the result
    is the row of the matrix applied to the point, with no rounding from
    the division; for a point with an infinite or NaN coordinate the
    result is [(NaN, NaN, NaN)]. *)
Theorem MatA_transformPoint_exact (H : Math.impl) (ops : list MatA_op)
    (h : heap) (P : ref) :
  exists A h1 h2,
    MatA.compose None h = Ok {| composer_A := A |} h1 /\
    MatAComposer_chain H ops {| composer_A := A |} h1 = Ok A h2 /\
    let M i := arr_get (cells h2 A) i in
    let x := arr_get (cells h2 P) 0 in
    let y := arr_get (cells h2 P) 1 in
    let z := arr_get (cells h2 P) 2 in
    exists r h3,
      Mat4.transformPoint A P h2 = Ok r h3 /\
      (not_finite x = false /\ not_finite y = false /\ not_finite z = false ->
       weight (cells h2 A) x y z = 1 /\
       vec3_of h3 r = (M 0%nat * x + M 1%nat * y + M 2%nat * z + M 3%nat,
                       M 4%nat * x + M 5%nat * y + M 6%nat * z + M 7%nat,
                       M 8%nat * x + M 9%nat * y + M 10%nat * z + M 11%nat)) /\
      (not_finite x = true \/ not_finite y = true \/ not_finite z = true ->
       vec3_of h3 r = (NaN, NaN, NaN)).
Proof.
  set (h1 := extend h [1; 0; 0; 0; 0; 1; 0; 0; 0; 0; 1; 0; 0; 0; 0; 1]).
  destruct (MatAComposer_chain_affine H ops (next h) h1) as (h2 & E2 & R2).
  exists (next h), h1, h2. split; [reflexivity|]. split; [exact E2|].
  cbv zeta.
  assert (L : last_row h2 (next h) = [0; 0; 0; 1]).
  { rewrite (writes_only_affine_last_row R2). unfold last_row, h1.
    now rewrite cells_extend_new. }
  unfold last_row in L. injection L as L12 L13 L14 L15.
  pose proof (transformPoint_run h2 (next h) P) as T.
  unfold transformPoint_spec in T. cbv zeta in T.
  rewrite L12, L13, L14, L15 in T.
  do 2 eexists. split; [exact T|]. unfold vec3_of, weight.
  rewrite cells_extend_new, L12, L13, L14, L15. cbn [arr_get arr_read nums map nth ToNumber].
  split.
  - intros (Fx & Fy & Fz). rewrite (affine_weight_finite _ _ _ Fx Fy Fz).
    split; [reflexivity|]. now rewrite !div_one.
  - intros F. rewrite (affine_weight_not_finite _ _ _ F). now rewrite !div_NaN_r.
Qed.

(** ** Translation matrices *)

(** The row [(1, 0, 0, t)] of a translation applied to a finite point. *)
Lemma translated_component (x a t : number) :
  absorbs x a -> SameValueZero ((a + (0 + t)) / 1) (x + t) = true.
Proof.
  intros [N Z]. rewrite div_one. destruct (is_zero x) eqn:Zx.
  - specialize (Z eq_refl). destruct (is_zero t) eqn:Zt.
    + apply SameValueZero_zeros; repeat apply add_zero_zero; auto.
    + rewrite (@add_zero_l_nonzero t 0 eq_refl Zt).
      rewrite (@add_zero_l_nonzero t _ Z Zt), (@add_zero_l_nonzero t _ Zx Zt).
      apply SameValueZero_refl.
  - rewrite (N eq_refl). destruct (is_zero t) eqn:Zt.
    + rewrite (@add_zero_r_nonzero x t Zt Zx).
      rewrite (@add_zero_r_nonzero x (0 + t)); [apply SameValueZero_refl | | assumption].
      now apply add_zero_zero.
    + rewrite (@add_zero_l_nonzero t 0 eq_refl Zt). apply SameValueZero_refl.
Qed.

Lemma translation_rows (x y z t0 t1 t2 : number) :
  not_finite x = false -> not_finite y = false -> not_finite z = false ->
  SameValueZero ((1 * x + 0 * y + 0 * z + (0 + t0)) / (0 * x + 0 * y + 0 * z + 1)) (x + t0) = true /\
  SameValueZero ((0 * x + 1 * y + 0 * z + (0 + t1)) / (0 * x + 0 * y + 0 * z + 1)) (y + t1) = true /\
  SameValueZero ((0 * x + 0 * y + 1 * z + (0 + t2)) / (0 * x + 0 * y + 0 * z + 1)) (z + t2) = true.
Proof.
  intros Fx Fy Fz. rewrite (affine_weight_finite x y z Fx Fy Fz), !mul_one_l.
  pose proof (@mul_zero_finite 0 x eq_refl Fx) as Zx.
  pose proof (@mul_zero_finite 0 y eq_refl Fy) as Zy.
  pose proof (@mul_zero_finite 0 z eq_refl Fz) as Zz.
  split; [|split]; apply translated_component.
  - auto using absorbs_add_r, absorbs_refl.
  - auto using absorbs_add_r, absorbs_add_l, absorbs_refl.
  - apply absorbs_add_l; [apply absorbs_refl | now apply add_zero_zero].
Qed.

(** X10.  The matrix [MatA.translation(u)] applied by
    [Mat4.transformPoint] to a point [P] with finite coordinates gives the
    values that [Vec3.translated(P, u)] gives, [P + u] component by
    component, with the single rounding of that addition. *)
Theorem translation_acts_as_translated (h : heap) (u P : ref) :
  (u < next h)%nat -> (P < next h)%nat ->
  not_finite (arr_get (cells h P) 0) = false ->
  not_finite (arr_get (cells h P) 1) = false ->
  not_finite (arr_get (cells h P) 2) = false ->
  exists A h1 r h2 t h3,
    MatA.translation u h = Ok A h1 /\
    Mat4.transformPoint A P h1 = Ok r h2 /\
    Vec3.translated P u None h = Ok t h3 /\
    vec3_of h3 t = (arr_get (cells h P) 0 + arr_get (cells h u) 0,
                    arr_get (cells h P) 1 + arr_get (cells h u) 1,
                    arr_get (cells h P) 2 + arr_get (cells h u) 2) /\
    same_vec3 (vec3_of h2 r) (vec3_of h3 t).
Proof.
  intros Hu HP Fx Fy Fz.
  set (h0 := extend h [1; 0; 0; 0; 0; 1; 0; 0; 0; 0; 1; 0; 0; 0; 0; 1]).
  destruct (@translate_cells h0 (next h) u ltac:(lia))
    as (h1 & E1 & N1 & O1 & K1 & A3 & A7 & A11).
  assert (H0 : cells h0 (next h) = nums [1; 0; 0; 0; 0; 1; 0; 0; 0; 0; 1; 0; 0; 0; 0; 1])
    by apply cells_extend_new.
  assert (Hu0 : cells h0 u = cells h u) by (apply cells_extend_old; lia).
  assert (HP1 : cells h1 P = cells h P).
  { rewrite O1 by lia. apply cells_extend_old. lia. }
  pose proof (transformPoint_run h1 (next h) P) as E2.
  unfold transformPoint_spec in E2. rewrite HP1 in E2.
  rewrite A3, A7, A11, !K1, H0, Hu0 in E2 by lia.
  cbn [arr_get arr_read nums map nth ToNumber] in E2.
  do 6 eexists. split; [exact E1|]. split; [exact E2|].
  unfold Vec3.translated, Vec3.zero, Vec3, dest, bind, ret, get, set, alloc.
  split; [reflexivity|].
  split.
  - unfold vec3_of. repeat heap_step. reflexivity.
  - unfold same_vec3, x3, y3, z3, vec3_of. rewrite cells_extend_new. cbn [arr_get arr_read nums map nth ToNumber fst snd].
    repeat heap_step. now apply translation_rows.
Qed.

Lemma translation_acts_as_translated_witness :
  (1 < next eye_heap)%nat /\
  not_finite (arr_get (cells eye_heap 1) 0) = false /\
  not_finite (arr_get (cells eye_heap 1) 1) = false /\
  not_finite (arr_get (cells eye_heap 1) 2) = false /\
  exists A h1 r h2 t h3,
    MatA.translation 1 eye_heap = Ok A h1 /\
    Mat4.transformPoint A 1 h1 = Ok r h2 /\
    Vec3.translated 1 1 None eye_heap = Ok t h3 /\
    vec3_of h3 t = (arr_get (cells eye_heap 1) 0 + arr_get (cells eye_heap 1) 0,
                    arr_get (cells eye_heap 1) 1 + arr_get (cells eye_heap 1) 1,
                    arr_get (cells eye_heap 1) 2 + arr_get (cells eye_heap 1) 2) /\
    same_vec3 (vec3_of h2 r) (vec3_of h3 t).
Proof.
  assert (H1 : (1 < next eye_heap)%nat) by (cbn; lia).
  split; [exact H1|]. do 3 (split; [reflexivity|]).
  exact (@translation_acts_as_translated eye_heap 1%nat 1%nat H1 H1
           eq_refl eq_refl eq_refl).
Defined.

(** ** The rows a mutator writes *)

Lemma sat_set_outside (A : ref) (i k : nat) (v : number) :
  i <> k ->
  sat (fun h h' => arr_get (cells h' A) i = arr_get (cells h A) i) (set A k v).
Proof.
  intros Hi h. eexists tt, _. split; [reflexivity|].
  rewrite cells_write_same. now apply arr_get_set_other.
Qed.

#[export] Instance keeps_entry_preorder (A : ref) (i : nat) :
  PreOrder (fun h h' => arr_get (cells h' A) i = arr_get (cells h A) i).
Proof. split; [intros h; reflexivity | intros a b c; congruence]. Qed.

Ltac keeps :=
  repeat lazymatch goal with
    | |- sat _ (bind _ _) => apply sat_bind; [ exact _ | | intros ]
    | |- sat _ (ret _) => apply sat_ret; exact _
    | |- sat _ (get _ _) => apply sat_get; exact _
    | |- sat _ (set _ _ _) => apply sat_set_outside; lia
    end.

(** X11.  Each MatA mutator leaves the entries of the matrix it does not
    name: a rotation about an axis leaves the row of that axis, a scale
    along an axis the two other rows, and a translation everything but
    the last column. *)
Theorem MatA_mutator_keeps_other_rows (H : Math.impl) (op : MatA_op) (A : ref)
    (h : heap) :
  exists h',
    MatA_call H op A h = Ok tt h' /\
    forall i, ~ In i (written op) -> arr_get (cells h' A) i = arr_get (cells h A) i.
Proof.
  assert (S : forall i, ~ In i (written op) ->
            sat (fun h h' => arr_get (cells h' A) i = arr_get (cells h A) i)
                (MatA_call H op A)).
  { intros i Hi. destruct op; cbn [written In] in Hi; cbn [MatA_call];
      unfold MatA.translate, MatA.scaleX, MatA.scaleY, MatA.scaleZ, MatA.scale,
        MatA.scaleVector, MatA.rotateX, MatA.rotateY, MatA.rotateZ, mul_assign;
      keeps. }
  destruct (MatA_call_affine H op A h) as ([] & h' & E & _).
  exists h'. split; [exact E|]. intros i Hi.
  destruct (S i Hi h) as ([] & h'' & E' & K). congruence.
Qed.

(** ** Scaling a matrix *)

Lemma mul_assign_run (A : ref) (i : nat) (s : number) (h : heap) :
  mul_assign A i s h = Ok tt (multiplied A s h i).
Proof. reflexivity. Qed.

Lemma bind_run {X Y} (m : M X) (k : X -> M Y) (h h' : heap) (x : X) :
  m h = Ok x h' -> bind m k h = k x h'.
Proof. intros E. unfold bind. now rewrite E. Qed.

Ltac run_mul_assign :=
  repeat (erewrite bind_run by apply mul_assign_run); rewrite ?mul_assign_run.

Lemma MatA_scaleX_run (A : ref) (s : number) (h : heap) :
  MatA.scaleX A s h = Ok tt (fold_left (multiplied A s) [0; 1; 2; 3]%nat h).
Proof. unfold MatA.scaleX. run_mul_assign. reflexivity. Qed.

Lemma MatA_scaleY_run (A : ref) (s : number) (h : heap) :
  MatA.scaleY A s h = Ok tt (fold_left (multiplied A s) [4; 5; 6; 7]%nat h).
Proof. unfold MatA.scaleY. run_mul_assign. reflexivity. Qed.

Lemma MatA_scaleZ_run (A : ref) (s : number) (h : heap) :
  MatA.scaleZ A s h = Ok tt (fold_left (multiplied A s) [8; 9; 10; 11]%nat h).
Proof. unfold MatA.scaleZ. run_mul_assign. reflexivity. Qed.

Lemma MatA_scale_run (A : ref) (s : number) (h : heap) :
  MatA.scale A s h =
  Ok tt (fold_left (multiplied A s) [0; 1; 2; 3; 4; 5; 6; 7; 8; 9; 10; 11]%nat h).
Proof. unfold MatA.scale. run_mul_assign. reflexivity. Qed.

(** X12.  [MatA.scale(A, s)] does what [MatA.scaleX], [MatA.scaleY] and
    [MatA.scaleZ] by [s] do in turn, and what [MatA.scaleVector(A, u)]
    does for a vector [u] that holds [(s, s, s)], even when [u] is the
    matrix itself: the three scale factors are read before the first
    entry is written. *)
Theorem MatA_scale_is_three_axis_scales (h : heap) (A u : ref) (s : number) :
  MatA.scale A s h = (MatA.scaleX A s ;; MatA.scaleY A s ;; MatA.scaleZ A s) h /\
  (vec3_of h u = (s, s, s) -> MatA.scaleVector A u h = MatA.scale A s h).
Proof.
  split.
  - rewrite MatA_scale_run.
    erewrite bind_run by apply MatA_scaleX_run.
    erewrite bind_run by apply MatA_scaleY_run.
    rewrite MatA_scaleZ_run. reflexivity.
  - unfold vec3_of. intros E. injection E as E0 E1 E2.
    rewrite MatA_scale_run. unfold MatA.scaleVector.
    unfold bind at 1. unfold get at 1.
    unfold bind at 1. unfold get at 1. unfold bind at 1. unfold get at 1.
    rewrite E0, E1, E2. run_mul_assign. reflexivity.
Qed.

(** ** The identity transform *)

Lemma eye_row_x (x y : number) :
  (not_finite y = false -> SameValueZero (1 * x + 0 * y + 0) x = true) /\
  (not_finite y = true -> 1 * x + 0 * y + 0 = NaN).
Proof.
  rewrite mul_one_l. split; intros F.
  - apply SameValueZero_trans with (x + 0 * y).
    + now apply add_zero_r_same.
    + apply add_zero_r_same. now apply mul_zero_finite.
  - rewrite (@mul_zero_not_finite 0 y eq_refl F). now rewrite add_NaN_r, add_NaN_l.
Qed.

Lemma eye_row_y (x y : number) :
  (not_finite x = false -> SameValueZero (0 * x + 1 * y + 0) y = true) /\
  (not_finite x = true -> 0 * x + 1 * y + 0 = NaN).
Proof.
  rewrite mul_one_l. split; intros F.
  - apply SameValueZero_trans with (0 * x + y).
    + now apply add_zero_r_same.
    + rewrite add_comm. apply add_zero_r_same. now apply mul_zero_finite.
  - rewrite (@mul_zero_not_finite 0 x eq_refl F). now rewrite !add_NaN_l.
Qed.

(** X13.  The identity matrix of [Mat2A.eye] maps a point with finite
    coordinates to the same values; a coordinate that is infinite or NaN
    makes the other coordinate of the image NaN, since it is multiplied
    by the zero off the diagonal. *)
Theorem Mat2A_eye_transformPoint (h : heap) (P : ref) :
  (P < next h)%nat ->
  let x := arr_get (cells h P) 0 in
  let y := arr_get (cells h P) 1 in
  exists E h1 r h2,
    Mat2A.eye None h = Ok E h1 /\
    Mat2A.transformPoint E P None h1 = Ok r h2 /\
    (not_finite y = false -> SameValueZero (fst (vec2_of h2 r)) x = true) /\
    (not_finite x = false -> SameValueZero (snd (vec2_of h2 r)) y = true) /\
    (not_finite y = true -> fst (vec2_of h2 r) = NaN) /\
    (not_finite x = true -> snd (vec2_of h2 r) = NaN).
Proof.
  intros HP. cbv zeta.
  unfold Mat2A.eye, Mat2A.uninitialized, dest, bind, ret, set, alloc.
  do 2 eexists.
  unfold Mat2A.transformPoint, Vec2.uninitialized, dest, bind, ret, get, set, alloc.
  do 2 eexists. split; [reflexivity|]. split; [reflexivity|].
  unfold vec2_of. cbn [fst snd].
  repeat heap_step. cbn [arr_set arr_put arr_get arr_read nums map nth ToNumber].
  repeat split; first [apply eye_row_x | apply eye_row_y].
Qed.

Lemma Mat2A_eye_transformPoint_witness :
  (0 < next alias_heap)%nat /\
  exists E h1 r h2,
    Mat2A.eye None alias_heap = Ok E h1 /\
    Mat2A.transformPoint E 0 None h1 = Ok r h2 /\
    (not_finite 4 = false -> SameValueZero (fst (vec2_of h2 r)) 3 = true) /\
    (not_finite 3 = false -> SameValueZero (snd (vec2_of h2 r)) 4 = true) /\
    (not_finite 4 = true -> fst (vec2_of h2 r) = NaN) /\
    (not_finite 3 = true -> snd (vec2_of h2 r) = NaN).
Proof.
  assert (H0 : (0 < next alias_heap)%nat) by (cbn; lia).
  split; [exact H0|].
  exact (@Mat2A_eye_transformPoint alias_heap 0%nat H0).
Defined.

(** ** The integral part of a vector *)

(** X14.  [Vec2.floor] returns its result typed as a vector of integers
    ([IVec2]) without a check.  Each component of a finite input is
    floored to an integer-valued number, the greatest not above the
    input, which passes [int]; a NaN or infinite component is returned as
    it is and does not pass [int].  Flooring the result again changes
    nothing. *)
Theorem Vec2_floor_integral (h : heap) (u : ref) :
  (u < next h)%nat ->
  exists r h',
    Vec2.floor u None h = Ok r h' /\
    floored (arr_get (cells h u) 0) (fst (vec2_of h' r)) h' /\
    floored (arr_get (cells h u) 1) (snd (vec2_of h' r)) h' /\
    (exists h'', Vec2.floor r (Some r) h' = Ok r h'' /\ vec2_of h'' r = vec2_of h' r).
Proof.
  intros Hu.
  unfold Vec2.floor, Vec2.uninitialized, dest, bind, ret, get, set, alloc.
  do 2 eexists. split; [reflexivity|].
  match goal with |- floored _ (fst (vec2_of ?H _)) _ /\ _ => set (h' := H) end.
  assert (E : vec2_of h' (next h) =
              (Math.floor (arr_get (cells h u) 0), Math.floor (arr_get (cells h u) 1))).
  { unfold vec2_of, h'. repeat heap_step. reflexivity. }
  rewrite E. cbn [fst snd]. split; [apply floor_cases|]. split; [apply floor_cases|].
  eexists. split; [reflexivity|].
  match goal with |- vec2_of ?H _ = _ => set (h2 := H) end.
  assert (E2 : vec2_of h2 (next h) =
               (Math.floor (fst (vec2_of h' (next h))), Math.floor (snd (vec2_of h' (next h))))).
  { unfold vec2_of, h2. cbn [fst snd]. repeat heap_step. reflexivity. }
  rewrite E2, E. cbn [fst snd]. now rewrite !floor_idempotent.
Qed.

Lemma Vec2_floor_integral_witness :
  (0 < next half_box_heap)%nat /\
  exists r h',
    Vec2.floor 0 None half_box_heap = Ok r h' /\
    floored 0.5 (fst (vec2_of h' r)) h' /\
    floored 0.5 (snd (vec2_of h' r)) h' /\
    (exists h'', Vec2.floor r (Some r) h' = Ok r h'' /\ vec2_of h'' r = vec2_of h' r).
Proof.
  assert (H0 : (0 < next half_box_heap)%nat) by (cbn; lia).
  split; [exact H0|].
  exact (@Vec2_floor_integral half_box_heap 0%nat H0).
Defined.

(** ** Interpolation at its end points *)

Lemma lerp_start (a b : number) :
  (not_finite b = false -> SameValueZero ((1 - 0) * a + 0 * b) a = true) /\
  (not_finite b = true -> (1 - 0) * a + 0 * b = NaN).
Proof.
  change (1 - 0) with 1. rewrite mul_one_l. split; intros F.
  - apply add_zero_r_same. now apply mul_zero_finite.
  - rewrite (@mul_zero_not_finite 0 b eq_refl F). apply add_NaN_r.
Qed.

Lemma lerp_end (a b : number) :
  (not_finite a = false -> SameValueZero ((1 - 1) * a + 1 * b) b = true) /\
  (not_finite a = true -> (1 - 1) * a + 1 * b = NaN).
Proof.
  change (1 - 1) with 0. rewrite mul_one_l. split; intros F.
  - rewrite add_comm. apply add_zero_r_same. now apply mul_zero_finite.
  - rewrite (@mul_zero_not_finite 0 a eq_refl F). apply add_NaN_l.
Qed.

(** X15.  [Vec2.lerp] at its end points.  At [t = 0] the result has the
    values of [u], and at [t = 1] those of [v], provided the components of
    the other vector are finite; a component of the other vector that is
    infinite or NaN makes the component of the result NaN, since it is
    multiplied by zero. *)
Theorem Vec2_lerp_end_points (h : heap) (u v : ref) :
  (u < next h)%nat -> (v < next h)%nat ->
  let u0 := arr_get (cells h u) 0 in
  let u1 := arr_get (cells h u) 1 in
  let v0 := arr_get (cells h v) 0 in
  let v1 := arr_get (cells h v) 1 in
  (exists r h', Vec2.lerp u v 0 None h = Ok r h' /\
      (not_finite v0 = false -> SameValueZero (fst (vec2_of h' r)) u0 = true) /\
      (not_finite v1 = false -> SameValueZero (snd (vec2_of h' r)) u1 = true) /\
      (not_finite v0 = true -> fst (vec2_of h' r) = NaN) /\
      (not_finite v1 = true -> snd (vec2_of h' r) = NaN)) /\
  (exists r h', Vec2.lerp u v 1 None h = Ok r h' /\
      (not_finite u0 = false -> SameValueZero (fst (vec2_of h' r)) v0 = true) /\
      (not_finite u1 = false -> SameValueZero (snd (vec2_of h' r)) v1 = true) /\
      (not_finite u0 = true -> fst (vec2_of h' r) = NaN) /\
      (not_finite u1 = true -> snd (vec2_of h' r) = NaN)).
Proof.
  intros Hu Hv. cbv zeta. split.
  - unfold Vec2.lerp, Vec2.uninitialized, dest, bind, ret, get, set, alloc. cbv zeta.
    do 2 eexists. split; [reflexivity|]. unfold vec2_of. cbn [fst snd].
    repeat heap_step.
    repeat split; apply lerp_start.
  - unfold Vec2.lerp, Vec2.uninitialized, dest, bind, ret, get, set, alloc. cbv zeta.
    do 2 eexists. split; [reflexivity|]. unfold vec2_of. cbn [fst snd].
    repeat heap_step.
    repeat split; apply lerp_end.
Qed.

Lemma Vec2_lerp_end_points_witness :
  (0 < next unit_box_heap)%nat /\ (1 < next unit_box_heap)%nat /\
  (exists r h', Vec2.lerp 0 1 0 None unit_box_heap = Ok r h' /\
      (not_finite 1 = false -> SameValueZero (fst (vec2_of h' r)) 0 = true) /\
      (not_finite 1 = false -> SameValueZero (snd (vec2_of h' r)) 0 = true) /\
      (not_finite 1 = true -> fst (vec2_of h' r) = NaN) /\
      (not_finite 1 = true -> snd (vec2_of h' r) = NaN)) /\
  (exists r h', Vec2.lerp 0 1 1 None unit_box_heap = Ok r h' /\
      (not_finite 0 = false -> SameValueZero (fst (vec2_of h' r)) 1 = true) /\
      (not_finite 0 = false -> SameValueZero (snd (vec2_of h' r)) 1 = true) /\
      (not_finite 0 = true -> fst (vec2_of h' r) = NaN) /\
      (not_finite 0 = true -> snd (vec2_of h' r) = NaN)).
Proof.
  assert (H0 : (0 < next unit_box_heap)%nat) by (cbn; lia).
  assert (H1 : (1 < next unit_box_heap)%nat) by (cbn; lia).
  split; [exact H0|]. split; [exact H1|].
  exact (@Vec2_lerp_end_points unit_box_heap 0%nat 1%nat H0 H1).
Defined.

(** ** Quarter turns *)

Ltac lper_step :=
  first
    [ rewrite cells_write_same
    | rewrite arr_read_set_same
    | rewrite arr_read_put_same
    | rewrite arr_get_set_same
    | rewrite arr_get_put_same
    | rewrite ToNumber_arr_read
    | rewrite arr_read_set_other by lia
    | rewrite arr_read_put_other by lia
    | rewrite arr_get_set_other by lia
    | rewrite arr_get_put_other by lia
    | progress cbn [ToNumber] ].

(** X16.  [Vec2.lper] in place turns a vector by a quarter: two calls
    leave the opposite vector, and four calls leave in each component the
    number it read as at the start.  A component that was a number is the
    very number it was, NaN and zeros of either sign included; a
    component that was [undefined], as in a vector that
    [Vec2.uninitialized] returns, has become NaN. *)
Theorem Vec2_lper_four_times (h : heap) (u : ref) :
  let x := arr_get (cells h u) 0 in
  let y := arr_get (cells h u) 1 in
  let turn := Vec2.lper u (Some u) in
  (exists h', (turn ;; turn) h = Ok u h' /\
     arr_read (cells h' u) 0 = Num (- x) /\ arr_read (cells h' u) 1 = Num (- y)) /\
  (exists h', (turn ;; turn ;; turn ;; turn) h = Ok u h' /\
     arr_read (cells h' u) 0 = Num x /\ arr_read (cells h' u) 1 = Num y /\
     forall i v, (i < 2)%nat -> arr_read (cells h u) i = Num v ->
                 arr_read (cells h' u) i = Num v).
Proof.
  cbv zeta. unfold Vec2.lper, dest, bind, ret, get, set, read, put.
  split.
  - eexists. split; [reflexivity|]. split; repeat lper_step; reflexivity.
  - eexists. split; [reflexivity|].
    assert (R : forall h' : heap,
              arr_read (cells h' u) 0 = Num (arr_get (cells h u) 0) ->
              arr_read (cells h' u) 1 = Num (arr_get (cells h u) 1) ->
              forall i v, (i < 2)%nat -> arr_read (cells h u) i = Num v ->
                          arr_read (cells h' u) i = Num v).
    { intros h' R0 R1 i v Hi Hv. unfold arr_get in R0, R1.
      destruct i as [|[|i]]; [| |lia].
      - rewrite R0, Hv. reflexivity.
      - rewrite R1, Hv. reflexivity. }
    match goal with |- ?A /\ ?B /\ _ =>
      assert (H0 : A); [|assert (H1 : B); [|split; [exact H0|split; [exact H1|]]]]
    end.
    + repeat lper_step. now rewrite opp_involutive.
    + repeat lper_step. now rewrite opp_involutive.
    + now apply R.
Qed.

(** ** Symmetric operations *)

(** X17.  The operations that are symmetric in exact arithmetic are
    symmetric in binary64 too, to the last digit: [Vec2.dot] and
    [Vec2.distSq] return the same number, and [Vec2.sum], [Vec2.mid],
    [Vec2.min] and [Vec2.max] the same components, when their two
    arguments are exchanged. *)
Theorem symmetric_operations (h : heap) (u v : ref) :
  (u < next h)%nat -> (v < next h)%nat ->
  Vec2.dot u v h = Vec2.dot v u h /\
  Vec2.distSq u v h = Vec2.distSq v u h /\
  (exists r h1 h2, Vec2.sum u v None h = Ok r h1 /\ Vec2.sum v u None h = Ok r h2 /\
                   vec2_of h1 r = vec2_of h2 r) /\
  (exists r h1 h2, Vec2.mid u v None h = Ok r h1 /\ Vec2.mid v u None h = Ok r h2 /\
                   vec2_of h1 r = vec2_of h2 r) /\
  (exists r h1 h2, Vec2.min u v None h = Ok r h1 /\ Vec2.min v u None h = Ok r h2 /\
                   vec2_of h1 r = vec2_of h2 r) /\
  (exists r h1 h2, Vec2.max u v None h = Ok r h1 /\ Vec2.max v u None h = Ok r h2 /\
                   vec2_of h1 r = vec2_of h2 r).
Proof.
  intros Hu Hv. split; [|split; [|split; [|split; [|split]]]].
  - unfold Vec2.dot, bind, get, ret.
    now rewrite (mul_comm (arr_get (cells h u) 0)), (mul_comm (arr_get (cells h u) 1)).
  - unfold Vec2.distSq, bind, get, ret. cbv zeta.
    now rewrite (sq_sub_swap (arr_get (cells h u) 0)), (sq_sub_swap (arr_get (cells h u) 1)).
  - unfold Vec2.sum, Vec2.uninitialized, dest, bind, ret, get, set, alloc.
    do 3 eexists. split; [reflexivity|]. split; [reflexivity|]. unfold vec2_of.
    repeat heap_step. now rewrite (add_comm (arr_get (cells h u) 0)),
      (add_comm (arr_get (cells h u) 1)).
  - unfold Vec2.mid, Vec2.uninitialized, dest, bind, ret, get, set, alloc.
    do 3 eexists. split; [reflexivity|]. split; [reflexivity|]. unfold vec2_of.
    repeat heap_step. now rewrite (add_comm (0.5 * arr_get (cells h u) 0)),
      (add_comm (0.5 * arr_get (cells h u) 1)).
  - unfold Vec2.min, Vec2.uninitialized, dest, bind, ret, get, set, alloc.
    do 3 eexists. split; [reflexivity|]. split; [reflexivity|]. unfold vec2_of.
    repeat heap_step. now rewrite (min_comm (arr_get (cells h u) 0)),
      (min_comm (arr_get (cells h u) 1)).
  - unfold Vec2.max, Vec2.uninitialized, dest, bind, ret, get, set, alloc.
    do 3 eexists. split; [reflexivity|]. split; [reflexivity|]. unfold vec2_of.
    repeat heap_step. now rewrite (max_comm (arr_get (cells h u) 0)),
      (max_comm (arr_get (cells h u) 1)).
Qed.

Lemma symmetric_operations_witness :
  (0 < next alias_heap)%nat /\ (1 < next alias_heap)%nat /\
  Vec2.dot 0 1 alias_heap = Vec2.dot 1 0 alias_heap /\
  Vec2.distSq 0 1 alias_heap = Vec2.distSq 1 0 alias_heap /\
  (exists r h1 h2, Vec2.sum 0 1 None alias_heap = Ok r h1 /\
                   Vec2.sum 1 0 None alias_heap = Ok r h2 /\
                   vec2_of h1 r = vec2_of h2 r) /\
  (exists r h1 h2, Vec2.mid 0 1 None alias_heap = Ok r h1 /\
                   Vec2.mid 1 0 None alias_heap = Ok r h2 /\
                   vec2_of h1 r = vec2_of h2 r) /\
  (exists r h1 h2, Vec2.min 0 1 None alias_heap = Ok r h1 /\
                   Vec2.min 1 0 None alias_heap = Ok r h2 /\
                   vec2_of h1 r = vec2_of h2 r) /\
  (exists r h1 h2, Vec2.max 0 1 None alias_heap = Ok r h1 /\
                   Vec2.max 1 0 None alias_heap = Ok r h2 /\
                   vec2_of h1 r = vec2_of h2 r).
Proof.
  assert (H0 : (0 < next alias_heap)%nat) by (cbn; lia).
  assert (H1 : (1 < next alias_heap)%nat) by (cbn; lia).
  split; [exact H0|]. split; [exact H1|].
  exact (@symmetric_operations alias_heap 0%nat 1%nat H0 H1).
Defined.

(** ** Squares *)

(** X18.  [sq], [Vec2.lenSq], [Vec2.distSq] and [Vec2.dot(u, u)] never
    return a number below zero, whatever rounding, overflow or underflow
    occurs: the result is NaN, or zero is less than or equal to it. *)
Theorem squares_never_negative (h : heap) (u v : ref) (x : number) :
  ((sq x <? 0) = false /\ (is_nan (sq x) = false -> (0 <=? sq x) = true)) /\
  (exists r, Vec2.lenSq u h = Ok r h /\
             (r <? 0) = false /\ (is_nan r = false -> (0 <=? r) = true)) /\
  (exists r, Vec2.distSq u v h = Ok r h /\
             (r <? 0) = false /\ (is_nan r = false -> (0 <=? r) = true)) /\
  (exists r, Vec2.dot u u h = Ok r h /\
             (r <? 0) = false /\ (is_nan r = false -> (0 <=? r) = true)).
Proof.
  assert (S : forall a, SFunsigned (Prim2SF (a * a))).
  { intros a. rewrite mul_spec. apply SFunsigned_mul_self. }
  assert (A : forall a b, SFunsigned (Prim2SF (a * a + b * b))).
  { intros a b. rewrite add_spec. apply SFunsigned_add; apply S. }
  split; [|split; [|split]].
  - unfold sq. split; [now apply SFunsigned_not_below_zero|now apply SFunsigned_zero_le].
  - unfold Vec2.lenSq, bind, get, ret. eexists. split; [reflexivity|].
    split; [now apply SFunsigned_not_below_zero|now apply SFunsigned_zero_le].
  - unfold Vec2.distSq, bind, get, ret. cbv zeta. eexists. split; [reflexivity|].
    split; [now apply SFunsigned_not_below_zero|now apply SFunsigned_zero_le].
  - unfold Vec2.dot, bind, get, ret. eexists. split; [reflexivity|].
    split; [now apply SFunsigned_not_below_zero|now apply SFunsigned_zero_le].
Qed.

(** ** Scaling by one *)

Lemma keeps_numbers_mul_assign (A : ref) (i : nat) : keeps_numbers (mul_assign A i 1).
Proof.
  intros h. unfold mul_assign, bind, get, set. eexists. split; [reflexivity|].
  split; [reflexivity|]. intros r j. rewrite mul_one_r.
  destruct (Nat.eq_dec r A) as [->|N].
  - rewrite cells_write_same. destruct (Nat.eq_dec j i) as [->|Nj].
    + rewrite arr_get_set_same, arr_read_set_same. split; [reflexivity|].
      intros x E. unfold arr_get. now rewrite E.
    + rewrite arr_get_set_other, arr_read_set_other by auto. split; auto.
  - rewrite cells_write_other by auto. split; auto.
Qed.

Lemma keeps_numbers_bind (m k : M unit) :
  keeps_numbers m -> keeps_numbers k -> keeps_numbers (m ;; k).
Proof.
  intros Hm Hk h. destruct (Hm h) as (h1 & E1 & N1 & R1).
  destruct (Hk h1) as (h2 & E2 & N2 & R2).
  exists h2. unfold bind. rewrite E1. split; [exact E2|]. split; [congruence|].
  intros r j. destruct (R1 r j) as [G1 K1], (R2 r j) as [G2 K2]. split.
  - now rewrite G2, G1.
  - intros x E. apply K2. now apply K1.
Qed.

Lemma keeps_numbers_ext (m m' : M unit) :
  (forall h, m h = m' h) -> keeps_numbers m' -> keeps_numbers m.
Proof. intros E Hm h. rewrite E. apply Hm. Qed.

Ltac by_mul_assign :=
  repeat (apply keeps_numbers_bind; [apply keeps_numbers_mul_assign|]);
  apply keeps_numbers_mul_assign.

(** X19.  Multiplying and dividing by 1 are exact for every number, so
    scaling by 1 changes no number: [MatA.scale], [scaleX], [scaleY],
    [scaleZ], [Vec2.scale] and [Box2.scale] by 1 allocate nothing and
    leave every element that is a number the very number it was, and
    [Vec2.scaled], [Vec2.divided] and [Vec3.scaled] by 1 return a new
    vector of the numbers that the elements of their argument read as.
    An element that was [undefined], as in a vector that
    [Vec2.uninitialized] returns, reads as NaN and may have become
    NaN. *)
Theorem scaling_by_one_changes_nothing (H : Math.impl) :
  (forall A op, In op [op_scaleX 1; op_scaleY 1; op_scaleZ 1; op_scale 1] ->
     keeps_numbers (MatA_call H op A)) /\
  (forall u, keeps_numbers (Vec2.scale u 1)) /\
  (forall B, keeps_numbers (Box2.scale B 1)) /\
  (forall h u, (u < next h)%nat ->
     (exists r h', Vec2.scaled u 1 None h = Ok r h' /\
        cells h' r = nums [arr_get (cells h u) 0; arr_get (cells h u) 1]) /\
     (exists r h', Vec2.divided u 1 None h = Ok r h' /\
        cells h' r = nums [arr_get (cells h u) 0; arr_get (cells h u) 1]) /\
     (exists r h', Vec3.scaled u 1 None h = Ok r h' /\
        cells h' r = nums [arr_get (cells h u) 0; arr_get (cells h u) 1;
                           arr_get (cells h u) 2])).
Proof.
  split; [|split; [|split]].
  - intros A op Hop. cbn [In] in Hop.
    destruct Hop as [<-|[<-|[<-|[<-|[]]]]]; cbn [MatA_call];
      unfold MatA.scaleX, MatA.scaleY, MatA.scaleZ, MatA.scale; by_mul_assign.
  - intros u.
    apply keeps_numbers_ext with (m' := mul_assign u 0 1 ;; mul_assign u 1 1);
      [reflexivity | by_mul_assign].
  - intros [p0 p1].
    apply keeps_numbers_ext
      with (m' := mul_assign p0 0 1 ;; mul_assign p0 1 1 ;;
                  mul_assign p1 0 1 ;; mul_assign p1 1 1);
      [reflexivity | by_mul_assign].
  - intros h u Hu. split; [|split].
    + unfold Vec2.scaled, Vec2.uninitialized, dest, bind, ret, get, set, new_Array.
      do 2 eexists. split; [reflexivity|].
      repeat heap_step. now rewrite !mul_one_r.
    + unfold Vec2.divided, Vec2.uninitialized, dest, bind, ret, get, set, new_Array.
      do 2 eexists. split; [reflexivity|].
      repeat heap_step. now rewrite !div_one.
    + unfold Vec3.scaled, Vec3.zero, Vec3, dest, bind, ret, get, set, alloc.
      do 2 eexists. split; [reflexivity|].
      repeat heap_step. now rewrite !mul_one_r.
Qed.

(** ** Division by zero and unbounded lengths *)

(** X20.  No division is guarded and none throws.  [Vec2.divided] by a
    zero gives components that are infinite or NaN; [Vec2.withLen] on the
    zero vector gives NaN components, on a host whose [Math.hypot(0, 0)]
    is [0] as the language standard requires; and [Vec2.lengthLimited]
    with a limit that is [Infinity] or NaN never scales, it returns a copy
    of its argument. *)
Theorem Vec2_unguarded_divisions (H : Math.impl) (h : heap) (u : ref)
    (z l : number) :
  (u < next h)%nat -> is_zero z = true ->
  (exists r h', Vec2.divided u z None h = Ok r h' /\
     not_finite (fst (vec2_of h' r)) = true /\
     not_finite (snd (vec2_of h' r)) = true) /\
  (Math.hypot H 0 0 = 0 ->
   exists o h1 r h2, Vec2.zero None h = Ok o h1 /\
     Vec2.withLen H o l None h1 = Ok r h2 /\ vec2_of h2 r = (NaN, NaN)) /\
  (forall m, m = Infinity \/ m = NaN ->
   exists r h', Vec2.lengthLimited H u m None h = Ok r h' /\
     vec2_of h' r = vec2_of h u).
Proof.
  intros Hu Hz. split; [|split].
  - unfold Vec2.divided, Vec2.uninitialized, dest, bind, ret, get, set, alloc.
    do 2 eexists. split; [reflexivity|]. unfold vec2_of. cbn [fst snd].
    repeat heap_step.
    assert (Z : (z =? 0) = true) by exact Hz.
    split; now apply div_by_zero_not_finite.
  - intros Hh.
    unfold Vec2.zero, Vec2.withLen, Vec2.uninitialized, dest, bind, ret, get, set, alloc.
    cbv zeta. do 4 eexists. split; [reflexivity|]. split; [reflexivity|].
    unfold vec2_of. repeat heap_step. cbn [arr_set arr_put arr_get arr_read nums map nth ToNumber].
    rewrite Hh. f_equal; now apply zero_times_over_zero.
  - intros m Hm.
    unfold Vec2.lengthLimited, Vec2.uninitialized, dest, bind, ret, get, new_Array.
    cbv zeta.
    assert (C : forall x, (m <? x) = false).
    { intros x. destruct Hm as [->| ->]; [apply ltb_Infinity_l | apply ltb_NaN_l]. }
    rewrite C.
    unfold Vec2.copy, dest, bind, ret, read, put.
    do 2 eexists. split; [reflexivity|]. unfold vec2_of.
    repeat heap_step. reflexivity.
Qed.

Lemma Vec2_unguarded_divisions_witness :
  (1 < next unit_box_heap)%nat /\ is_zero 0 = true /\
  Math.hypot sample_math 0 0 = 0 /\
  (exists r h', Vec2.divided 1 0 None unit_box_heap = Ok r h' /\
     not_finite (fst (vec2_of h' r)) = true /\
     not_finite (snd (vec2_of h' r)) = true) /\
  (Math.hypot sample_math 0 0 = 0 ->
   exists o h1 r h2, Vec2.zero None unit_box_heap = Ok o h1 /\
     Vec2.withLen sample_math o 1 None h1 = Ok r h2 /\ vec2_of h2 r = (NaN, NaN)) /\
  (forall m, m = Infinity \/ m = NaN ->
   exists r h', Vec2.lengthLimited sample_math 1 m None unit_box_heap = Ok r h' /\
     vec2_of h' r = vec2_of unit_box_heap 1).
Proof.
  assert (H1 : (1 < next unit_box_heap)%nat) by (cbn; lia).
  split; [exact H1|]. split; [reflexivity|]. split; [reflexivity|].
  exact (@Vec2_unguarded_divisions sample_math unit_box_heap 1%nat 0 1 H1 eq_refl).
Defined.

(** ** The perspective divide *)

Lemma perspective_weight (x y z : number) :
  not_finite x = false -> not_finite y = false -> is_zero z = false ->
  0 * x + 0 * y + -1 * z + 0 = - z.
Proof.
  intros Fx Fy Zz. rewrite mul_neg_one_l.
  assert (Zo : is_zero (- z) = false) by now rewrite is_zero_opp.
  rewrite (@add_zero_l_nonzero (- z) (0 * x + 0 * y)); [|apply add_zero_zero; now apply mul_zero_finite|assumption].
  now apply add_zero_r_nonzero.
Qed.

(** X21.  The matrix of [Mat4.perspective] applied by [Mat4.transformPoint] to
    a point with finite coordinates whose depth [z] is not zero: the
    weight is exactly [-z], and the image has the values
    [(c1 * x / -z, c0 * y / -z, (m22 * z + m23) / -z)], where [c1], [c0],
    [m22] and [m23] are the entries 0, 5, 10 and 11 of the matrix,
    whatever the parameters of the projection are. *)
Theorem perspective_divides_by_depth (H : Math.impl) (params : PerspectiveParams)
    (h : heap) (P : ref) :
  (P < next h)%nat ->
  not_finite (arr_get (cells h P) 0) = false ->
  not_finite (arr_get (cells h P) 1) = false ->
  not_finite (arr_get (cells h P) 2) = false ->
  is_zero (arr_get (cells h P) 2) = false ->
  let x := arr_get (cells h P) 0 in
  let y := arr_get (cells h P) 1 in
  let z := arr_get (cells h P) 2 in
  exists A h1 r h2,
    Mat4.perspective H params h = Ok A h1 /\
    Mat4.transformPoint A P h1 = Ok r h2 /\
    weight (cells h1 A) x y z = - z /\
    let M i := arr_get (cells h1 A) i in
    same_vec3 (vec3_of h2 r)
      (M 0%nat * x / - z, M 5%nat * y / - z, (M 10%nat * z + M 11%nat) / - z).
Proof.
  intros HP Fx Fy Fz Zz. cbv zeta. destruct params as [fovy width height near far].
  unfold Mat4.perspective, Mat4. cbv zeta.
  set (c0 := near / Math.tan H (0.5 * fovy * DEG_TO_RAD)).
  set (c1 := c0 * height / width).
  set (a := - (near + far) / (far - near)).
  set (b := -2 * near * far / (far - near)).
  set (m := [c1; 0; 0; 0; 0; c0; 0; 0; 0; 0; a; b; 0; 0; -1; 0]).
  set (h1 := extend h m).
  assert (E1 : (bind (alloc m) (fun data => ret data)) h = Ok (next h) h1) by reflexivity.
  assert (Hm : cells h1 (next h) = nums m) by apply cells_extend_new.
  assert (HP1 : cells h1 P = cells h P) by (apply cells_extend_old; lia).
  pose proof (transformPoint_run h1 (next h) P) as T.
  unfold transformPoint_spec in T. cbv zeta in T. rewrite Hm, HP1 in T.
  unfold m in T. cbn [arr_get arr_read nums map nth ToNumber] in T.
  set (x := arr_get (cells h P) 0) in *.
  set (y := arr_get (cells h P) 1) in *.
  set (z := arr_get (cells h P) 2) in *.
  pose proof (@perspective_weight x y z Fx Fy Zz) as W. rewrite W in T.
  do 4 eexists. split; [exact E1|]. split; [exact T|]. split.
  - unfold weight. rewrite Hm. unfold m. cbn [arr_get arr_read nums map nth ToNumber]. exact W.
  - rewrite Hm. unfold m. cbn [arr_get arr_read nums map nth ToNumber].
    unfold same_vec3, x3, y3, z3, vec3_of. rewrite cells_extend_new.
    cbn [arr_get arr_read nums map nth ToNumber fst snd].
    assert (Zw : is_zero (- z) = false) by now rewrite is_zero_opp.
    pose proof (@mul_zero_finite 0 x eq_refl Fx) as Zx.
    pose proof (@mul_zero_finite 0 y eq_refl Fy) as Zy.
    pose proof (@mul_zero_finite 0 z eq_refl Fz) as Z0.
    split; [|split]; apply div_absorbs; try assumption.
    + apply absorbs_add_r; [|reflexivity]. apply absorbs_add_r; [|exact Z0].
      apply absorbs_add_r; [apply absorbs_refl|exact Zy].
    + apply absorbs_add_r; [|reflexivity]. apply absorbs_add_r; [|exact Z0].
      apply absorbs_add_l; [apply absorbs_refl|exact Zx].
    + apply absorbs_then_add. apply absorbs_add_l; [apply absorbs_refl|].
      now apply add_zero_zero.
Qed.

Lemma perspective_divides_by_depth_witness :
  (1 < next eye_heap)%nat /\
  not_finite (arr_get (cells eye_heap 1) 0) = false /\
  not_finite (arr_get (cells eye_heap 1) 1) = false /\
  not_finite (arr_get (cells eye_heap 1) 2) = false /\
  is_zero (arr_get (cells eye_heap 1) 2) = false /\
  exists A h1 r h2,
    Mat4.perspective sample_math (Build_PerspectiveParams 90 4 3 1 100) eye_heap
      = Ok A h1 /\
    Mat4.transformPoint A 1 h1 = Ok r h2 /\
    weight (cells h1 A) (arr_get (cells eye_heap 1) 0) (arr_get (cells eye_heap 1) 1)
           (arr_get (cells eye_heap 1) 2) = - arr_get (cells eye_heap 1) 2 /\
    let M i := arr_get (cells h1 A) i in
    same_vec3 (vec3_of h2 r)
      (M 0%nat * arr_get (cells eye_heap 1) 0 / - arr_get (cells eye_heap 1) 2,
       M 5%nat * arr_get (cells eye_heap 1) 1 / - arr_get (cells eye_heap 1) 2,
       (M 10%nat * arr_get (cells eye_heap 1) 2 + M 11%nat)
         / - arr_get (cells eye_heap 1) 2).
Proof.
  assert (H1 : (1 < next eye_heap)%nat) by (cbn; lia).
  split; [exact H1|]. do 4 (split; [reflexivity|]).
  exact (@perspective_divides_by_depth sample_math (Build_PerspectiveParams 90 4 3 1 100)
           eye_heap 1%nat H1 eq_refl eq_refl eq_refl eq_refl).
Defined.

(** ** Rotating by no angle *)

Lemma get_after_set (h : heap) (a : ref) (i : nat) (v : number) (r : ref) (j : nat) :
  arr_get (cells (write h a (arr_set (cells h a) i v)) r) j =
  if (Nat.eqb r a && Nat.eqb j i)%bool then v else arr_get (cells h r) j.
Proof.
  destruct (Nat.eqb r a) eqn:Era.
  - apply Nat.eqb_eq in Era. subst r. rewrite cells_write_same.
    destruct (Nat.eqb j i) eqn:Eji; cbn [andb].
    + apply Nat.eqb_eq in Eji. subst j. apply arr_get_set_same.
    + apply Nat.eqb_neq in Eji. now apply arr_get_set_other.
  - apply Nat.eqb_neq in Era. cbn [andb]. now rewrite cells_write_other.
Qed.

(** A rotation by an angle whose cosine is [1] and whose sine is [0]
    replaces the entry [a] by [1 * a - 0 * b], or by [1 * a + 0 * b]. *)
Lemma unrotated_sub (a b : number) :
  not_finite b = false -> SameValueZero (1 * a - 0 * b) a = true.
Proof.
  intros Fb. rewrite mul_one_l. apply sub_zero_r_same. now apply mul_zero_finite.
Qed.

Lemma unrotated_add (a b : number) :
  not_finite b = false -> SameValueZero (1 * a + 0 * b) a = true.
Proof.
  intros Fb. rewrite mul_one_l. apply add_zero_r_same. now apply mul_zero_finite.
Qed.

Ltac unrotated F :=
  eexists; split; [reflexivity|]; split; [reflexivity|];
  intros r j; rewrite !get_after_set;
  destruct (Nat.eqb r _) eqn:Er; cbn [andb]; [|apply SameValueZero_refl];
  apply Nat.eqb_eq in Er; subst r;
  do 12 (destruct j as [|j]; cbn [Nat.eqb];
         [first [apply SameValueZero_refl
                | apply unrotated_sub; apply F; lia
                | apply unrotated_add; apply F; lia]|]);
  apply SameValueZero_refl.

(** X22.  A rotation by the angle [0] about any of the three axes, on a
    host whose cosine of [0] is [1] and whose sine of [0] is [0], leaves a
    matrix whose first three rows are finite as it was: no array is
    allocated and every entry of every array reads as the same value
    (a zero entry may change its sign). *)
Theorem rotation_by_zero_angle (H : Math.impl) (A : ref) (h : heap) :
  Math.cos H 0 = 1 -> Math.sin H 0 = 0 ->
  (forall j, (j < 12)%nat -> not_finite (arr_get (cells h A) j) = false) ->
  keeps_values (MatA.rotateX H A 0) h /\
  keeps_values (MatA.rotateY H A 0) h /\
  keeps_values (MatA.rotateZ H A 0) h.
Proof.
  intros Hc Hs F. unfold keeps_values.
  split; [|split].
  - unfold MatA.rotateX. cbv zeta. rewrite Hc, Hs. cbv [bind get set]. unrotated F.
  - unfold MatA.rotateY. cbv zeta. rewrite Hc, Hs. cbv [bind get set]. unrotated F.
  - unfold MatA.rotateZ. cbv zeta. rewrite Hc, Hs. cbv [bind get set]. unrotated F.
Qed.

Lemma rotation_by_zero_angle_witness :
  Math.cos sample_math 0 = 1 /\ Math.sin sample_math 0 = 0 /\
  (forall j, (j < 12)%nat -> not_finite (arr_get (cells eye_heap 0) j) = false) /\
  keeps_values (MatA.rotateX sample_math 0 0) eye_heap /\
  keeps_values (MatA.rotateY sample_math 0 0) eye_heap /\
  keeps_values (MatA.rotateZ sample_math 0 0) eye_heap.
Proof.
  assert (F : forall j, (j < 12)%nat -> not_finite (arr_get (cells eye_heap 0) j) = false).
  { intros j Hj. do 12 (destruct j as [|j]; [reflexivity|]). lia. }
  split; [reflexivity|]. split; [reflexivity|]. split; [exact F|].
  exact (@rotation_by_zero_angle sample_math 0%nat eye_heap eq_refl eq_refl F).
Defined.

(** ** Vectors that are not initialised *)

(** X23.  [Vec2.uninitialized] returns a new array of two holes, which
    read as [undefined] and not as numbers: [Vec2.str] prints them as
    such, [Vec2.isZero] is false, and [Vec2.copy] copies them as they
    are.  The operations that compute with the elements read them as NaN:
    [Vec2.scale] by 1 leaves the numbers [(NaN, NaN)] in the vector, and
    [Vec2.lper] in place leaves NaN in the first element and [undefined]
    in the second. *)
Theorem uninitialized_vector_is_undefined (H : Host) (h : heap) :
  exists u h0,
    Vec2.uninitialized h = Ok u h0 /\
    u = next h /\ next h0 = S (next h) /\
    cells h0 u = [Undefined; Undefined] /\
    Vec2.str (toString H) u h0 = Ok "[undefined undefined]"%string h0 /\
    Vec2.isZero u h0 = Ok false h0 /\
    (exists c h1, Vec2.copy u None h0 = Ok c h1 /\
                  c <> u /\ cells h1 c = [Undefined; Undefined]) /\
    (exists h1, Vec2.scale u 1 h0 = Ok tt h1 /\ cells h1 u = nums [NaN; NaN]) /\
    (exists h1, Vec2.lper u (Some u) h0 = Ok u h1 /\
                cells h1 u = [Num NaN; Undefined]).
Proof.
  exists (next h), (grow h (holes 2)).
  assert (C : cells (grow h (holes 2)) (next h) = [Undefined; Undefined])
    by apply cells_grow_new.
  split; [reflexivity|]. split; [reflexivity|]. split; [reflexivity|].
  split; [exact C|]. split; [|split; [|split; [|split]]].
  - unfold Vec2.str, bind, read, ret. now rewrite C.
  - unfold Vec2.isZero, bind, read, ret. now rewrite C.
  - unfold Vec2.copy, Vec2.uninitialized, dest, bind, ret, read, put, new_Array.
    do 2 eexists. split; [reflexivity|]. split; [cbn [next grow]; lia|].
    rewrite !cells_write_same, cells_grow_new.
    rewrite cells_write_other by (cbn [next grow]; lia).
    rewrite !cells_grow_old by (cbn [next grow]; lia). now rewrite C.
  - unfold Vec2.scale, bind, get, set.
    eexists. split; [reflexivity|].
    rewrite !cells_write_same. now rewrite C.
  - unfold Vec2.lper, dest, bind, ret, get, set, read, put.
    eexists. split; [reflexivity|].
    rewrite !cells_write_same. now rewrite C.
Qed.
